(** * A free-list allocator over a fixed heap buffer

    Shallow embedding of [allocator.h] / [allocator.cpp]: one static buffer of
    [HEAP_SIZE] bytes carrying in-band block headers, a singly linked free
    list threaded through the headers, first-fit allocation with splitting
    and release with coalescing of the two address neighbours.

    Conventions of the embedding.
    - A pointer into the buffer is its byte offset from [heap_buffer]
      (a [Z]); a nullable pointer is an [option Z], [None] being [nullptr].
    - [size_t] is 64 bits wide (LP64): every [size_t] computation is
      reduced with [wrap]; [sizeof(BlockHeader)] is 24 (8 + 1 + 7 bytes of
      padding + 8).
    - The buffer is seen through the headers stored in it: a finite map
      from offsets to header records.  [memset] leaves every byte zero, so
      an offset that holds no record reads as the all-zero header.
    - Every [while] loop is a [Fixpoint] on a fuel argument that returns
      [None] when the fuel runs out before the loop exits.
    - The records at different offsets are independent of each other:
      they show neither two headers that overlap nor the bytes the caller
      writes through the pointers handed out.  Module [raw], at the end of
      the definitions, keeps the buffer byte by byte and has the
      functions of the allocator once more, load by load and store by
      store.  Runs in which a header is read from bytes that another
      header or the caller has written are settled there, and on the runs
      of [raw.reach] the records are shown to be what the bytes hold
      ([raw_reach_records]).
    - [heap_buffer] is taken to start at an address that is a multiple of
      8, so that a pointer is 8-byte aligned when its offset is. *)

From Stdlib Require Import ZArith Lia List Bool.
From Stdlib Require String.
From stdpp Require Import base option list gmap.

Local Open Scope Z_scope.

(** ** Constants of [allocator.h] *)

Definition ALIGN_SIZE : Z := 8.
Definition HEAP_SIZE : Z := 1024 * 1024.

(** [size_t] arithmetic is modulo [2^64]. *)
Definition SIZE_MODULUS : Z := 2 ^ 64.
Definition wrap (z : Z) : Z := z mod SIZE_MODULUS.

Definition sizeof_BlockHeader : Z := 24.

(** ** Block headers and the allocator state *)

Record BlockHeader : Type := mkBlockHeader {
  size : Z;
  is_free : bool;
  next : option Z
}.

(** What a header reads as in memory that was only ever zeroed. *)
Definition zero_header : BlockHeader := mkBlockHeader 0 false None.

(** The two globals of [allocator.cpp]. *)
Record allocator : Type := mkAllocator {
  heap_buffer : gmap Z BlockHeader;
  free_list : option Z
}.

Definition hdr (st : allocator) (a : Z) : BlockHeader :=
  default zero_header (heap_buffer st !! a).

(** Field stores [a->size = v], [a->is_free = v], [a->next = v]. *)
Definition set_size (st : allocator) (a : Z) (v : Z) : allocator :=
  mkAllocator
    (<[a := mkBlockHeader v (is_free (hdr st a)) (next (hdr st a))]> (heap_buffer st))
    (free_list st).

Definition set_is_free (st : allocator) (a : Z) (v : bool) : allocator :=
  mkAllocator
    (<[a := mkBlockHeader (size (hdr st a)) v (next (hdr st a))]> (heap_buffer st))
    (free_list st).

Definition set_next (st : allocator) (a : Z) (v : option Z) : allocator :=
  mkAllocator
    (<[a := mkBlockHeader (size (hdr st a)) (is_free (hdr st a)) v]> (heap_buffer st))
    (free_list st).

Definition set_free_list (st : allocator) (v : option Z) : allocator :=
  mkAllocator (heap_buffer st) v.

(** [BlockHeader::get_data] and [BlockHeader::get_header]. *)
Definition get_data (block : Z) : Z := block + sizeof_BlockHeader.
Definition get_header (ptr : Z) : Z := ptr - sizeof_BlockHeader.

(** ** [align_size], [init_allocator], [is_valid_ptr], [get_min_block_size] *)

Definition align_size (sz : Z) : Z :=
  Z.land (wrap (sz + ALIGN_SIZE - 1)) (wrap (Z.lnot (ALIGN_SIZE - 1))).

Definition init_allocator : allocator :=
  mkAllocator {[ 0 := mkBlockHeader HEAP_SIZE true None ]} (Some 0).

Definition is_valid_ptr (ptr : Z) : bool :=
  (0 <=? ptr) && (ptr <? HEAP_SIZE).

Definition get_min_block_size : Z :=
  align_size (wrap (sizeof_BlockHeader + 1)).

(** [total_size] as both [split_block] and [my_malloc] compute it. *)
Definition total_size (requested_size : Z) : Z :=
  wrap (sizeof_BlockHeader + align_size requested_size).

(** ** [split_block] *)

Definition split_block (st : allocator) (block : Z) (requested_size : Z)
  : allocator * Z :=
  let aligned_size := align_size requested_size in
  let total_size := wrap (sizeof_BlockHeader + aligned_size) in
  let min_remaining := get_min_block_size in
  if size (hdr st block) <? wrap (total_size + min_remaining) then
    (st, block)
  else
    let new_block := block + total_size in
    let st := set_size st new_block (wrap (size (hdr st block) - total_size)) in
    let st := set_is_free st new_block true in
    let st := set_size st block total_size in
    let st := set_next st new_block (next (hdr st block)) in
    let st := set_next st block (Some new_block) in
    (st, block).

(** ** [remove_from_free_list] *)

(** The scan [while (current && current->next != block)]; the result is
    the value of [current] when the loop exits. *)
Fixpoint remove_scan (fuel : nat) (st : allocator) (block : Z)
  (current : option Z) : option (option Z) :=
  match fuel with
  | O => None
  | S fuel =>
      match current with
      | None => Some None
      | Some c =>
          if decide (next (hdr st c) = Some block) then Some (Some c)
          else remove_scan fuel st block (next (hdr st c))
      end
  end.

Definition remove_from_free_list (fuel : nat) (st : allocator) (block : Z)
  : option allocator :=
  match free_list st with
  | None => Some st
  | Some first =>
      if decide (first = block) then
        Some (set_free_list st (next (hdr st block)))
      else
        current ← remove_scan fuel st block (free_list st);
        match current with
        | Some c => Some (set_next st c (next (hdr st block)))
        | None => Some st
        end
  end.

(** ** [coalesce_block] *)

(** The backward search [while (prev_block_end < block_start)]; the result
    is the value of [prev_block] when the loop exits. *)
Fixpoint coalesce_scan (fuel : nat) (st : allocator) (block_start : Z)
  (prev_block_end : Z) : option (option Z) :=
  match fuel with
  | O => None
  | S fuel =>
      if prev_block_end <? block_start then
        let current := prev_block_end in
        let current_end := prev_block_end + size (hdr st current) in
        if (current_end =? block_start) && is_free (hdr st current) then
          Some (Some current)
        else if block_start <=? current_end then Some None
        else coalesce_scan fuel st block_start current_end
      else Some None
  end.

Definition coalesce_block (fuel : nat) (st : allocator) (block : Z)
  : option (allocator * option Z) :=
  let heap_start := 0 in
  let heap_end := HEAP_SIZE in
  let block_start := block in
  let block_end := block_start + size (hdr st block) in
  st ← (if block_end <? heap_end then
          let next_block := block_end in
          if is_free (hdr st next_block) then
            st ← remove_from_free_list fuel st next_block;
            Some (set_size st block
                    (wrap (size (hdr st block) + size (hdr st next_block))))
          else Some st
        else Some st);
  prev_block ← coalesce_scan fuel st block_start heap_start;
  match prev_block with
  | Some pb =>
      Some (set_size st pb (wrap (size (hdr st pb) + size (hdr st block))),
            None)
  | None => Some (st, Some block)
  end.

(** ** [my_malloc] *)

(** What [my_malloc] does once the scan has found a block that is large
    enough: split, unlink, mark as allocated, return the data pointer. *)
Definition take_block (st : allocator) (requested_size : Z)
  (current : Z) (prev : option Z) : allocator * option Z :=
  let '(st, block_to_use) := split_block st current requested_size in
  let st :=
    if decide (Some block_to_use = free_list st) then
      set_free_list st (next (hdr st block_to_use))
    else
      match prev with
      | Some p => set_next st p (next (hdr st block_to_use))
      | None => st
      end in
  let st := set_is_free st block_to_use false in
  let st := set_next st block_to_use None in
  (st, Some (get_data block_to_use)).

(** The first-fit scan [while (current)]. *)
Fixpoint malloc_scan (fuel : nat) (st : allocator) (requested_size : Z)
  (current prev : option Z) : option (allocator * option Z) :=
  match fuel with
  | O => None
  | S fuel =>
      match current with
      | None => Some (st, None)
      | Some c =>
          if total_size requested_size <=? size (hdr st c) then
            Some (take_block st requested_size c prev)
          else
            malloc_scan fuel st requested_size (next (hdr st c)) (Some c)
      end
  end.

Definition my_malloc (fuel : nat) (st : allocator) (requested_size : Z)
  : option (allocator * option Z) :=
  if requested_size =? 0 then Some (st, None)
  else malloc_scan fuel st requested_size (free_list st) None.

(** ** [my_free] *)

(** The two messages [my_free] writes to [std::cerr]. *)
Inductive free_error : Type :=
| ERR_invalid_pointer
| ERR_double_free.

Definition my_free (fuel : nat) (st : allocator) (ptr : option Z)
  : option (allocator * option free_error) :=
  match ptr with
  | None => Some (st, None)
  | Some p =>
      let block := get_header p in
      if negb (is_valid_ptr block) then Some (st, Some ERR_invalid_pointer)
      else if is_free (hdr st block) then Some (st, Some ERR_double_free)
      else
        let st := set_is_free st block true in
        let st := set_next st block None in
        '(st, block_to_insert) ← coalesce_block fuel st block;
        match block_to_insert with
        | Some b =>
            let st := set_next st b (free_list st) in
            Some (set_free_list st (Some b), None)
        | None => Some (st, None)
        end
  end.

(** ** Diagnostics: [get_used_memory], [get_free_memory],
       [get_fragmentation_count], [print_heap_state] *)

(** The loop [while (current < heap_end)] of [get_used_memory]. *)
Fixpoint used_walk (fuel : nat) (st : allocator) (current used : Z)
  : option Z :=
  match fuel with
  | O => None
  | S fuel =>
      if current <? HEAP_SIZE then
        let block := current in
        let used :=
          if negb (is_free (hdr st block)) then
            wrap (used + wrap (size (hdr st block) - sizeof_BlockHeader))
          else used in
        used_walk fuel st (current + size (hdr st block)) used
      else Some used
  end.

Definition get_used_memory (fuel : nat) (st : allocator) : option Z :=
  used_walk fuel st 0 0.

(** The loop [while (current)] of [get_free_memory]. *)
Fixpoint free_walk (fuel : nat) (st : allocator) (current : option Z)
  (free : Z) : option Z :=
  match fuel with
  | O => None
  | S fuel =>
      match current with
      | Some c =>
          free_walk fuel st (next (hdr st c))
            (wrap (free + wrap (size (hdr st c) - sizeof_BlockHeader)))
      | None => Some free
      end
  end.

Definition get_free_memory (fuel : nat) (st : allocator) : option Z :=
  free_walk fuel st (free_list st) 0.

(** The loop [while (current)] of [get_fragmentation_count]. *)
Fixpoint count_walk (fuel : nat) (st : allocator) (current : option Z)
  (count : Z) : option Z :=
  match fuel with
  | O => None
  | S fuel =>
      match current with
      | Some c => count_walk fuel st (next (hdr st c)) (wrap (count + 1))
      | None => Some count
      end
  end.

Definition get_fragmentation_count (fuel : nat) (st : allocator) : option Z :=
  count_walk fuel st (free_list st) 0.

(** One line of the block layout table: address, size, user size, status. *)
Definition layout_row : Type := (Z * Z * Z * bool)%type.

(** The block layout loop of [print_heap_state], the only loop with a
    safety check; the boolean tells whether the corruption message was
    written. *)
Fixpoint layout_walk (fuel : nat) (st : allocator) (current block_num : Z)
  : option (list layout_row * bool) :=
  match fuel with
  | O => None
  | S fuel =>
      if current <? HEAP_SIZE then
        let block := current in
        let user_size := wrap (size (hdr st block) - sizeof_BlockHeader) in
        let row := (current, size (hdr st block), user_size,
                    is_free (hdr st block)) in
        let current := current + size (hdr st block) in
        let block_num := wrap (block_num + 1) in
        if (size (hdr st block) =? 0) || (10000 <? block_num) then
          Some ([row], true)
        else
          '(rows, corrupted) ← layout_walk fuel st current block_num;
          Some (row :: rows, corrupted)
      else Some ([], false)
  end.

(** The free list loop of [print_heap_state]: address and size of every
    entry. *)
Fixpoint free_list_walk (fuel : nat) (st : allocator) (free_block : option Z)
  : option (list (Z * Z)) :=
  match fuel with
  | O => None
  | S fuel =>
      match free_block with
      | Some b =>
          rows ← free_list_walk fuel st (next (hdr st b));
          Some ((b, size (hdr st b)) :: rows)
      | None => Some []
      end
  end.

Record heap_report : Type := mkHeapReport {
  report_used : Z;
  report_free : Z;
  report_fragmentation : Z;
  report_layout : list layout_row;
  report_corrupted : bool;
  report_free_list : list (Z * Z)
}.

Definition print_heap_state (fuel : nat) (st : allocator)
  : option heap_report :=
  used ← get_used_memory fuel st;
  free ← get_free_memory fuel st;
  fragmentation ← get_fragmentation_count fuel st;
  '(rows, corrupted) ← layout_walk fuel st 0 0;
  entries ← free_list_walk fuel st (free_list st);
  Some (mkHeapReport used free fragmentation rows corrupted entries).

(** ** Blocks, free-list entries, live allocations *)

(** The blocks the address-ordered walk visits. *)
Inductive is_block (st : allocator) : Z → Prop :=
| is_block_first : is_block st 0
| is_block_step a :
    is_block st a →
    a + size (hdr st a) < HEAP_SIZE →
    is_block st (a + size (hdr st a)).

(** The blocks the free-list walk visits. *)
Inductive in_free_list (st : allocator) : Z → Prop :=
| in_free_list_head a : free_list st = Some a → in_free_list st a
| in_free_list_step a b :
    in_free_list st a → next (hdr st a) = Some b → in_free_list st b.

(** The user size of the block behind a data pointer, as
    [print_heap_state] and [get_used_memory] compute it. *)
Definition usable_bytes (st : allocator) (ptr : Z) : Z :=
  wrap (size (hdr st (get_header ptr)) - sizeof_BlockHeader).

(** Address-ordered layout: [bs] lists the starts of the consecutive
    blocks that tile [[a, e)]; every block has at least the minimum size
    and a size that is a multiple of the alignment. *)
Fixpoint chain (st : allocator) (a : Z) (bs : list Z) (e : Z) : Prop :=
  match bs with
  | [] => a = e
  | b :: bs' =>
      b = a ∧ get_min_block_size ≤ size (hdr st a) ∧
      size (hdr st a) mod ALIGN_SIZE = 0 ∧
      chain st (a + size (hdr st a)) bs' e
  end.

Definition layout (st : allocator) (bs : list Z) : Prop :=
  chain st 0 bs HEAP_SIZE.

(** A segment of a linked list: [l] lists the entries met from [p] until
    the link [q] is reached. *)
Fixpoint lseg (st : allocator) (p : option Z) (l : list Z) (q : option Z)
  : Prop :=
  match l with
  | [] => p = q
  | a :: l' => p = Some a ∧ lseg st (next (hdr st a)) l' q
  end.

(** [fl] lists the entries of the free list, in link order. *)
Definition free_entries (st : allocator) (fl : list Z) : Prop :=
  lseg st (free_list st) fl None.

(** No free block is followed by a free block. *)
Definition no_adjacent_free (st : allocator) (bs : list Z) : Prop :=
  ∀ a, a ∈ bs → is_free (hdr st a) = true →
       a + size (hdr st a) < HEAP_SIZE →
       is_free (hdr st (a + size (hdr st a))) = false.

(** The heap invariant: the blocks tile the buffer, the free list holds
    each free block once and nothing else, and no two neighbours are both
    free. *)
Record heap_inv (st : allocator) (bs fl : list Z) : Prop := mkHeapInv {
  inv_layout : layout st bs;
  inv_entries : free_entries st fl;
  inv_nodup : NoDup fl;
  inv_free : ∀ a, a ∈ fl ↔ a ∈ bs ∧ is_free (hdr st a) = true;
  inv_adjacent : no_adjacent_free st bs
}.

(** The outstanding allocations, as pairs of a data pointer and the
    aligned size it was requested with, against the layout: they are the
    used blocks, and each block holds at least the aligned size and less
    than a minimum block more. *)
Record live_inv (st : allocator) (bs : list Z) (live : list (Z * Z))
  : Prop := mkLiveInv {
  live_nodup : NoDup (live.*1);
  live_used : ∀ p n, (p, n) ∈ live →
    get_header p ∈ bs ∧ is_free (hdr st (get_header p)) = false ∧
    0 < n ∧
    sizeof_BlockHeader + n ≤ size (hdr st (get_header p)) ∧
    size (hdr st (get_header p)) < sizeof_BlockHeader + n + get_min_block_size;
  live_all : ∀ b, b ∈ bs → is_free (hdr st b) = false →
    ∃ n, (get_data b, n) ∈ live
}.

(** ** Call sequences *)

(** Every [size_t] value. *)
Definition any_request (s : Z) : Prop := 0 ≤ s < SIZE_MODULUS.

(** The largest request for which neither [align_size] nor the addition
    of the header size wraps. *)
Definition MAX_REQUEST : Z := SIZE_MODULUS - 32.
Definition in_range (s : Z) : Prop := 0 ≤ s ≤ MAX_REQUEST.

Definition forget (p : Z) (live : list (Z * Z)) : list (Z * Z) :=
  filter (λ x, x.1 ≠ p) live.

(** [reach ok st live]: [st] is reached from [init_allocator] by calls of
    [my_malloc] with sizes in [ok] and calls of [my_free] on [nullptr], on
    pointers [my_free] rejects, and on pointers that [my_malloc] returned
    and that were not released since; [live] are those outstanding
    pointers with their aligned sizes. *)
Inductive reach (ok : Z → Prop) : allocator → list (Z * Z) → Prop :=
| reach_init : reach ok init_allocator []
| reach_malloc_null st live fuel s st' :
    reach ok st live → ok s →
    my_malloc fuel st s = Some (st', None) →
    reach ok st' live
| reach_malloc st live fuel s st' p :
    reach ok st live → ok s →
    my_malloc fuel st s = Some (st', Some p) →
    reach ok st' ((p, align_size s) :: live)
| reach_free st live fuel p n st' e :
    reach ok st live → (p, n) ∈ live →
    my_free fuel st (Some p) = Some (st', e) →
    reach ok st' (forget p live)
| reach_free_rejected st live fuel q st' e :
    reach ok st live →
    my_free fuel st q = Some (st', e) →
    q = None ∨ e ≠ None →
    reach ok st' live.

(** ** Auxiliary views of the loops *)

(** The block and the predecessor link the first-fit scan stops at, over
    the list of entries it walks. *)
Fixpoint first_fit (st : allocator) (total : Z) (l : list Z)
  (prev : option Z) : option (Z * option Z) :=
  match l with
  | [] => None
  | c :: l' =>
      if total <=? size (hdr st c) then Some (c, prev)
      else first_fit st total l' (Some c)
  end.

(** Taking [block] out of the free list, [l1] being the entries before
    it: the head moves when there are none, else the last of them is
    relinked. *)
Definition unlink (st : allocator) (l1 : list Z) (block : Z) : allocator :=
  match last l1 with
  | None => set_free_list st (next (hdr st block))
  | Some p => set_next st p (next (hdr st block))
  end.

(** The sum of the user sizes of the blocks of [l]. *)
Definition user_total (st : allocator) (l : list Z) : Z :=
  foldr (λ a acc, (size (hdr st a) - sizeof_BlockHeader) + acc) 0 l.

(** The two halves of [coalesce_block]: the merge with the next block and
    the merge into the previous one. *)
Definition coalesce_forward (fuel : nat) (st : allocator) (block : Z)
  : option allocator :=
  let block_end := block + size (hdr st block) in
  if block_end <? HEAP_SIZE then
    let next_block := block_end in
    if is_free (hdr st next_block) then
      st ← remove_from_free_list fuel st next_block;
      Some (set_size st block
              (wrap (size (hdr st block) + size (hdr st next_block))))
    else Some st
  else Some st.

Definition coalesce_backward (fuel : nat) (st : allocator) (block : Z)
  : option (allocator * option Z) :=
  prev_block ← coalesce_scan fuel st block 0;
  match prev_block with
  | Some pb =>
      Some (set_size st pb (wrap (size (hdr st pb) + size (hdr st block))),
            None)
  | None => Some (st, Some block)
  end.

(** The sum of the sizes of the blocks of [l]. *)
Definition span_total (st : allocator) (l : list Z) : Z :=
  foldr (λ a acc, size (hdr st a) + acc) 0 l.

(** The free block right before a block, among the blocks [l] that
    precede it, and the free block right after it, among the blocks [l]
    that follow it. *)
Definition pred_free (st : allocator) (l : list Z) : list Z :=
  match last l with
  | Some a => if is_free (hdr st a) then [a] else []
  | None => []
  end.

Definition succ_free (st : allocator) (l : list Z) : list Z :=
  match l with
  | a :: _ => if is_free (hdr st a) then [a] else []
  | [] => []
  end.

(** The free blocks among the blocks [bs], in the order of [bs]. *)
Definition free_blocks (st : allocator) (bs : list Z) : list Z :=
  filter (λ a, is_free (hdr st a) = true) bs.

(** The allocations that the used blocks of a layout stand for, each
    with the whole user size of its block. *)
Definition used_allocations (st : allocator) (bs : list Z) : list (Z * Z) :=
  (λ a, (get_data a, size (hdr st a) - sizeof_BlockHeader)) <$>
  filter (λ a, is_free (hdr st a) = false) bs.

(** ** Sample runs *)

(** The state a call leaves, for building concrete runs (the state is
    kept when the call runs out of fuel). *)
Definition state_after_malloc (fuel : nat) (st : allocator) (s : Z)
  : allocator :=
  match my_malloc fuel st s with
  | Some (st', _) => st'
  | None => st
  end.

Definition state_after_free (fuel : nat) (st : allocator) (p : option Z)
  : allocator :=
  match my_free fuel st p with
  | Some (st', _) => st'
  | None => st
  end.

(** [my_malloc(100)] on the fresh heap, then [my_free] of the result. *)
Definition sample_allocated : allocator :=
  state_after_malloc 1 init_allocator 100.

Definition sample_released : allocator :=
  state_after_free 2 sample_allocated (Some 24).

(** Two allocations of 8 bytes, then the release of the first: a free
    block, a used block, and the free rest of the heap. *)
Definition sample_hole : allocator :=
  state_after_free 3
    (state_after_malloc 1 (state_after_malloc 1 init_allocator 8) 8)
    (Some 24).

(** A request so large that [sizeof(BlockHeader) + align_size(size)]
    wraps around to [0]. *)
Definition WRAPPING_REQUEST : Z := SIZE_MODULUS - 25.

(** [my_malloc(WRAPPING_REQUEST)] on the fresh heap. *)
Definition sample_wrapped : allocator :=
  state_after_malloc 1 init_allocator WRAPPING_REQUEST.

(** ... and then [my_free] of the pointer it returned. *)
Definition sample_wrapped_released : allocator :=
  state_after_free 2 sample_wrapped (Some 24).

(** [a = my_malloc(8)], [b = my_malloc(WRAPPING_REQUEST)], [my_free(a)],
    [my_free(b)]. *)
Definition sample_wrapped_neighbours : allocator :=
  state_after_free 3
    (state_after_free 3
       (state_after_malloc 2 (state_after_malloc 1 init_allocator 8)
          WRAPPING_REQUEST)
       (Some 24))
    (Some 56).

(** The largest request that leaves no room for a split on the fresh
    heap: one alignment unit less than the whole user size. *)
Definition sample_whole : allocator :=
  state_after_malloc 1 init_allocator
    (HEAP_SIZE - sizeof_BlockHeader - ALIGN_SIZE).

(** ** Accounting *)

(** The used blocks among the blocks [bs], in the order of [bs]. *)
Definition used_blocks (st : allocator) (bs : list Z) : list Z :=
  filter (λ a, is_free (hdr st a) = false) bs.

(** The bytes held by the outstanding allocations [live], each counted
    with the user size of its block. *)
Definition live_bytes (st : allocator) (live : list (Z * Z)) : Z :=
  foldr (λ x acc, usable_bytes st x.1 + acc) 0 live.

(** A layout of blocks of at least the minimum size has at most this
    many blocks. *)
Definition MAX_BLOCKS : Z := HEAP_SIZE / get_min_block_size.

(** Fuel that lets every loop of the allocator run to its exit on a
    well-formed heap: no loop does more than one step per block and one
    per entry of the free list. *)
Definition ENOUGH_FUEL : nat := Z.to_nat (2 * MAX_BLOCKS + 1).

(** The line [print_heap_state] prints for the block at [a], and the
    line it prints for the free-list entry [b]. *)
Definition block_row (st : allocator) (a : Z) : layout_row :=
  (a, size (hdr st a), wrap (size (hdr st a) - sizeof_BlockHeader),
   is_free (hdr st a)).

Definition entry_row (st : allocator) (b : Z) : Z * Z :=
  (b, size (hdr st b)).

(** [n] allocations of 8 bytes in a row on the fresh heap: the state and
    the pointers handed out, latest first. *)
Fixpoint sample_many (n : nat) : allocator * list (Z * Z) :=
  match n with
  | O => (init_allocator, [])
  | S n =>
      let '(st, live) := sample_many n in
      match my_malloc 1 st 8 with
      | Some (st', Some p) => (st', (p, align_size 8) :: live)
      | _ => (st, live)
      end
  end.

(** A heap whose free list has been overwritten so that its one entry
    links to itself. *)
Definition sample_self_linked : allocator :=
  set_next init_allocator 0 (Some 0).

(** The block at offset 32 of [sample_hole] marked free, as [my_free]
    hands it to [coalesce_block], and the state [coalesce_block] leaves. *)
Definition sample_hole_marked : allocator :=
  set_next (set_is_free sample_hole 32 true) 32 None.

Definition sample_hole_coalesced : allocator :=
  match coalesce_block 3 sample_hole_marked 32 with
  | Some (st', _) => st'
  | None => sample_hole_marked
  end.

(** ** The test program of [main.cpp] *)

Module main_cpp.

Import Stdlib.Strings.String.

(** What a run of the program leaves behind besides the heap: the
    [strcpy] calls, each with its destination, the number of bytes it
    writes (the terminating byte included) and whether the block behind
    the destination is an allocated block of the buffer that holds that
    many bytes; the reports of [print_heap_state]; the fragmentation
    count that [test_fragmentation] prints; the messages of [my_free]. *)
Inductive event : Type :=
| EV_strcpy (dest : option Z) (bytes : Z) (in_bounds : bool)
| EV_report (rep : heap_report)
| EV_fragmentation (count : Z)
| EV_message (e : free_error).

(** A piece of the program: from the allocator state to [None] when a
    loop of the allocator runs out of fuel, and else to the value it
    returns ([None] when an [assert] has failed and the program was
    aborted), the state it leaves and the events in order. *)
Definition run (A : Type) : Type :=
  allocator → option (option A * allocator * list event).

Definition run_ret {A : Type} (a : A) : run A :=
  λ st, Some (Some a, st, []).

Definition run_bind {A B : Type} (k : A → run B) (m : run A) : run B :=
  λ st,
    match m st with
    | None => None
    | Some (None, st', log) => Some (None, st', log)
    | Some (Some a, st', log) =>
        match k a st' with
        | None => None
        | Some (r, st'', log') => Some (r, st'', log ++ log')
        end
    end.

#[global] Instance run_mret : MRet run := @run_ret.
#[global] Instance run_mbind : MBind run := @run_bind.

Definition in_bounds (st : allocator) (dest : option Z) (bytes : Z) : bool :=
  match dest with
  | Some p =>
      is_valid_ptr (get_header p) && negb (is_free (hdr st (get_header p))) &&
      (bytes <=? usable_bytes st p)
  | None => false
  end.

Section program.

(** The fuel given to every loop of the allocator, and the address of
    the local variable [stack_var] of [test_edge_cases], as an offset
    from the buffer. *)
Variable fuel : nat.
Variable stack_var : Z.

Definition call_init_allocator : run () :=
  λ _, Some (Some (), init_allocator, []).

Definition call_my_malloc (sz : Z) : run (option Z) :=
  λ st, '(st', p) ← my_malloc fuel st sz; Some (Some p, st', []).

Definition call_my_free (ptr : option Z) : run () :=
  λ st,
    '(st', e) ← my_free fuel st ptr;
    Some (Some (), st', match e with Some err => [EV_message err] | None => [] end).

Definition call_print_heap_state : run () :=
  λ st, rep ← print_heap_state fuel st; Some (Some (), st, [EV_report rep]).

Definition call_get_fragmentation_count : run Z :=
  λ st, count ← get_fragmentation_count fuel st; Some (Some count, st, []).

Definition c_assert (b : bool) : run () :=
  λ st, Some (if b then Some () else None, st, []).

Definition strcpy (dest : option Z) (src : string) : run () :=
  λ st,
    let bytes := Z.of_nat (String.length src) + 1 in
    Some (Some (), st, [EV_strcpy dest bytes (in_bounds st dest bytes)]).

Definition print_fragmentation (count : Z) : run () :=
  λ st, Some (Some (), st, [EV_fragmentation count]).

(** Test 1: three allocations, written to and never released. *)
Definition test_basic_allocation : run () :=
  ptr1 ← call_my_malloc 100;
  ptr2 ← call_my_malloc 200;
  ptr3 ← call_my_malloc 50;
  c_assert (bool_decide (ptr1 ≠ None));;
  c_assert (bool_decide (ptr2 ≠ None));;
  c_assert (bool_decide (ptr3 ≠ None));;
  strcpy ptr1 "Hello";;
  strcpy ptr2 "World";;
  strcpy ptr3 "Test";;
  call_print_heap_state.

(** Test 2: free and reuse. *)
Definition test_free_and_reuse : run () :=
  ptr1 ← call_my_malloc 100;
  ptr2 ← call_my_malloc 200;
  ptr3 ← call_my_malloc 50;
  call_my_free ptr2;;
  call_print_heap_state;;
  ptr4 ← call_my_malloc 150;
  c_assert (bool_decide (ptr4 ≠ None));;
  strcpy ptr4 "Reused";;
  call_my_free ptr1;;
  call_my_free ptr3;;
  call_my_free ptr4;;
  call_print_heap_state.

(** Test 3: block splitting. *)
Definition test_block_splitting : run () :=
  large ← call_my_malloc 5000;
  c_assert (bool_decide (large ≠ None));;
  call_print_heap_state;;
  call_my_free large;;
  call_print_heap_state;;
  small1 ← call_my_malloc 100;
  small2 ← call_my_malloc 200;
  small3 ← call_my_malloc 300;
  c_assert (bool_decide (small1 ≠ None));;
  c_assert (bool_decide (small2 ≠ None));;
  c_assert (bool_decide (small3 ≠ None));;
  call_print_heap_state;;
  call_my_free small1;;
  call_my_free small2;;
  call_my_free small3.

(** Test 4: coalescing. *)
Definition test_coalescing : run () :=
  ptr1 ← call_my_malloc 100;
  ptr2 ← call_my_malloc 200;
  ptr3 ← call_my_malloc 150;
  ptr4 ← call_my_malloc 250;
  call_print_heap_state;;
  call_my_free ptr2;;
  call_print_heap_state;;
  call_my_free ptr4;;
  call_print_heap_state;;
  call_my_free ptr1;;
  call_print_heap_state;;
  call_my_free ptr3;;
  call_print_heap_state.

(** Test 5: edge cases. *)
Definition test_edge_cases : run () :=
  zero_ptr ← call_my_malloc 0;
  c_assert (bool_decide (zero_ptr = None));;
  call_my_free None;;
  test_ptr ← call_my_malloc 100;
  call_my_free test_ptr;;
  call_my_free test_ptr;;
  call_my_free (Some stack_var);;
  call_print_heap_state.

(** The loop [for (int i = 0; i < 10; i++)] of [test_fragmentation],
    [n] being the number of rounds left; the result is the array
    [blocks] from index [i] on. *)
Fixpoint allocate_blocks (n : nat) (i : Z) : run (list (option Z)) :=
  match n with
  | O => mret []
  | S n =>
      block ← call_my_malloc (100 + i * 50);
      c_assert (bool_decide (block ≠ None));;
      blocks ← allocate_blocks n (i + 1);
      mret (block :: blocks)
  end.

(** The loops [for (int i = 1; i < 10; i += 2)] and
    [for (int i = 0; i < 10; i += 2)], by the indices they visit. *)
Fixpoint free_blocks_at (indices : list nat) (blocks : list (option Z))
  : run () :=
  match indices with
  | [] => mret ()
  | i :: indices =>
      call_my_free (default None (blocks !! i));;
      free_blocks_at indices blocks
  end.

(** Test 6: fragmentation. *)
Definition test_fragmentation : run () :=
  blocks ← allocate_blocks 10 0;
  call_print_heap_state;;
  free_blocks_at [1; 3; 5; 7; 9]%nat blocks;;
  call_print_heap_state;;
  count ← call_get_fragmentation_count;
  print_fragmentation count;;
  free_blocks_at [0; 2; 4; 6; 8]%nat blocks;;
  call_print_heap_state.

(** The demonstration. *)
Definition demo_usage : run () :=
  str1 ← call_my_malloc 50;
  str2 ← call_my_malloc 100;
  str3 ← call_my_malloc 75;
  strcpy str1 "First string";;
  strcpy str2 "Second string that is longer";;
  strcpy str3 "Third string";;
  call_print_heap_state;;
  call_my_free str2;;
  str4 ← call_my_malloc 80;
  strcpy str4 "New string in reused memory";;
  call_print_heap_state;;
  call_my_free str1;;
  call_my_free str3;;
  call_my_free str4;;
  call_print_heap_state.

Definition main : run Z :=
  call_init_allocator;;
  call_print_heap_state;;
  test_basic_allocation;;
  test_free_and_reuse;;
  test_block_splitting;;
  test_coalescing;;
  test_edge_cases;;
  test_fragmentation;;
  demo_usage;;
  mret 0.

End program.

(** The statics before [main]: a zeroed buffer and a null free list. *)
Definition program_start : allocator := mkAllocator ∅ None.

(** An event that shows nothing wrong: a [strcpy] within its block, a
    report without the corruption message. *)
Definition event_ok (ev : event) : bool :=
  match ev with
  | EV_strcpy _ _ in_bounds => in_bounds
  | EV_report rep => negb (report_corrupted rep)
  | EV_fragmentation _ => true
  | EV_message _ => true
  end.

Definition messages (log : list event) : list free_error :=
  omap (λ ev, match ev with EV_message e => Some e | _ => None end) log.

Definition fragmentation_printed (log : list event) : list Z :=
  omap (λ ev, match ev with EV_fragmentation c => Some c | _ => None end) log.

(** The fuel of the runs below, and an address outside the buffer. *)
Definition RUN_FUEL : nat := 32.
Definition outside : Z := HEAP_SIZE + sizeof_BlockHeader.

End main_cpp.
(** ** The buffer byte by byte *)

(** The header records above are independent of each other.  The module
    below keeps the buffer as the bytes it is, so that a header that lies
    over the bytes of another one, or over bytes the caller has written,
    reads what those bytes hold.  Every function is transcribed again
    from [allocator.cpp], with each load and each store at the place
    where the source has it. *)
Module raw.

(** What one byte of the buffer holds: a plain byte, or byte [index] of a
    stored pointer to [heap_buffer + target] (the address of
    [heap_buffer] is not fixed, so the bytes of a pointer into it are
    kept as such; [nullptr] is stored as zero bytes). *)
Inductive cell : Type :=
| Byte (b : Z)
| PtrByte (target : Z) (index : Z).

#[global] Instance cell_eq_dec : EqDecision cell.
Proof. solve_decision. Defined.

(** The two globals of [allocator.cpp]; a byte that was never written
    since [memset] is zero. *)
Record allocator : Type := mkAllocator {
  heap_buffer : gmap Z cell;
  free_list : option Z
}.

Definition cell_at (m : gmap Z cell) (a : Z) : cell :=
  default (Byte 0) (m !! a).

Fixpoint load_cells (m : gmap Z cell) (a : Z) (n : nat) : list cell :=
  match n with
  | O => []
  | S n => cell_at m a :: load_cells m (a + 1) n
  end.

Fixpoint store_cells (m : gmap Z cell) (a : Z) (cs : list cell)
  : gmap Z cell :=
  match cs with
  | [] => m
  | c :: cs => <[a := c]> (store_cells m (a + 1) cs)
  end.

(** A [size_t] is 8 bytes, least significant first; a [bool] is one
    byte, 0 or 1; a pointer is 8 bytes. *)
Fixpoint encode_uint (n : nat) (v : Z) : list cell :=
  match n with
  | O => []
  | S n => Byte (v mod 256) :: encode_uint n (v / 256)
  end.

Fixpoint decode_uint (cs : list cell) : option Z :=
  match cs with
  | [] => Some 0
  | Byte b :: cs => v ← decode_uint cs; Some (b + 256 * v)
  | PtrByte _ _ :: _ => None
  end.

Definition encode_bool (v : bool) : list cell :=
  [Byte (if v then 1 else 0)].

Definition decode_bool (cs : list cell) : option bool :=
  match cs with
  | [Byte 0] => Some false
  | [Byte 1] => Some true
  | _ => None
  end.

Definition ptr_byte (v : option Z) (index : Z) : cell :=
  match v with
  | None => Byte 0
  | Some target => PtrByte target index
  end.

Definition encode_ptr (v : option Z) : list cell :=
  ptr_byte v <$> [0; 1; 2; 3; 4; 5; 6; 7].

Definition decode_ptr (cs : list cell) : option (option Z) :=
  if decide (cs = encode_ptr None) then Some None
  else
    match cs with
    | PtrByte target _ :: _ =>
        if decide (cs = encode_ptr (Some target)) then Some (Some target)
        else None
    | _ => None
    end.

(** Loads and stores.  The result is [None] where the behaviour of the
    program is undefined: an access that is not inside the buffer, a
    [bool] read from a byte that is neither 0 nor 1, a pointer read from
    bytes that are not those of one stored pointer, a [size_t] read from
    bytes of a pointer. *)
Definition in_buffer (a : Z) (n : Z) : bool :=
  (0 <=? a) && (a + n <=? HEAP_SIZE).

Definition load {A : Type} (decode : list cell → option A) (width : nat)
  (r : allocator) (a : Z) : option A :=
  if in_buffer a (Z.of_nat width) then
    decode (load_cells (heap_buffer r) a width)
  else None.

Definition store (r : allocator) (a : Z) (cs : list cell)
  : option allocator :=
  if in_buffer a (Z.of_nat (length cs)) then
    Some (mkAllocator (store_cells (heap_buffer r) a cs) (free_list r))
  else None.

(** The fields of a [BlockHeader]: [size] at offset 0, [is_free] at
    offset 8, [next] at offset 16. *)
Definition OFFSET_size : Z := 0.
Definition OFFSET_is_free : Z := 8.
Definition OFFSET_next : Z := 16.

Definition load_size (r : allocator) (block : Z) : option Z :=
  load decode_uint 8 r (block + OFFSET_size).
Definition load_is_free (r : allocator) (block : Z) : option bool :=
  load decode_bool 1 r (block + OFFSET_is_free).
Definition load_next (r : allocator) (block : Z) : option (option Z) :=
  load decode_ptr 8 r (block + OFFSET_next).

Definition store_size (r : allocator) (block : Z) (v : Z)
  : option allocator :=
  store r (block + OFFSET_size) (encode_uint 8 v).
Definition store_is_free (r : allocator) (block : Z) (v : bool)
  : option allocator :=
  store r (block + OFFSET_is_free) (encode_bool v).
Definition store_next (r : allocator) (block : Z) (v : option Z)
  : option allocator :=
  store r (block + OFFSET_next) (encode_ptr v).

Definition set_free_list (r : allocator) (v : option Z) : allocator :=
  mkAllocator (heap_buffer r) v.

(** [p + n] for a pointer into the buffer: defined up to one past the
    end of the buffer. *)
Definition ptr_add (p : Z) (n : Z) : option Z :=
  if (0 <=? p + n) && (p + n <=? HEAP_SIZE) then Some (p + n) else None.

(** [init_allocator] *)
Definition init_allocator : allocator :=
  let initial_block := 0 in
  let m := ∅ in
  let m := store_cells m (initial_block + OFFSET_size) (encode_uint 8 HEAP_SIZE) in
  let m := store_cells m (initial_block + OFFSET_is_free) (encode_bool true) in
  let m := store_cells m (initial_block + OFFSET_next) (encode_ptr None) in
  mkAllocator m (Some initial_block).

(** [split_block] *)
Definition split_block (r : allocator) (block : Z) (requested_size : Z)
  : option (allocator * Z) :=
  let aligned_size := align_size requested_size in
  let total_size := wrap (sizeof_BlockHeader + aligned_size) in
  let min_remaining := get_min_block_size in
  block_size ← load_size r block;
  if block_size <? wrap (total_size + min_remaining) then Some (r, block)
  else
    new_block ← ptr_add block total_size;
    block_size ← load_size r block;
    r ← store_size r new_block (wrap (block_size - total_size));
    r ← store_is_free r new_block true;
    r ← store_size r block total_size;
    block_next ← load_next r block;
    r ← store_next r new_block block_next;
    r ← store_next r block (Some new_block);
    Some (r, block).

(** [remove_from_free_list] *)
Fixpoint remove_scan (fuel : nat) (r : allocator) (block : Z)
  (current : option Z) : option (option Z) :=
  match fuel with
  | O => None
  | S fuel =>
      match current with
      | None => Some None
      | Some c =>
          current_next ← load_next r c;
          if decide (current_next = Some block) then Some (Some c)
          else remove_scan fuel r block current_next
      end
  end.

Definition remove_from_free_list (fuel : nat) (r : allocator) (block : Z)
  : option allocator :=
  match free_list r with
  | None => Some r
  | Some first =>
      if decide (first = block) then
        block_next ← load_next r block;
        Some (set_free_list r block_next)
      else
        current ← remove_scan fuel r block (free_list r);
        match current with
        | Some c =>
            block_next ← load_next r block;
            store_next r c block_next
        | None => Some r
        end
  end.

(** [coalesce_block] *)
Fixpoint coalesce_scan (fuel : nat) (r : allocator) (block_start : Z)
  (prev_block_end : Z) : option (option Z) :=
  match fuel with
  | O => None
  | S fuel =>
      if prev_block_end <? block_start then
        let current := prev_block_end in
        current_size ← load_size r current;
        current_end ← ptr_add prev_block_end current_size;
        found ← (if current_end =? block_start then load_is_free r current
                 else Some false);
        if found : bool then Some (Some current)
        else if block_start <=? current_end then Some None
        else coalesce_scan fuel r block_start current_end
      else Some None
  end.

Definition coalesce_block (fuel : nat) (r : allocator) (block : Z)
  : option (allocator * option Z) :=
  let heap_start := 0 in
  let heap_end := HEAP_SIZE in
  let block_start := block in
  block_size ← load_size r block;
  block_end ← ptr_add block_start block_size;
  r ← (if block_end <? heap_end then
         let next_block := block_end in
         next_is_free ← load_is_free r next_block;
         if next_is_free : bool then
           r ← remove_from_free_list fuel r next_block;
           block_size ← load_size r block;
           next_size ← load_size r next_block;
           store_size r block (wrap (block_size + next_size))
         else Some r
       else Some r);
  prev_block ← coalesce_scan fuel r block_start heap_start;
  match prev_block with
  | Some pb =>
      prev_size ← load_size r pb;
      block_size ← load_size r block;
      r ← store_size r pb (wrap (prev_size + block_size));
      Some (r, None)
  | None => Some (r, Some block)
  end.

(** [my_malloc] *)
Definition take_block (r : allocator) (requested_size : Z)
  (current : Z) (prev : option Z) : option (allocator * option Z) :=
  '(r, block_to_use) ← split_block r current requested_size;
  r ← (if decide (Some block_to_use = free_list r) then
         block_next ← load_next r block_to_use;
         Some (set_free_list r block_next)
       else
         match prev with
         | Some p =>
             block_next ← load_next r block_to_use;
             store_next r p block_next
         | None => Some r
         end);
  r ← store_is_free r block_to_use false;
  r ← store_next r block_to_use None;
  Some (r, Some (get_data block_to_use)).

Fixpoint malloc_scan (fuel : nat) (r : allocator) (requested_size : Z)
  (current prev : option Z) : option (allocator * option Z) :=
  match fuel with
  | O => None
  | S fuel =>
      match current with
      | None => Some (r, None)
      | Some c =>
          current_size ← load_size r c;
          if total_size requested_size <=? current_size then
            take_block r requested_size c prev
          else
            current_next ← load_next r c;
            malloc_scan fuel r requested_size current_next (Some c)
      end
  end.

Definition my_malloc (fuel : nat) (r : allocator) (requested_size : Z)
  : option (allocator * option Z) :=
  if requested_size =? 0 then Some (r, None)
  else malloc_scan fuel r requested_size (free_list r) None.

(** [my_free] *)
Definition my_free (fuel : nat) (r : allocator) (ptr : option Z)
  : option (allocator * option free_error) :=
  match ptr with
  | None => Some (r, None)
  | Some p =>
      let block := get_header p in
      if negb (is_valid_ptr block) then Some (r, Some ERR_invalid_pointer)
      else
        block_is_free ← load_is_free r block;
        if block_is_free : bool then Some (r, Some ERR_double_free)
        else
          r ← store_is_free r block true;
          r ← store_next r block None;
          '(r, block_to_insert) ← coalesce_block fuel r block;
          match block_to_insert with
          | Some b =>
              r ← store_next r b (free_list r);
              Some (set_free_list r (Some b), None)
          | None => Some (r, None)
          end
  end.

(** A store of the caller to one byte of the buffer. *)
Definition poke (r : allocator) (a : Z) (c : cell) : allocator :=
  mkAllocator (<[a := c]> (heap_buffer r)) (free_list r).

(** ** Runs *)

Inductive call : Type :=
| Malloc (requested_size : Z)
| Free (ptr : option Z).

Inductive outcome : Type :=
| Returned (ptr : option Z)
| Released (message : option free_error).

(** The calls of a run one after the other, with what each returned or
    reported; [None] when a call runs out of fuel or has no defined
    behaviour. *)
Fixpoint replay (fuel : nat) (r : allocator) (calls : list call)
  : option (allocator * list outcome) :=
  match calls with
  | [] => Some (r, [])
  | Malloc requested_size :: calls =>
      '(r, ptr) ← my_malloc fuel r requested_size;
      '(r, outcomes) ← replay fuel r calls;
      Some (r, Returned ptr :: outcomes)
  | Free ptr :: calls =>
      '(r, message) ← my_free fuel r ptr;
      '(r, outcomes) ← replay fuel r calls;
      Some (r, Released message :: outcomes)
  end.

(** [reach r live]: [r] is reached from [init_allocator] by calls of
    [my_malloc] with sizes of at most [MAX_REQUEST]; by calls of
    [my_free] on [nullptr], on pointers that [my_malloc] returned and
    that were not released since, and calls of [my_free] that write a
    message; and by stores of the caller into an allocation that is
    outstanding, within the aligned size of its request.  [live] are the
    outstanding pointers with their aligned sizes. *)
Inductive reach : allocator → list (Z * Z) → Prop :=
| reach_init : reach init_allocator []
| reach_malloc_null r live fuel s r' :
    reach r live → in_range s →
    my_malloc fuel r s = Some (r', None) →
    reach r' live
| reach_malloc r live fuel s r' p :
    reach r live → in_range s →
    my_malloc fuel r s = Some (r', Some p) →
    reach r' ((p, align_size s) :: live)
| reach_free r live fuel p n r' e :
    reach r live → (p, n) ∈ live →
    my_free fuel r (Some p) = Some (r', e) →
    reach r' (forget p live)
| reach_free_rejected r live fuel q r' e :
    reach r live →
    my_free fuel r q = Some (r', e) →
    q = None ∨ e ≠ None →
    reach r' live
| reach_poke r live p n a c :
    reach r live → (p, n) ∈ live → p ≤ a < p + n →
    reach (poke r a c) live.

(** [released r0 live0 r live]: [r] is reached from [r0] without a call
    of [my_malloc], by calls of [my_free] and stores of the caller as in
    [reach]; [live0] and [live] are the outstanding pointers before and
    after. *)
Inductive released (r0 : allocator) (live0 : list (Z * Z))
  : allocator → list (Z * Z) → Prop :=
| released_refl : released r0 live0 r0 live0
| released_free r live fuel p n r' e :
    released r0 live0 r live → (p, n) ∈ live →
    my_free fuel r (Some p) = Some (r', e) →
    released r0 live0 r' (forget p live)
| released_free_rejected r live fuel q r' e :
    released r0 live0 r live →
    my_free fuel r q = Some (r', e) →
    q = None ∨ e ≠ None →
    released r0 live0 r' live
| released_poke r live p n a c :
    released r0 live0 r live → (p, n) ∈ live → p ≤ a < p + n →
    released r0 live0 (poke r a c) live.

(** The state a run leaves, for building concrete runs ([r] itself when
    a call of the run has no result). *)
Definition state_after (fuel : nat) (r : allocator) (calls : list call)
  : allocator :=
  match replay fuel r calls with
  | Some (r', _) => r'
  | None => r
  end.

(** One and two allocations of 8 bytes on the fresh heap. *)
Definition sample_one : allocator :=
  state_after 1 init_allocator [Malloc 8].

Definition sample_two : allocator :=
  state_after 1 init_allocator [Malloc 8; Malloc 8].

(** [a = my_malloc(16)], [b = my_malloc(8)], [my_free(a)], [my_free(b)],
    [c = my_malloc(8)]: the header that the last call sets up for the
    remainder of its split lies over the bytes of the header that [b]
    had. *)
Definition stale_header_run : list call :=
  [Malloc 16; Malloc 8; Free (Some 24); Free (Some 64); Malloc 8].

Definition sample_stale : allocator :=
  state_after 2 init_allocator stale_header_run.

(** The header of a block as its bytes read. *)
Definition view (r : allocator) (block : Z) : option BlockHeader :=
  block_size ← load_size r block;
  block_is_free ← load_is_free r block;
  block_next ← load_next r block;
  Some (mkBlockHeader block_size block_is_free block_next).

(** The user size of the block behind a data pointer. *)
Definition usable_bytes (r : allocator) (ptr : Z) : option Z :=
  block_size ← load_size r (get_header ptr);
  Some (wrap (block_size - sizeof_BlockHeader)).

End raw.

(** ** The bytes against the header records *)

(** The free lists are the same and the headers at the offsets [K] read
    as the records there. *)
Definition agree (K : Z → Prop) (r : raw.allocator) (st : allocator)
  : Prop :=
  raw.free_list r = free_list st ∧
  ∀ a, K a → raw.view r a = Some (hdr st a).

(** Two offsets that are the same or at least a header apart; an offset
    with room for a header inside the buffer and apart from the offsets
    [K]; offsets [K] that each have room. *)
Definition apart (a b : Z) : Prop :=
  a = b ∨ a + sizeof_BlockHeader ≤ b ∨ b + sizeof_BlockHeader ≤ a.

Definition room (K : Z → Prop) (a : Z) : Prop :=
  0 ≤ a ∧ a + sizeof_BlockHeader ≤ HEAP_SIZE ∧ ∀ b, K b → apart a b.

Definition spaced (K : Z → Prop) : Prop := ∀ a, K a → room K a.

(** How a call on the bytes goes along with the same call on the
    records: both run out of fuel, or both return the same result and
    leave bytes and records that agree. *)
Definition along {A : Type} (K : Z → Prop)
  (raw_result : option (raw.allocator * A))
  (result : option (allocator * A)) : Prop :=
  match result with
  | Some (st', x) => ∃ r', raw_result = Some (r', x) ∧ agree K r' st'
  | None => raw_result = None
  end.

(** * Verification *)

#[local] Set Warnings "-clear-no-such-hyp".

(** * Arithmetic of [size_t] *)

Lemma wrap_small z : 0 ≤ z < SIZE_MODULUS → wrap z = z.
Proof. intros Hz. unfold wrap. apply Z.mod_small. exact Hz. Qed.

Lemma wrap_range z : 0 ≤ wrap z < SIZE_MODULUS.
Proof. unfold wrap. apply Z.mod_pos_bound. reflexivity. Qed.

Lemma wrap_add_r a b : wrap (a + wrap b) = wrap (a + b).
Proof. unfold wrap. apply Zplus_mod_idemp_r. Qed.

Lemma land_align_mask x : 0 ≤ x → Z.land x (Z.lnot 7) = 8 * (x / 8).
Proof.
  intros Hx. apply Z.bits_inj'. intros n Hn.
  rewrite Z.land_spec, Z.lnot_spec by exact Hn.
  replace 8 with (2 ^ 3) by reflexivity.
  destruct (Z.lt_ge_cases n 3) as [Hlt | Hge].
  - rewrite (Z.mul_comm (2 ^ 3)), Z.mul_pow2_bits_low by exact Hlt.
    replace (Z.testbit 7 n) with true; [apply andb_false_r |].
    assert (n = 0 ∨ n = 1 ∨ n = 2) as [-> | [-> | ->]] by lia; reflexivity.
  - rewrite (Z.mul_comm (2 ^ 3)), Z.mul_pow2_bits by lia.
    rewrite Z.div_pow2_bits by lia.
    replace (n - 3 + 3) with n by lia.
    replace (Z.testbit 7 n) with false; [apply andb_true_r |].
    symmetry. apply (Z.bits_above_log2 7 n); [lia |].
    change (Z.log2 7) with 2. lia.
Qed.

Lemma align_size_eq s :
  align_size s = 8 * (wrap (s + 7) / 8).
Proof.
  unfold align_size, ALIGN_SIZE.
  replace (s + 8 - 1) with (s + 7) by lia.
  pose proof (wrap_range (s + 7)) as Hr.
  rewrite <- (land_align_mask (wrap (s + 7))) by lia.
  change (wrap (Z.lnot (8 - 1))) with (Z.land (Z.lnot 7) (Z.ones 64)).
  rewrite (Z.land_comm (Z.lnot 7)), Z.land_assoc.
  rewrite (Z.land_ones (wrap (s + 7))) by lia.
  change (wrap (s + 7) mod 2 ^ 64) with (wrap (wrap (s + 7))).
  rewrite (wrap_small (wrap (s + 7))) by exact Hr.
  reflexivity.
Qed.

Lemma align_size_in_range s :
  0 ≤ s ≤ MAX_REQUEST →
  s ≤ align_size s < s + 8 ∧ align_size s mod 8 = 0.
Proof.
  unfold MAX_REQUEST, SIZE_MODULUS. intros Hs.
  rewrite align_size_eq, wrap_small by (unfold SIZE_MODULUS; lia).
  pose proof (Z.div_mod (s + 7) 8 ltac:(lia)) as Hdm.
  pose proof (Z.mod_pos_bound (s + 7) 8 ltac:(lia)) as Hm.
  split; [lia |].
  rewrite Z.mul_comm. apply Z.mod_mul. lia.
Qed.

Lemma min_block_size_eq : get_min_block_size = 32.
Proof. reflexivity. Qed.

Lemma total_size_in_range s :
  0 ≤ s ≤ MAX_REQUEST →
  total_size s = sizeof_BlockHeader + align_size s.
Proof.
  intros Hs. pose proof (align_size_in_range s Hs) as [Ha _].
  unfold total_size. apply wrap_small.
  unfold MAX_REQUEST, SIZE_MODULUS, sizeof_BlockHeader in *. lia.
Qed.

(** * Reading a header after a store *)

Lemma hdr_set_size st a v b :
  hdr (set_size st a v) b =
  if decide (a = b) then mkBlockHeader v (is_free (hdr st a)) (next (hdr st a))
  else hdr st b.
Proof.
  unfold hdr at 1, set_size. simpl. rewrite lookup_insert.
  case_decide; reflexivity.
Qed.

Lemma hdr_set_is_free st a v b :
  hdr (set_is_free st a v) b =
  if decide (a = b) then mkBlockHeader (size (hdr st a)) v (next (hdr st a))
  else hdr st b.
Proof.
  unfold hdr at 1, set_is_free. simpl. rewrite lookup_insert.
  case_decide; reflexivity.
Qed.

Lemma hdr_set_next st a v b :
  hdr (set_next st a v) b =
  if decide (a = b) then mkBlockHeader (size (hdr st a)) (is_free (hdr st a)) v
  else hdr st b.
Proof.
  unfold hdr at 1, set_next. simpl. rewrite lookup_insert.
  case_decide; reflexivity.
Qed.

Lemma hdr_set_free_list st v b : hdr (set_free_list st v) b = hdr st b.
Proof. reflexivity. Qed.

Lemma size_set_size st a v b :
  size (hdr (set_size st a v) b) = if decide (a = b) then v else size (hdr st b).
Proof. rewrite hdr_set_size. case_decide; reflexivity. Qed.

Lemma size_set_is_free st a v b :
  size (hdr (set_is_free st a v) b) = size (hdr st b).
Proof. rewrite hdr_set_is_free. case_decide; subst; reflexivity. Qed.

Lemma size_set_next st a v b :
  size (hdr (set_next st a v) b) = size (hdr st b).
Proof. rewrite hdr_set_next. case_decide; subst; reflexivity. Qed.

Lemma is_free_set_size st a v b :
  is_free (hdr (set_size st a v) b) = is_free (hdr st b).
Proof. rewrite hdr_set_size. case_decide; subst; reflexivity. Qed.

Lemma is_free_set_is_free st a v b :
  is_free (hdr (set_is_free st a v) b) =
  if decide (a = b) then v else is_free (hdr st b).
Proof. rewrite hdr_set_is_free. case_decide; reflexivity. Qed.

Lemma is_free_set_next st a v b :
  is_free (hdr (set_next st a v) b) = is_free (hdr st b).
Proof. rewrite hdr_set_next. case_decide; subst; reflexivity. Qed.

Lemma next_set_size st a v b :
  next (hdr (set_size st a v) b) = next (hdr st b).
Proof. rewrite hdr_set_size. case_decide; subst; reflexivity. Qed.

Lemma next_set_is_free st a v b :
  next (hdr (set_is_free st a v) b) = next (hdr st b).
Proof. rewrite hdr_set_is_free. case_decide; subst; reflexivity. Qed.

Lemma next_set_next st a v b :
  next (hdr (set_next st a v) b) = if decide (a = b) then v else next (hdr st b).
Proof. rewrite hdr_set_next. case_decide; reflexivity. Qed.

Lemma free_list_set_size st a v : free_list (set_size st a v) = free_list st.
Proof. reflexivity. Qed.

Lemma free_list_set_is_free st a v :
  free_list (set_is_free st a v) = free_list st.
Proof. reflexivity. Qed.

Lemma free_list_set_next st a v : free_list (set_next st a v) = free_list st.
Proof. reflexivity. Qed.

Lemma free_list_set_free_list st v : free_list (set_free_list st v) = v.
Proof. reflexivity. Qed.

Create Rewrite HintDb heap.
#[local] Hint Rewrite
  hdr_set_free_list
  size_set_size size_set_is_free size_set_next
  is_free_set_size is_free_set_is_free is_free_set_next
  next_set_size next_set_is_free next_set_next
  free_list_set_size free_list_set_is_free free_list_set_next
  free_list_set_free_list : heap.

(** * Layouts *)

Lemma chain_ext st st' a bs e :
  (∀ x, x ∈ bs → size (hdr st' x) = size (hdr st x)) →
  chain st a bs e → chain st' a bs e.
Proof.
  revert a. induction bs as [| b bs IH]; intros a Hext Hc; [exact Hc |].
  destruct Hc as (-> & Hmin & Hal & Hc). simpl.
  rewrite (Hext a) by left.
  repeat split; try done.
  apply IH; [| exact Hc]. intros x Hx. apply Hext. by right.
Qed.

Lemma chain_le st a bs e : chain st a bs e → a ≤ e.
Proof.
  revert a. induction bs as [| b bs IH]; intros a Hc; simpl in Hc; [lia |].
  destruct Hc as (-> & Hmin & _ & Hc). apply IH in Hc.
  rewrite min_block_size_eq in Hmin. lia.
Qed.

Lemma chain_bounds st a bs e x :
  chain st a bs e → x ∈ bs →
  a ≤ x ∧ x + size (hdr st x) ≤ e ∧ 32 ≤ size (hdr st x) ∧
  size (hdr st x) mod 8 = 0.
Proof.
  revert a. induction bs as [| b bs IH]; intros a Hc Hx.
  - by apply elem_of_nil in Hx.
  - destruct Hc as (-> & Hmin & Hal & Hc).
    rewrite min_block_size_eq in Hmin.
    apply elem_of_cons in Hx as [-> | Hx].
    + apply chain_le in Hc. unfold ALIGN_SIZE in Hal. lia.
    + destruct (IH _ Hc Hx) as (? & ? & ? & ?). lia.
Qed.

Lemma chain_app st a l1 l2 e :
  chain st a (l1 ++ l2) e ↔ ∃ m, chain st a l1 m ∧ chain st m l2 e.
Proof.
  revert a. induction l1 as [| b l1 IH]; intros a; simpl.
  - split; [intros Hc; by exists a | intros (m & -> & Hc); exact Hc].
  - rewrite IH. split.
    + intros (-> & ? & ? & m & ? & ?). exists m. done.
    + intros (m & (-> & ? & ? & ?) & ?). repeat split; try done. by exists m.
Qed.

Lemma chain_mid st a l1 x l2 e :
  chain st a (l1 ++ x :: l2) e →
  chain st a l1 x ∧ 32 ≤ size (hdr st x) ∧ size (hdr st x) mod 8 = 0 ∧
  chain st (x + size (hdr st x)) l2 e.
Proof.
  rewrite chain_app. intros (m & H1 & -> & Hmin & Hal & H2).
  rewrite min_block_size_eq in Hmin. done.
Qed.

Lemma chain_mid_intro st a l1 x l2 e :
  chain st a l1 x → 32 ≤ size (hdr st x) → size (hdr st x) mod 8 = 0 →
  chain st (x + size (hdr st x)) l2 e →
  chain st a (l1 ++ x :: l2) e.
Proof.
  intros H1 Hmin Hal H2. rewrite chain_app. exists x. split; [done |].
  simpl. rewrite min_block_size_eq. done.
Qed.

Lemma chain_before st a l x y :
  chain st a l x → y ∈ l → y + size (hdr st y) ≤ x ∧ y < x.
Proof.
  intros Hc Hy. destruct (chain_bounds _ _ _ _ _ Hc Hy) as (? & ? & ? & ?). lia.
Qed.

Lemma chain_disjoint st a bs e x y :
  chain st a bs e → x ∈ bs → y ∈ bs → x < y → x + size (hdr st x) ≤ y.
Proof.
  intros Hc Hx Hy Hlt.
  apply list_elem_of_split in Hx as (l1 & l2 & ->).
  apply chain_mid in Hc as (H1 & _ & _ & H2).
  apply elem_of_app in Hy as [Hy | Hy].
  - pose proof (chain_before _ _ _ _ _ H1 Hy). lia.
  - apply elem_of_cons in Hy as [-> | Hy]; [lia |].
    destruct (chain_bounds _ _ _ _ _ H2 Hy) as (? & _). lia.
Qed.

Lemma chain_inside st a bs e x y :
  chain st a bs e → x ∈ bs → x < y < x + size (hdr st x) → y ∉ bs.
Proof.
  intros Hc Hx Hy Hin.
  pose proof (chain_disjoint _ _ _ _ _ _ Hc Hx Hin). lia.
Qed.

Lemma chain_NoDup st a bs e : chain st a bs e → NoDup bs.
Proof.
  revert a. induction bs as [| b bs IH]; intros a Hc; [constructor |].
  destruct Hc as (-> & Hmin & _ & Hc). rewrite min_block_size_eq in Hmin.
  apply NoDup_cons. split; [| by eapply IH].
  intros Hin. destruct (chain_bounds _ _ _ _ _ Hc Hin) as (? & _). lia.
Qed.

Lemma chain_succ st a bs e x :
  chain st a bs e → x ∈ bs →
  x + size (hdr st x) = e ∨ x + size (hdr st x) ∈ bs.
Proof.
  intros Hc Hx. apply list_elem_of_split in Hx as (l1 & l2 & ->).
  apply chain_mid in Hc as (_ & _ & _ & H2).
  destruct l2 as [| y l2]; simpl in H2; [by left |].
  destruct H2 as (-> & _). right. set_solver.
Qed.

Lemma chain_aligned st a bs e x :
  chain st a bs e → a mod 8 = 0 → x ∈ bs → x mod 8 = 0.
Proof.
  revert a. induction bs as [| b bs IH]; intros a Hc Ha Hx.
  - by apply elem_of_nil in Hx.
  - destruct Hc as (-> & _ & Hal & Hc). unfold ALIGN_SIZE in Hal.
    apply elem_of_cons in Hx as [-> | Hx]; [done |].
    apply (IH _ Hc); [| done].
    rewrite Z.add_mod, Ha, Hal by lia. reflexivity.
Qed.

Lemma chain_end_aligned st a bs e :
  chain st a bs e → a mod 8 = 0 → e mod 8 = 0.
Proof.
  revert a. induction bs as [| b bs IH]; intros a Hc Ha; simpl in Hc.
  - by subst.
  - destruct Hc as (-> & _ & Hal & Hc). unfold ALIGN_SIZE in Hal.
    apply (IH _ Hc). rewrite Z.add_mod, Ha, Hal by lia. reflexivity.
Qed.

(** * Linked lists *)

Lemma lseg_ext st st' p l q :
  (∀ x, x ∈ l → next (hdr st' x) = next (hdr st x)) →
  lseg st p l q → lseg st' p l q.
Proof.
  revert p. induction l as [| a l IH]; intros p Hext Hl; [exact Hl |].
  destruct Hl as (-> & Hl). simpl. split; [done |].
  rewrite (Hext a) by left. apply IH; [| exact Hl].
  intros x Hx. apply Hext. by right.
Qed.

Lemma lseg_app st p l1 l2 q :
  lseg st p (l1 ++ l2) q ↔ ∃ m, lseg st p l1 m ∧ lseg st m l2 q.
Proof.
  revert p. induction l1 as [| a l1 IH]; intros p; simpl.
  - split; [intros Hl; by exists p | intros (m & -> & Hl); exact Hl].
  - rewrite IH. split.
    + intros (-> & m & ? & ?). exists m. done.
    + intros (m & (-> & ?) & ?). split; [done |]. by exists m.
Qed.

Lemma lseg_fun st p l l' :
  lseg st p l None → lseg st p l' None → l = l'.
Proof.
  revert p l'. induction l as [| a l IH]; intros p [| a' l'] H1 H2; simpl in *.
  - done.
  - destruct H2 as (? & _). congruence.
  - destruct H1 as (? & _). congruence.
  - destruct H1 as (-> & H1), H2 as (Heq & H2). injection Heq as <-.
    f_equal. by eapply IH.
Qed.

(** * Unlinking *)

Lemma size_unlink st l1 c x : size (hdr (unlink st l1 c) x) = size (hdr st x).
Proof. unfold unlink. destruct (last l1); by autorewrite with heap. Qed.

Lemma is_free_unlink st l1 c x :
  is_free (hdr (unlink st l1 c) x) = is_free (hdr st x).
Proof. unfold unlink. destruct (last l1); by autorewrite with heap. Qed.

#[local] Hint Rewrite size_unlink is_free_unlink : heap.

Lemma lseg_head st x l q : lseg st (free_list st) (x :: l) q → free_list st = Some x.
Proof. by intros (? & _). Qed.

Lemma lseg_unlink st l1 c l2 :
  lseg st (free_list st) (l1 ++ c :: l2) None →
  NoDup (l1 ++ c :: l2) →
  lseg (unlink st l1 c) (free_list (unlink st l1 c)) (l1 ++ l2) None.
Proof.
  intros Hl Hnd. unfold unlink.
  destruct (last l1) as [p |] eqn:Hlast.
  - apply last_Some in Hlast as (l1' & ->).
    rewrite <- app_assoc in *. simpl in *.
    apply lseg_app in Hl as (m & Hl1 & -> & Hl2). simpl in Hl2.
    destruct Hl2 as (Hpc & Hl2).
    apply NoDup_app in Hnd as (_ & Hdisj & Hnd2).
    apply NoDup_cons in Hnd2 as (Hp & Hnd2).
    apply NoDup_cons in Hnd2 as (Hc & _).
    apply lseg_app. exists (Some p). split.
    + apply (lseg_ext st); [| done]. intros x Hx. autorewrite with heap.
      case_decide; [subst | done]. exfalso. apply (Hdisj x Hx). by left.
    + simpl. split; [done |]. autorewrite with heap.
      rewrite decide_True by done.
      apply (lseg_ext st); [| done]. intros x Hx. autorewrite with heap.
      case_decide; [subst | done]. exfalso. apply Hp. by right.
  - apply last_None in Hlast as ->. simpl in *.
    destruct Hl as (_ & Hl). by apply (lseg_ext st).
Qed.

Lemma unlink_as_code st l1 c l2 :
  lseg st (free_list st) (l1 ++ c :: l2) None →
  NoDup (l1 ++ c :: l2) →
  (if decide (Some c = free_list st) then set_free_list st (next (hdr st c))
   else match last l1 with
        | Some p => set_next st p (next (hdr st c))
        | None => st
        end) = unlink st l1 c.
Proof.
  intros Hl Hnd. unfold unlink. destruct l1 as [| x l1].
  - simpl in *. destruct Hl as (-> & _). by rewrite decide_True.
  - simpl app in *. apply lseg_head in Hl. rewrite Hl.
    apply NoDup_cons in Hnd as (Hx & _).
    rewrite decide_False; [| intros [= <-]; apply Hx; set_solver].
    destruct (last (x :: l1)) eqn:Hlast; [done |].
    by apply last_None in Hlast.
Qed.

(** * The first-fit scan *)

Lemma malloc_scan_first_fit st s l :
  ∀ cur prev fuel,
  lseg st cur l None →
  let found :=
    match first_fit st (total_size s) l prev with
    | Some (c, p) => take_block st s c p
    | None => (st, None)
    end in
  ((length l < fuel)%nat → malloc_scan fuel st s cur prev = Some found) ∧
  (∀ r, malloc_scan fuel st s cur prev = Some r → r = found).
Proof.
  induction l as [| a l IH]; intros cur prev fuel Hl;
    (destruct fuel as [| fuel]; [split; [simpl; lia | done] |]); simpl in *.
  - subst. split; [done | by intros r [= <-]].
  - destruct Hl as (-> & Hl).
    destruct (total_size s <=? size (hdr st a)).
    + split; [done | by intros r [= <-]].
    + destruct (IH _ (Some a) fuel Hl) as [IH1 IH2].
      split; [intros ?; apply IH1; lia | done].
Qed.

Lemma first_fit_Some st t l prev c p :
  first_fit st t l prev = Some (c, p) →
  ∃ l1 l2, l = l1 ++ c :: l2 ∧ t ≤ size (hdr st c) ∧
           p = (match last l1 with Some x => Some x | None => prev end).
Proof.
  revert prev. induction l as [| a l IH]; intros prev Hff; simpl in Hff; [done |].
  destruct (Z.leb_spec t (size (hdr st a))).
  - injection Hff as <- <-. by exists [], l.
  - apply IH in Hff as (l1 & l2 & -> & Hsz & ->).
    exists (a :: l1), l2. repeat split; [done |].
    rewrite last_cons. by destruct (last l1).
Qed.

Lemma first_fit_None st t l prev :
  first_fit st t l prev = None → ∀ a, a ∈ l → size (hdr st a) < t.
Proof.
  revert prev. induction l as [| x l IH]; intros prev Hff a Ha; simpl in Hff.
  - by apply elem_of_nil in Ha.
  - destruct (Z.leb_spec t (size (hdr st x))); [done |].
    apply elem_of_cons in Ha as [-> | Ha]; [done |]. by eapply IH.
Qed.

Lemma next_unlink st l1 c x :
  next (hdr (unlink st l1 c) x) =
  match last l1 with
  | Some p => if decide (p = x) then next (hdr st c) else next (hdr st x)
  | None => next (hdr st x)
  end.
Proof. unfold unlink. destruct (last l1); by autorewrite with heap. Qed.

(** * Allocation keeps the invariant *)

(** The whole block is handed out. *)
Lemma take_whole_inv st bs l1 c l2 live n :
  heap_inv st bs (l1 ++ c :: l2) → live_inv st bs live →
  0 < n →
  sizeof_BlockHeader + n ≤ size (hdr st c) →
  size (hdr st c) < sizeof_BlockHeader + n + get_min_block_size →
  let st' := set_next (set_is_free (unlink st l1 c) c false) c None in
  heap_inv st' bs (l1 ++ l2) ∧ live_inv st' bs ((get_data c, n) :: live).
Proof.
  intros [Hlay Hent Hnd Hfree Hadj] [Lnd Lused Lall] Hn Hlo Hhi st'.
  assert (c ∈ bs ∧ is_free (hdr st c) = true) as [Hc Hcf]
    by (apply Hfree; set_solver).
  assert (c ∉ l1 ++ l2) as Hc12.
  { apply NoDup_app in Hnd as (_ & Hd & Hnd). apply NoDup_cons in Hnd as (? & _).
    intros [?|?]%elem_of_app; [apply (Hd c) |]; set_solver. }
  assert (∀ x, size (hdr st' x) = size (hdr st x)) as Hsize
    by (intros x; subst st'; by autorewrite with heap).
  assert (∀ x, is_free (hdr st' x) = if decide (c = x) then false else is_free (hdr st x))
    as Hisfree by (intros x; subst st'; by autorewrite with heap).
  split; [split |split].
  - apply (chain_ext st); [| done]. intros x _. apply Hsize.
  - unfold free_entries. subst st'. autorewrite with heap.
    apply (lseg_ext (unlink st l1 c)); [| by apply lseg_unlink].
    intros x Hx. autorewrite with heap. case_decide; [by subst | done].
  - apply NoDup_app in Hnd as (? & Hd & Hnd). apply NoDup_cons in Hnd as (? & ?).
    apply NoDup_app. repeat split; try done. intros x Hx Hx2. apply (Hd x Hx). by right.
  - intros a. rewrite Hisfree. case_decide as Hca.
    + subst a. split; [done | by intros [_ ?]].
    + rewrite <- Hfree. rewrite !elem_of_app, elem_of_cons. naive_solver.
  - intros a Ha. rewrite Hisfree, !Hsize, Hisfree. case_decide; [done |].
    intros Haf Hlt. case_decide; [done |]. by apply Hadj.
  - simpl. apply NoDup_cons. split; [| done].
    intros ((p & m) & Heq & Hin)%list_elem_of_fmap. simpl in Heq. subst p.
    destruct (Lused _ _ Hin) as (_ & Hf & _).
    unfold get_header, get_data in Hf. replace (c + sizeof_BlockHeader - sizeof_BlockHeader) with c in Hf by lia.
    congruence.
  - intros p m [Heq | Hin]%elem_of_cons.
    + injection Heq as -> ->. unfold get_header, get_data.
      replace (c + sizeof_BlockHeader - sizeof_BlockHeader) with c by lia.
      rewrite Hisfree, Hsize, decide_True by done. done.
    + destruct (Lused _ _ Hin) as (? & Hf & ? & ? & ?).
      rewrite Hisfree, Hsize. case_decide as Hca; [| done].
      rewrite <- Hca in Hf. congruence.
  - intros b Hb. rewrite Hisfree. case_decide as Hcb.
    + subst b. intros _. exists n. by left.
    + intros Hbf. destruct (Lall b Hb Hbf) as (m & Hm). exists m. by right.
Qed.

(** The state [split_block] leaves when it splits. *)
Lemma take_split_inv st bs l1 c l2 live t :
  heap_inv st bs (l1 ++ c :: l2) → live_inv st bs live →
  sizeof_BlockHeader < t → t mod 8 = 0 →
  t + get_min_block_size ≤ size (hdr st c) →
  let nb := c + t in
  let st1 := set_size st nb (wrap (size (hdr st c) - t)) in
  let st2 := set_is_free st1 nb true in
  let st3 := set_size st2 c t in
  let st4 := set_next st3 nb (next (hdr st3 c)) in
  let st5 := set_next st4 c (Some nb) in
  let st' := set_next (set_is_free (unlink st5 l1 c) c false) c None in
  ∃ b1 b2, bs = b1 ++ c :: b2 ∧
    lseg st5 (free_list st5) (l1 ++ c :: nb :: l2) None ∧
    NoDup (l1 ++ c :: nb :: l2) ∧
    heap_inv st' (b1 ++ c :: nb :: b2) (l1 ++ nb :: l2) ∧
    live_inv st' (b1 ++ c :: nb :: b2) ((get_data c, t - sizeof_BlockHeader) :: live).
Proof.
  intros [Hlay Hent Hnd Hfree Hadj] [Lnd Lused Lall] Ht Htal Hfit.
  intros nb st1 st2 st3 st4 st5 st'.
  rewrite min_block_size_eq in Hfit. unfold sizeof_BlockHeader in *.
  assert (32 ≤ t) as Ht32 by (pose proof (Z.div_mod t 8 ltac:(lia)); lia).
  assert (c ∈ bs ∧ is_free (hdr st c) = true) as [Hc Hcf]
    by (apply Hfree; set_solver).
  destruct (list_elem_of_split _ _ Hc) as (b1 & b2 & ->).
  exists b1, b2. split; [done |].
  pose proof Hlay as Hlay0.
  apply chain_mid in Hlay as (Hb1 & Hcmin & Hcal & Hb2).
  destruct (chain_bounds _ _ _ _ _ Hlay0 Hc) as (Hc0 & HcH & _ & _).
  assert (wrap (size (hdr st c) - t) = size (hdr st c) - t) as Hw
    by (apply wrap_small; unfold SIZE_MODULUS, HEAP_SIZE in *; lia).
  assert (nb ∉ b1 ++ c :: b2) as Hnb
    by (apply (chain_inside _ _ _ _ c _ Hlay0 Hc); subst nb; lia).
  assert (nb ≠ c) as Hnbc by (subst nb; lia).
  assert (nb ∉ l1 ++ c :: l2) as Hnbl by (intros Hin; apply Hfree in Hin as (? & _); done).
  assert (c ∉ l1 ++ l2) as Hc12.
  { apply NoDup_app in Hnd as (_ & Hd & Hnd'). apply NoDup_cons in Hnd' as (? & _).
    intros [?|?]%elem_of_app; [apply (Hd c) |]; set_solver. }
  assert (∀ x, size (hdr st' x) =
               if decide (c = x) then t
               else if decide (nb = x) then size (hdr st c) - t
               else size (hdr st x)) as Hsize.
  { intros x. subst st' st5 st4 st3 st2 st1. autorewrite with heap.
    rewrite Hw. repeat case_decide; congruence. }
  assert (∀ x, is_free (hdr st' x) =
               if decide (c = x) then false
               else if decide (nb = x) then true
               else is_free (hdr st x)) as Hisfree.
  { intros x. subst st' st5 st4 st3 st2 st1. autorewrite with heap.
    repeat case_decide; congruence. }
  assert (∀ x, next (hdr st5 x) =
               if decide (c = x) then Some nb
               else if decide (nb = x) then next (hdr st c)
               else next (hdr st x)) as Hnext5.
  { intros x. subst st5 st4 st3 st2 st1. autorewrite with heap.
    repeat case_decide; congruence. }
  assert (lseg st5 (free_list st5) (l1 ++ c :: nb :: l2) None) as Hent5.
  { unfold free_entries in Hent. apply lseg_app in Hent as (m & Hl1 & -> & Hl2).
    apply lseg_app. exists (Some c). split.
    - apply (lseg_ext st); [| done]. intros x Hx. rewrite Hnext5.
      rewrite decide_False by (intros <-; apply Hc12; set_solver).
      rewrite decide_False by (intros <-; apply Hnbl; set_solver). done.
    - simpl. split; [done |]. rewrite Hnext5, decide_True by done.
      split; [done |]. rewrite Hnext5, decide_False, decide_True by done.
      apply (lseg_ext st); [| done]. intros x Hx. rewrite Hnext5.
      rewrite decide_False by (intros <-; apply Hc12; set_solver).
      rewrite decide_False by (intros <-; apply Hnbl; set_solver). done. }
  assert (NoDup (l1 ++ c :: nb :: l2)) as Hnd5.
  { apply NoDup_app in Hnd as (? & Hd & Hnd'). apply NoDup_cons in Hnd' as (? & ?).
    apply NoDup_app. repeat split; [done | | ].
    - intros x Hx [-> | [-> | Hx2]%elem_of_cons]%elem_of_cons.
      + apply (Hd c Hx). by left.
      + apply Hnbl. set_solver.
      + apply (Hd x Hx). by right.
    - apply NoDup_cons. split; [| apply NoDup_cons; split; [| done]].
      + intros [? | ?]%elem_of_cons; done.
      + intros ?. apply Hnbl. set_solver. }
  assert (NoDup (l1 ++ nb :: l2)) as Hnd'.
  { apply NoDup_app in Hnd5 as (? & Hd & Hnd5'). apply NoDup_cons in Hnd5' as (? & ?).
    apply NoDup_app. repeat split; try done. intros x Hx Hx2. apply (Hd x Hx). by right. }
  split; [done |]. split; [done |]. split; [split | split].
  - apply chain_mid_intro.
    + apply (chain_ext st); [| done]. intros x Hx. rewrite Hsize.
      pose proof (chain_before _ _ _ _ _ Hb1 Hx).
      rewrite !decide_False by (subst nb; lia). done.
    + rewrite Hsize, decide_True by done. lia.
    + by rewrite Hsize, decide_True.
    + rewrite Hsize, decide_True by done. simpl. fold nb.
      rewrite Hsize, decide_False, decide_True by done.
      rewrite min_block_size_eq. repeat split; [lia | |].
      * unfold ALIGN_SIZE. rewrite Zminus_mod, Hcal, Htal. reflexivity.
      * replace (nb + (size (hdr st c) - t)) with (c + size (hdr st c)) by (subst nb; lia).
        apply (chain_ext st); [| done]. intros x Hx. rewrite Hsize.
        destruct (chain_bounds _ _ _ _ _ Hb2 Hx) as (? & _).
        rewrite !decide_False by (subst nb; lia). done.
  - unfold free_entries. subst st'. autorewrite with heap.
    apply (lseg_ext (unlink st5 l1 c)); [| by apply (lseg_unlink st5 l1 c (nb :: l2))].
    intros x Hx. autorewrite with heap. case_decide; [| done]. subst x.
    exfalso. apply elem_of_app in Hx as [Hx | [? | Hx]%elem_of_cons]; [| done |];
      apply Hc12; set_solver.
  - done.
  - intros a. rewrite Hisfree. case_decide as Hca.
    + subst a. split; [| by intros [_ ?]].
      intros [Hx | [? | Hx]%elem_of_cons]%elem_of_app; [| done |]; exfalso; apply Hc12; set_solver.
    + case_decide as Hna.
      * subst a. split; [intros _; split; [set_solver | done] | intros _; set_solver].
      * specialize (Hfree a). clear -Hfree Hca Hna.
        rewrite !elem_of_app, !elem_of_cons in *. naive_solver.
  - intros a Ha. rewrite Hisfree. case_decide as Hca; [intros ?; discriminate |].
    rewrite !Hsize, Hisfree. rewrite (decide_False (P := c = a)) by done.
    case_decide as Hna.
    + subst a. intros _ Hlt.
      replace (nb + (size (hdr st c) - t)) with (c + size (hdr st c)) in * by (subst nb; lia).
      rewrite decide_False by lia. rewrite decide_False by (subst nb; lia).
      apply (Hadj c); done.
    + intros Haf Hlt.
      assert (a ∈ b1 ++ c :: b2) as Ha0.
      { rewrite !elem_of_app, !elem_of_cons in *. naive_solver. }
      case_decide as Hsc; [done |].
      case_decide as Hsn.
      * exfalso. apply Hnb. rewrite Hsn.
        destruct (chain_succ _ _ _ _ _ Hlay0 Ha0) as [Heq | Hin]; [lia | done].
      * by apply Hadj.
  - simpl. apply NoDup_cons. split; [| done].
    intros ((p & m) & Heq & Hin)%list_elem_of_fmap. simpl in Heq. subst p.
    destruct (Lused _ _ Hin) as (_ & Hf & _).
    unfold get_header, get_data, sizeof_BlockHeader in Hf.
    replace (c + 24 - 24) with c in Hf by lia. congruence.
  - intros p m [Heq | Hin]%elem_of_cons.
    + injection Heq as -> ->. unfold get_header, get_data, sizeof_BlockHeader.
      replace (c + 24 - 24) with c by lia.
      rewrite Hisfree, Hsize, !decide_True by done. rewrite min_block_size_eq.
      repeat split; [set_solver | lia | lia | lia].
    + destruct (Lused _ _ Hin) as (Hpin & Hf & ? & ? & ?).
      rewrite Hisfree, Hsize. case_decide as Hca; [rewrite <- Hca in Hf; congruence |].
      case_decide as Hna; [rewrite <- Hna in Hpin; done |].
      repeat split; try done. rewrite !elem_of_app, !elem_of_cons in *. naive_solver.
  - intros b Hb. rewrite Hisfree. case_decide as Hcb.
    + subst b. intros _. exists (t - 24). by left.
    + case_decide as Hnb'; [done |]. intros Hbf.
      destruct (Lall b) as (m & Hm); [| done |].
      * rewrite !elem_of_app, !elem_of_cons in *. naive_solver.
      * exists m. by right.
Qed.

Lemma heap_inv_size_bound st bs fl c :
  heap_inv st bs fl → c ∈ bs → 0 ≤ c ∧ 32 ≤ size (hdr st c) ∧ c + size (hdr st c) ≤ HEAP_SIZE.
Proof.
  intros [Hlay _ _ _ _] Hc.
  destruct (chain_bounds _ _ _ _ _ Hlay Hc) as (? & ? & ? & ?). done.
Qed.

Lemma take_block_inv st bs l1 c l2 live s :
  heap_inv st bs (l1 ++ c :: l2) → live_inv st bs live →
  0 < s ≤ MAX_REQUEST →
  total_size s ≤ size (hdr st c) →
  ∃ st' bs',
    take_block st s c (last l1) = (st', Some (get_data c)) ∧
    ∃ fl', heap_inv st' bs' fl' ∧
           live_inv st' bs' ((get_data c, align_size s) :: live).
Proof.
  intros Hinv Hlive Hs Hfit.
  pose proof (align_size_in_range s ltac:(lia)) as [Hal Hmod].
  rewrite total_size_in_range in Hfit by lia.
  assert (c ∈ bs) as Hc by (apply (inv_free _ _ _ Hinv); set_solver).
  destruct (heap_inv_size_bound _ _ _ _ Hinv Hc) as (Hc0 & Hcmin & HcH).
  unfold take_block, split_block.
  replace (wrap (sizeof_BlockHeader + align_size s))
    with (sizeof_BlockHeader + align_size s)
    by (symmetry; apply wrap_small; unfold sizeof_BlockHeader, SIZE_MODULUS, HEAP_SIZE in *; lia).
  rewrite min_block_size_eq.
  rewrite (wrap_small (sizeof_BlockHeader + align_size s + 32))
    by (unfold sizeof_BlockHeader, SIZE_MODULUS, HEAP_SIZE in *; lia).
  destruct (Z.ltb_spec (size (hdr st c)) (sizeof_BlockHeader + align_size s + 32)) as [Hlt | Hge].
  - rewrite (unlink_as_code st l1 c l2)
      by (apply (inv_entries _ _ _ Hinv) || apply (inv_nodup _ _ _ Hinv)).
    eexists _, bs. split; [reflexivity |]. exists (l1 ++ l2).
    apply take_whole_inv; try done; try lia; rewrite min_block_size_eq; lia.
  - assert (sizeof_BlockHeader < sizeof_BlockHeader + align_size s) as H1 by lia.
    assert ((sizeof_BlockHeader + align_size s) mod 8 = 0) as H2
      by (unfold sizeof_BlockHeader; rewrite Z.add_mod, Hmod by lia; reflexivity).
    assert (sizeof_BlockHeader + align_size s + get_min_block_size ≤ size (hdr st c)) as H3
      by (by rewrite min_block_size_eq).
    destruct (take_split_inv st bs l1 c l2 live _ Hinv Hlive H1 H2 H3)
      as (b1 & b2 & -> & Hent5 & Hnd5 & Hinv' & Hlive').
    set (t := sizeof_BlockHeader + align_size s) in *.
    set (st5 := set_next _ c (Some (c + t))) in *.
    rewrite (unlink_as_code st5 l1 c ((c + t) :: l2)) by done.
    eexists _, _. split; [reflexivity |]. eexists.
    replace (align_size s) with (t - sizeof_BlockHeader) by (subst t; lia).
    split; [exact Hinv' | exact Hlive'].
Qed.

Lemma my_malloc_inv st bs fl live s fuel st' r :
  heap_inv st bs fl → live_inv st bs live → in_range s →
  my_malloc fuel st s = Some (st', r) →
  ∃ bs' fl',
    heap_inv st' bs' fl' ∧
    live_inv st' bs'
      (match r with Some p => (p, align_size s) :: live | None => live end).
Proof.
  intros Hinv Hlive Hs. unfold my_malloc.
  destruct (Z.eqb_spec s 0) as [-> | Hs0].
  { intros [= <- <-]. by exists bs, fl. }
  intros Hscan.
  destruct (malloc_scan_first_fit st s fl _ None fuel (inv_entries _ _ _ Hinv))
    as [_ Hres].
  apply Hres in Hscan. clear Hres.
  destruct (first_fit st (total_size s) fl None) as [[c p] |] eqn:Hff.
  - apply first_fit_Some in Hff as (l1 & l2 & -> & Hfit & Hp).
    assert (p = last l1) as -> by (rewrite Hp; by destruct (last l1)).
    destruct (take_block_inv st bs l1 c l2 live s Hinv Hlive) as (st2 & bs' & Heq & fl' & Hinv' & Hlive');
      [unfold in_range in Hs; lia | done |].
    rewrite Heq in Hscan. injection Hscan as -> ->. by exists bs', fl'.
  - injection Hscan as -> ->. by exists bs, fl.
Qed.

Lemma my_malloc_total st bs fl s fuel :
  heap_inv st bs fl → (length fl < fuel)%nat →
  ∃ st' r, my_malloc fuel st s = Some (st', r).
Proof.
  intros Hinv Hfuel. unfold my_malloc.
  destruct (s =? 0); [by eexists _, _ |].
  destruct (malloc_scan_first_fit st s fl _ None fuel (inv_entries _ _ _ Hinv))
    as [Hres _].
  rewrite (Hres Hfuel). destruct (match first_fit _ _ _ _ with Some _ => _ | None => _ end).
  by eexists _, _.
Qed.

(** * The scans of [my_free] *)

Lemma remove_scan_last st c l :
  ∀ cur fuel,
  l ≠ [] → lseg st cur l (Some c) → c ∉ l →
  ((length l ≤ fuel)%nat → remove_scan fuel st c cur = Some (last l)) ∧
  (∀ r, remove_scan fuel st c cur = Some r → r = last l).
Proof.
  induction l as [| y l IH]; intros cur fuel Hne Hl Hc; [done |].
  destruct fuel as [| fuel]; [split; [simpl; lia | done] |].
  destruct Hl as (-> & Hl). simpl remove_scan.
  destruct l as [| z l].
  - simpl in Hl. rewrite Hl, decide_True by done.
    split; [done | by intros r [= <-]].
  - destruct Hl as (Hyz & Hl). rewrite Hyz.
    rewrite decide_False by (intros [= ->]; apply Hc; set_solver).
    destruct (IH (Some z) fuel) as [IH1 IH2]; [done | done | set_solver |].
    rewrite last_cons_cons.
    split; [intros ?; apply IH1; simpl in *; lia | done].
Qed.

Lemma remove_from_free_list_unlink st l1 c l2 fuel :
  lseg st (free_list st) (l1 ++ c :: l2) None →
  NoDup (l1 ++ c :: l2) →
  ((length l1 < fuel)%nat →
   remove_from_free_list fuel st c = Some (unlink st l1 c)) ∧
  (∀ r, remove_from_free_list fuel st c = Some r → r = unlink st l1 c).
Proof.
  intros Hl Hnd. unfold remove_from_free_list, unlink.
  destruct l1 as [| x l1].
  - simpl in *. destruct Hl as (-> & _). rewrite decide_True by done.
    split; [done | by intros r [= <-]].
  - simpl app in *. pose proof (lseg_head _ _ _ _ Hl) as Hfl. rewrite Hfl in *.
    assert (c ∉ x :: l1) as Hc.
    { change (x :: l1 ++ c :: l2) with ((x :: l1) ++ c :: l2) in Hnd.
      apply NoDup_app in Hnd as (_ & Hd & Hnd). intros Hin. apply (Hd c Hin). by left. }
    rewrite decide_False by (intros ->; apply Hc; by left).
    change (x :: l1 ++ c :: l2) with ((x :: l1) ++ c :: l2) in Hl.
    apply lseg_app in Hl as (m & Hl1 & -> & _).
    destruct (remove_scan_last st c (x :: l1) (Some x) fuel) as [H1 H2]; [done .. |].
    destruct (last (x :: l1)) as [p |] eqn:Hlast; [| by apply last_None in Hlast].
    split.
    + intros Hfuel. rewrite H1 by (simpl in *; lia). done.
    + intros r Hr. destruct (remove_scan fuel st c (Some x)) as [cur |]; [| done].
      rewrite (H2 cur eq_refl) in Hr. simpl in Hr. by injection Hr as <-.
Qed.

Lemma coalesce_scan_prev st b l :
  ∀ a fuel,
  chain st a l b →
  let found :=
    match last l with
    | Some p => if is_free (hdr st p) then Some p else None
    | None => None
    end in
  ((length l < fuel)%nat → coalesce_scan fuel st b a = Some found) ∧
  (∀ r, coalesce_scan fuel st b a = Some r → r = found).
Proof.
  induction l as [| y l IH]; intros a fuel Hc;
    (destruct fuel as [| fuel]; [split; [simpl; lia | done] |]); simpl coalesce_scan.
  - simpl in Hc. subst. rewrite Z.ltb_irrefl. split; [done | by intros r [= <-]].
  - destruct Hc as (-> & Hmin & _ & Hc). rewrite min_block_size_eq in Hmin.
    pose proof (chain_le _ _ _ _ Hc) as Hle.
    rewrite (proj2 (Z.ltb_lt a b)) by lia.
    destruct l as [| z l].
    + simpl in Hc. subst b. rewrite Z.eqb_refl. simpl.
      destruct (is_free (hdr st a)).
      * split; [done | by intros r [= <-]].
      * rewrite Z.leb_refl. split; [done | by intros r [= <-]].
    + assert (a + size (hdr st a) < b) as Hlt.
      { destruct Hc as (-> & Hmin' & _ & Hc). apply chain_le in Hc.
        rewrite min_block_size_eq in Hmin'. lia. }
      rewrite (proj2 (Z.eqb_neq _ _)) by lia. simpl andb. cbv iota.
      rewrite (proj2 (Z.leb_gt _ _)) by lia.
      destruct (IH _ fuel Hc) as [IH1 IH2]. rewrite last_cons_cons.
      split; [intros ?; apply IH1; simpl in *; lia | done].
Qed.

Lemma coalesce_block_halves fuel st b :
  coalesce_block fuel st b =
  st2 ← coalesce_forward fuel st b; coalesce_backward fuel st2 b.
Proof. reflexivity. Qed.

(** * Release keeps the invariant *)

(** The merge with the next block. *)
Lemma forward_step st B1 b B2 fl fuel :
  heap_inv st (B1 ++ b :: B2) fl → is_free (hdr st b) = false →
  let st1 := set_next (set_is_free st b true) b None in
  ∃ st2 fl2,
    ((length fl < fuel)%nat → coalesce_forward fuel st1 b = Some st2) ∧
    (∀ r, coalesce_forward fuel st1 b = Some r → r = st2) ∧
    B2 = succ_free st B2 ++ drop (length (succ_free st B2)) B2 ∧
    (∀ x, b ≠ x → size (hdr st2 x) = size (hdr st x)) ∧
    size (hdr st2 b) = size (hdr st b) + span_total st (succ_free st B2) ∧
    (∀ x, is_free (hdr st2 x) =
          if decide (b = x) then true else is_free (hdr st x)) ∧
    lseg st2 (free_list st2) fl2 None ∧ NoDup fl2 ∧
    (∀ a, a ∈ fl2 ↔
          a ∈ B1 ++ drop (length (succ_free st B2)) B2 ∧
          is_free (hdr st a) = true).
Proof.
  intros [Hlay Hent Hnd Hfree Hadj] Hbu st1.
  pose proof Hlay as Hlay0.
  apply chain_mid in Hlay as (HB1 & Hbmin & Hbal & HB2).
  assert (b ∉ fl) as Hbfl by (intros (_ & ?)%Hfree; congruence).
  assert (∀ x, size (hdr st1 x) = size (hdr st x)) as Hsize1
    by (intros x; subst st1; by autorewrite with heap).
  assert (∀ x, is_free (hdr st1 x) = if decide (b = x) then true else is_free (hdr st x))
    as Hisfree1 by (intros x; subst st1; by autorewrite with heap).
  assert (lseg st1 (free_list st1) fl None) as Hent1.
  { apply (lseg_ext st); [| done]. intros x Hx. subst st1. autorewrite with heap.
    case_decide; [by subst | done]. }
  assert (b ∉ B1) as HbB1.
  { intros Hin. pose proof (chain_before _ _ _ _ _ HB1 Hin). lia. }
  assert (b ∉ B2) as HbB2.
  { intros Hin. destruct (chain_bounds _ _ _ _ _ HB2 Hin) as (? & _). lia. }
  unfold coalesce_forward. rewrite !Hsize1.
  destruct B2 as [| nx B3].
  - (* the block is the last one *)
    simpl in HB2. rewrite HB2, Z.ltb_irrefl.
    exists st1, fl. simpl. rewrite app_nil_r.
    split_and!; try done.
    + by intros r [= <-].
    + rewrite Hsize1. lia.
    + intros a. rewrite Hfree. set_solver.
  - destruct HB2 as (-> & Hnmin & Hnal & HB3).
    rewrite min_block_size_eq in Hnmin.
    pose proof (chain_le _ _ _ _ HB3) as Hle.
    rewrite (proj2 (Z.ltb_lt _ _)) by lia.
    rewrite Hisfree1, decide_False by lia.
    unfold succ_free.
    destruct (is_free (hdr st (b + size (hdr st b)))) eqn:Hnf.
    + (* the next block is free and is absorbed *)
      set (nx := b + size (hdr st b)) in *.
      assert (nx ∈ fl) as Hnfl by (apply Hfree; split; [set_solver | done]).
      destruct (list_elem_of_split _ _ Hnfl) as (l1 & l2 & ->).
      destruct (remove_from_free_list_unlink st1 l1 nx l2 fuel Hent1 Hnd) as [Hrem1 Hrem2].
      exists (set_size (unlink st1 l1 nx) b (wrap (size (hdr st b) + size (hdr st nx)))),
             (l1 ++ l2).
      assert (wrap (size (hdr st b) + size (hdr st nx)) = size (hdr st b) + size (hdr st nx)) as Hw.
      { apply wrap_small. unfold SIZE_MODULUS, HEAP_SIZE in *.
        destruct (chain_bounds st 0 (B1 ++ b :: nx :: B3) HEAP_SIZE nx Hlay0 ltac:(set_solver))
          as (? & ? & ? & ?).
        destruct (chain_bounds st 0 (B1 ++ b :: nx :: B3) HEAP_SIZE b Hlay0 ltac:(set_solver))
          as (? & ? & ? & ?). unfold HEAP_SIZE in *. lia. }
      assert (NoDup (l1 ++ l2) ∧ nx ∉ l1 ++ l2) as [Hnd2 Hnx2].
      { apply NoDup_app in Hnd as (? & Hd & Hnd'). apply NoDup_cons in Hnd' as (? & ?).
        split.
        - apply NoDup_app. split_and!; try done. intros x Hx Hx2. apply (Hd x Hx). by right.
        - intros [? | ?]%elem_of_app; [apply (Hd nx) |]; set_solver. }
      simpl. split_and!.
      * intros Hfuel. rewrite Hrem1 by (rewrite length_app in Hfuel; simpl in *; lia).
        simpl. autorewrite with heap. by rewrite !Hsize1.
      * intros r Hr. destruct (remove_from_free_list fuel st1 nx) as [s' |]; [| done].
        rewrite (Hrem2 s' eq_refl) in Hr. simpl in Hr. autorewrite with heap in Hr.
        rewrite !Hsize1 in Hr. by injection Hr as <-.
      * done.
      * intros x Hx. autorewrite with heap. rewrite decide_False by done. apply Hsize1.
      * autorewrite with heap. rewrite decide_True by done. rewrite Hw.
        unfold span_total. simpl. lia.
      * intros x. autorewrite with heap. apply Hisfree1.
      * apply (lseg_ext (unlink st1 l1 nx)); [| by apply lseg_unlink].
        intros x Hx. by autorewrite with heap.
      * done.
      * intros a. split.
        -- intros Ha. assert (a ≠ nx) by (by intros ->).
           assert (a ∈ l1 ++ nx :: l2) as Ha' by set_solver.
           apply Hfree in Ha' as (Ha' & Haf). split; [| done].
           assert (a ≠ b) by congruence. set_solver.
        -- intros (Ha & Haf).
           assert (a ∈ l1 ++ nx :: l2) as Hin by (apply Hfree; split; [set_solver | done]).
           assert (a ≠ nx).
           { intros ->. apply elem_of_app in Ha as [Ha | Ha].
             - pose proof (chain_before _ _ _ _ _ HB1 Ha). subst nx. lia.
             - destruct (chain_bounds _ _ _ _ _ HB3 Ha) as (? & _). lia. }
           set_solver.
    + (* the next block is in use *)
      exists st1, fl. simpl. split_and!; try done.
      * by intros r [= <-].
      * rewrite Hsize1. lia.
      * intros a. rewrite Hfree. split.
        -- intros (Ha & Haf). split; [| done]. assert (a ≠ b) by congruence. set_solver.
        -- intros (Ha & Haf). split; [set_solver | done].
Qed.

Lemma chain_end_span st a l e : chain st a l e → e = a + span_total st l.
Proof.
  revert a. induction l as [| x l IH]; intros a Hc; simpl in *.
  - lia.
  - destruct Hc as (-> & _ & _ & Hc). apply IH in Hc. unfold span_total in *.
    simpl. lia.
Qed.

Lemma span_total_app st l1 l2 :
  span_total st (l1 ++ l2) = span_total st l1 + span_total st l2.
Proof.
  unfold span_total. induction l1 as [| x l1 IH]; simpl; lia.
Qed.

Lemma succ_free_cases st B2 :
  (succ_free st B2 = [] ∧ ∀ y, head B2 = Some y → is_free (hdr st y) = false) ∨
  (∃ nx B3, B2 = nx :: B3 ∧ succ_free st B2 = [nx] ∧ is_free (hdr st nx) = true).
Proof.
  destruct B2 as [| y B2]; simpl.
  - left. done.
  - destruct (is_free (hdr st y)) eqn:Hy.
    + right. by exists y, B2.
    + left. split; [done |]. by intros ? [= <-].
Qed.

Lemma pred_free_cases st B1 :
  (pred_free st B1 = [] ∧ ∀ y, last B1 = Some y → is_free (hdr st y) = false) ∨
  (∃ B0 a, B1 = B0 ++ [a] ∧ pred_free st B1 = [a] ∧ is_free (hdr st a) = true).
Proof.
  unfold pred_free. destruct (last B1) as [a |] eqn:Hlast.
  - destruct (is_free (hdr st a)) eqn:Ha.
    + right. apply last_Some in Hlast as (B0 & ->). by exists B0, a.
    + left. split; [done |]. by intros ? [= <-].
  - left. done.
Qed.

(** The block after the run that a release merges is in use. *)
Lemma after_run_used st B1 b B2 fl y :
  heap_inv st (B1 ++ b :: B2) fl →
  head (drop (length (succ_free st B2)) B2) = Some y →
  is_free (hdr st y) = false.
Proof.
  intros [Hlay _ _ _ Hadj] Hy.
  destruct (succ_free_cases st B2) as [(Heq & Hu) | (nx & B3 & -> & Heq & Hnf)];
    rewrite Heq in Hy.
  - by apply Hu.
  - simpl in Hy. destruct B3 as [| z B3]; [done |]. injection Hy as ->.
    apply chain_mid in Hlay as (_ & _ & _ & Hc).
    destruct Hc as (Hnx & Hmin & _ & (Hy & Hmin' & _ & Hc)).
    rewrite min_block_size_eq in *. apply chain_le in Hc.
    rewrite Hy, <- Hnx. apply Hadj; [set_solver | done |].
    rewrite Hnx. lia.
Qed.

Lemma chain_span_aligned st a l e :
  chain st a l e → 0 ≤ span_total st l ∧ span_total st l mod 8 = 0.
Proof.
  revert a. induction l as [| x l IH]; intros a Hc; simpl in *.
  - done.
  - destruct Hc as (-> & Hmin & Hal & Hc). apply IH in Hc as [? ?].
    rewrite min_block_size_eq in Hmin. unfold ALIGN_SIZE in Hal.
    unfold span_total in *. simpl. split; [lia |].
    rewrite Z.add_mod, Hal by lia.
    match goal with H : _ mod 8 = 0 |- _ => rewrite H end. reflexivity.
Qed.

Lemma forget_NoDup p (live : list (Z * Z)) :
  NoDup (live.*1) → NoDup ((forget p live).*1).
Proof.
  unfold forget. induction live as [| [q m] live IH]; simpl; [done |].
  intros [Hq Hnd]%NoDup_cons. rewrite filter_cons. simpl.
  case_decide; [| by apply IH].
  simpl. apply NoDup_cons. split; [| by apply IH].
  intros ([q' m'] & Heq & Hin)%list_elem_of_fmap. simpl in Heq. subst q'.
  apply list_elem_of_filter in Hin as (_ & Hin).
  apply Hq. apply list_elem_of_fmap. by exists (q, m').
Qed.

Lemma elem_of_forget p q m (live : list (Z * Z)) :
  (q, m) ∈ forget p live ↔ q ≠ p ∧ (q, m) ∈ live.
Proof. unfold forget. by rewrite list_elem_of_filter. Qed.

(** [my_free] on a block that passes both checks. *)
Lemma my_free_accepted fuel st p :
  is_valid_ptr (get_header p) = true →
  is_free (hdr st (get_header p)) = false →
  my_free fuel st (Some p) =
  let b := get_header p in
  let st1 := set_next (set_is_free st b true) b None in
  st2 ← coalesce_forward fuel st1 b;
  prev ← coalesce_scan fuel st2 b 0;
  Some (match prev with
        | Some pb =>
            set_size st2 pb (wrap (size (hdr st2 pb) + size (hdr st2 b)))
        | None => set_free_list (set_next st2 b (free_list st2)) (Some b)
        end, None).
Proof.
  intros Hv Hf. unfold my_free. rewrite Hv, Hf. simpl negb. cbv iota. cbv zeta.
  rewrite coalesce_block_halves. unfold coalesce_backward.
  destruct (coalesce_forward _ _ _) as [st2 |]; [| done]. simpl.
  destruct (coalesce_scan _ _ _ _) as [[pb |] |]; done.
Qed.

Lemma my_free_inv st bs fl live p n fuel :
  heap_inv st bs fl → live_inv st bs live → (p, n) ∈ live →
  let b := get_header p in
  ∃ st' B1 B2,
    bs = B1 ++ b :: B2 ∧
    ((length bs + length fl < fuel)%nat →
     my_free fuel st (Some p) = Some (st', None)) ∧
    (∀ r, my_free fuel st (Some p) = Some r → r = (st', None)) ∧
    let pre := pred_free st B1 in
    let post := succ_free st B2 in
    let m := hd b pre in
    let bs' := take (length B1 - length pre)%nat B1 ++ m :: drop (length post) B2 in
    (∃ fl', heap_inv st' bs' fl') ∧
    live_inv st' bs' (forget p live) ∧
    is_free (hdr st' m) = true ∧
    size (hdr st' m) = span_total st (pre ++ b :: post).
Proof.
  intros Hinv Hlive Hp b.
  destruct (live_used _ _ _ Hlive p n Hp) as (Hb & Hbu & Hn & Hlo & Hhi).
  fold b in Hb, Hbu, Hlo, Hhi.
  destruct (list_elem_of_split _ _ Hb) as (B1 & B2 & ->).
  destruct (forward_step st B1 b B2 fl fuel Hinv Hbu)
    as (st2 & fl2 & Hf1 & Hf2 & HB2eq & Hsz2 & Hszb2 & Hfr2 & Hent2 & Hnd2 & Hiff2).
  pose proof (after_run_used st B1 b B2 fl) as Hafter.
  specialize (λ y, Hafter y Hinv).
  set (post := succ_free st B2) in *. set (B3 := drop (length post) B2) in *.
  pose proof Hinv as [Hlay Hent Hnd Hfree Hadj].
  pose proof Hlay as Hlay0.
  apply chain_mid in Hlay as (HB1 & Hbmin & Hbal & HB2).
  destruct (chain_bounds _ _ _ _ _ Hlay0 Hb) as (Hb0 & HbH & _ & _).
  assert (b ∉ B1) as HbB1.
  { intros Hin. pose proof (chain_before _ _ _ _ _ HB1 Hin). lia. }
  assert (b ∉ B2) as HbB2.
  { intros Hin. destruct (chain_bounds _ _ _ _ _ HB2 Hin) as (? & _). lia. }
  assert (chain st2 0 B1 b) as HB1'.
  { apply (chain_ext st); [| done]. intros x Hx. apply Hsz2. by intros <-. }
  destruct (coalesce_scan_prev st2 b B1 0 fuel HB1') as [Hs1 Hs2].
  rewrite HB2eq in HB2. fold post B3 in HB2.
  apply chain_app in HB2 as (mid & Hpost & HB3).
  pose proof (chain_end_span _ _ _ _ Hpost) as Hmid.
  assert (is_valid_ptr b = true) as Hvalid.
  { unfold is_valid_ptr. apply andb_true_intro. split; [lia | apply Z.ltb_lt; lia]. }
  assert (∀ st', 
    match last B1 with
    | Some p0 => if is_free (hdr st2 p0) then Some p0 else None
    | None => None
    end = head (pred_free st B1) →
    st' = match head (pred_free st B1) with
        | Some pb =>
            set_size st2 pb (wrap (size (hdr st2 pb) + size (hdr st2 b)))
        | None => set_free_list (set_next st2 b (free_list st2)) (Some b)
        end →
    ((length (B1 ++ b :: B2) + length fl < fuel)%nat →
     my_free fuel st (Some p) = Some (st', None)) ∧
    (∀ r, my_free fuel st (Some p) = Some r → r = (st', None))) as Hrun.
  { intros st' Hfound ->. rewrite my_free_accepted by done. fold b. cbv zeta.
    rewrite Hfound in Hs1, Hs2. split.
    - intros Hfuel. rewrite length_app in Hfuel.
      rewrite Hf1 by lia. simpl. rewrite Hs1 by lia. done.
    - intros r. destruct (coalesce_forward _ _ _) as [r2 |] eqn:E2; [| done].
      rewrite (Hf2 r2 eq_refl). simpl.
      destruct (coalesce_scan _ _ _ _) as [r3 |] eqn:E3; [| done].
      rewrite (Hs2 r3 eq_refl). simpl. by intros [= <-]. }
  destruct (chain_span_aligned _ _ _ _ Hpost) as [Hspan0 Hspan8].
  assert (∀ x, x ∈ B3 → x ∈ B2) as HB3sub
    by (intros x Hx; rewrite HB2eq; set_solver).
  assert (∀ x, x ∈ B2 → is_free (hdr st x) = false → x ∈ B3) as HB3used.
  { intros x Hx Hxu. rewrite HB2eq in Hx. apply elem_of_app in Hx as [Hx | Hx]; [| done].
    exfalso. subst post. unfold succ_free in Hx. destruct B2 as [| y B2']; [set_solver |].
    destruct (is_free (hdr st y)) eqn:Hy; [| set_solver].
    apply list_elem_of_singleton in Hx as ->. congruence. }
  assert (b ∉ B3) as HbB3 by (intros Hin; by apply HbB2, HB3sub).
  assert (size (hdr st2 b) < SIZE_MODULUS) as Hb2max.
  { rewrite Hszb2. apply chain_le in HB3. unfold SIZE_MODULUS, HEAP_SIZE in *. lia. }
  assert (∀ x, x ∈ B1 ++ b :: B2 → is_free (hdr st x) = false → b ≠ x →
               get_data x ≠ p) as Hptr.
  { intros x _ _ Hx Heq. apply Hx. subst b p. unfold get_header, get_data. lia. }
  destruct (pred_free_cases st B1) as [(Hpre & Hpu) | (B0 & a & -> & Hpre & Haf)].
  - (* no merge into the previous block: the block is inserted *)
    exists (set_free_list (set_next st2 b (free_list st2)) (Some b)), B1, B2.
    split; [done |].
    destruct (Hrun (set_free_list (set_next st2 b (free_list st2)) (Some b))) as [Hr1 Hr2].
    { rewrite Hpre. simpl.
      destruct (last B1) as [y |] eqn:Hlast; [| done].
      rewrite Hfr2, decide_False, (Hpu y eq_refl); [done |].
      intros <-. apply HbB1. by apply last_Some_elem_of. }
    { by rewrite Hpre. }
    split; [exact Hr1 |]. split; [exact Hr2 |]. clear Hrun Hr1 Hr2.
    rewrite Hpre. simpl. rewrite Nat.sub_0_r, firstn_all. fold post B3.
    set (st' := set_free_list (set_next st2 b (free_list st2)) (Some b)).
    assert (∀ x, size (hdr st' x) = size (hdr st2 x)) as Hsize'
      by (intros x; subst st'; by autorewrite with heap).
    assert (∀ x, is_free (hdr st' x) = if decide (b = x) then true else is_free (hdr st x))
      as Hisfree' by (intros x; subst st'; autorewrite with heap; apply Hfr2).
    assert (b ∉ fl2) as Hbfl2.
    { intros (Hin & _)%Hiff2. apply elem_of_app in Hin as [? | ?]; done. }
    split; [exists (b :: fl2); split | split; [split | split]].
    + apply chain_mid_intro.
      * apply (chain_ext st2); [| done]. intros x _. apply Hsize'.
      * rewrite Hsize', Hszb2. lia.
      * rewrite Hsize', Hszb2, Z.add_mod, Hbal, Hspan8 by lia. reflexivity.
      * rewrite Hsize', Hszb2, Z.add_assoc, <- Hmid.
        apply (chain_ext st); [| done]. intros x Hx. rewrite Hsize'. apply Hsz2.
        by intros <-.
    + unfold free_entries. simpl. split; [done |].
      subst st'. autorewrite with heap. rewrite decide_True by done.
      apply (lseg_ext st2); [| done]. intros x Hx. autorewrite with heap.
      rewrite decide_False; [done |]. by intros <-.
    + apply NoDup_cons. done.
    + intros x. rewrite Hisfree', elem_of_cons, Hiff2. case_decide as Hbx.
      * subst x. split; [intros _; split; [set_solver | done] | by left].
      * rewrite !elem_of_app, !elem_of_cons. naive_solver.
    + intros x Hx. rewrite Hisfree', !Hsize', Hisfree'. case_decide as Hbx.
      * subst x. intros _ Hlt. rewrite Hszb2, Z.add_assoc, <- Hmid in *.
        rewrite decide_False by lia.
        destruct B3 as [| y B3']; [simpl in HB3; lia |].
        destruct HB3 as (-> & _). by apply Hafter.
      * intros Hxf Hlt. rewrite Hsz2 in * by done.
        case_decide as Hsb.
        -- exfalso. assert (x ∈ B1) as HxB1.
           { apply elem_of_app in Hx as [? | [? | Hx]%elem_of_cons]; [done | done |].
             destruct (chain_bounds _ _ _ _ _ HB3 Hx) as (? & ? & ? & ?).
             apply chain_le in Hpost. lia. }
           apply list_elem_of_split in HxB1 as (Ba & Bb & ->).
           apply chain_mid in HB1 as (_ & _ & _ & Hc).
           destruct Bb as [| z Bb].
           ++ rewrite (Hpu x) in Hxf; [done | apply last_snoc].
           ++ destruct Hc as (-> & Hm & _ & Hc). apply chain_le in Hc.
              rewrite min_block_size_eq in Hm. lia.
        -- apply Hadj; [| done | done].
           rewrite !elem_of_app, !elem_of_cons in *.
           destruct Hx as [? | [? | ?]]; [by left | done | right; right; by apply HB3sub].
    + apply forget_NoDup, (live_nodup _ _ _ Hlive).
    + intros q m (Hq & Hin)%elem_of_forget.
      destruct (live_used _ _ _ Hlive q m Hin) as (Hqb & Hqu & ? & ? & ?).
      assert (b ≠ get_header q) as Hne.
      { intros Heq. apply Hq. subst b. unfold get_header in Heq. lia. }
      rewrite Hisfree', Hsize', Hsz2, decide_False by done.
      split_and!; try done.
      rewrite !elem_of_app, !elem_of_cons in *.
      destruct Hqb as [? | [? | ?]]; [by left | done | right; right; by apply HB3used].
    + intros x Hx. rewrite Hisfree'. case_decide as Hbx; [done |]. intros Hxu.
      assert (x ∈ B1 ++ b :: B2) as Hx0.
      { rewrite !elem_of_app, !elem_of_cons in *.
        destruct Hx as [? | [? | ?]]; [by left | done | right; right; by apply HB3sub]. }
      destruct (live_all _ _ _ Hlive x Hx0 Hxu) as (m & Hm).
      exists m. apply elem_of_forget. split; [by apply Hptr | done].
    + rewrite Hisfree'. by rewrite decide_True.
    + rewrite Hsize', Hszb2. unfold span_total. simpl. lia.
  - (* merge into the previous block *)
    exists (set_size st2 a (wrap (size (hdr st2 a) + size (hdr st2 b)))), (B0 ++ [a]), B2.
    split; [done |].
    destruct (Hrun (set_size st2 a (wrap (size (hdr st2 a) + size (hdr st2 b))))) as [Hr1 Hr2].
    { rewrite Hpre. simpl.
      rewrite last_snoc, Hfr2, decide_False, Haf; [done |].
      intros <-. apply HbB1. set_solver. }
    { by rewrite Hpre. }
    split; [exact Hr1 |]. split; [exact Hr2 |]. clear Hrun Hr1 Hr2.
    rewrite Hpre. simpl. rewrite length_app. simpl.
    replace (length B0 + 1 - 1)%nat with (length B0) by lia.
    rewrite take_app_length.
    fold post B3.
    assert (b ≠ a) as Hba by (intros <-; apply HbB1; set_solver).
    apply chain_mid in HB1 as (HB0 & Hamin & Haal & Hab). simpl in Hab.
    assert (wrap (size (hdr st2 a) + size (hdr st2 b)) =
            size (hdr st a) + size (hdr st b) + span_total st post) as Hw.
    { rewrite Hsz2, Hszb2 by done. rewrite Z.add_assoc. apply wrap_small.
      apply chain_le in HB3. apply chain_le in HB0.
      unfold SIZE_MODULUS, HEAP_SIZE in *. lia. }
    rewrite Hw.
    set (st' := set_size st2 a (size (hdr st a) + size (hdr st b) + span_total st post)).
    assert (∀ x, size (hdr st' x) =
                 if decide (a = x) then size (hdr st a) + size (hdr st b) + span_total st post
                 else size (hdr st2 x)) as Hsize'
      by (intros x; subst st'; by autorewrite with heap).
    assert (∀ x, is_free (hdr st' x) = if decide (b = x) then true else is_free (hdr st x))
      as Hisfree' by (intros x; subst st'; autorewrite with heap; apply Hfr2).
    assert (∀ x, x ∈ B0 → a ≠ x ∧ b ≠ x) as HB0ne.
    { intros x Hx. pose proof (chain_before _ _ _ _ _ HB0 Hx). lia. }
    assert (∀ x, x ∈ B3 → a ≠ x ∧ b ≠ x) as HB3ne.
    { intros x Hx. destruct (chain_bounds _ _ _ _ _ HB3 Hx) as (? & _).
      apply chain_le in Hpost. lia. }
    split; [exists fl2; split | split; [split | split]].
    + apply chain_mid_intro.
      * apply (chain_ext st); [| done]. intros x Hx. rewrite Hsize'.
        destruct (HB0ne x Hx). rewrite decide_False by done. by apply Hsz2.
      * rewrite Hsize', decide_True by done. lia.
      * rewrite Hsize', decide_True by done.
        rewrite Z.add_mod, (Z.add_mod (size (hdr st a))), Haal, Hbal, Hspan8 by lia.
        reflexivity.
      * rewrite Hsize', decide_True by done.
        replace (a + (size (hdr st a) + size (hdr st b) + span_total st post)) with mid by lia.
        apply (chain_ext st); [| done]. intros x Hx. rewrite Hsize'.
        destruct (HB3ne x Hx). rewrite decide_False by done. by apply Hsz2.
    + unfold free_entries. apply (lseg_ext st2); [| done]. intros x Hx.
      subst st'. by autorewrite with heap.
    + done.
    + intros x. rewrite Hisfree', Hiff2. case_decide as Hbx.
      * subst x. split; [intros (Hin & _) | intros (Hin & _)]; exfalso;
          rewrite !elem_of_app, ?elem_of_cons in Hin.
        -- destruct Hin as [[Hin | Hin] | Hin]; [by destruct (HB0ne b Hin) | set_solver | done].
        -- destruct Hin as [Hin | [Hin | Hin]]; [by destruct (HB0ne b Hin) | done | done].
      * rewrite <- app_assoc. done.
    + intros x Hx. rewrite Hisfree', !Hsize', Hisfree'.
      case_decide as Hbx.
      { exfalso. subst x. rewrite !elem_of_app, ?elem_of_cons in Hx.
        destruct Hx as [Hin | [Hin | Hin]]; [by destruct (HB0ne b Hin) | done | done]. }
      intros Hxf. case_decide as Hax.
      * subst x. intros Hlt.
        replace (a + (size (hdr st a) + size (hdr st b) + span_total st post)) with mid in * by lia.
        destruct B3 as [| y B3']; [simpl in HB3; lia |].
        pose proof (HB3ne y ltac:(left)) as [_ ?].
        destruct HB3 as (Hy & _). rewrite <- Hy.
        rewrite decide_False by done. by apply Hafter.
      * rewrite Hsz2 by done. intros Hlt.
        assert (x ∈ (B0 ++ [a]) ++ b :: B2) as Hx0.
        { rewrite !elem_of_app, !elem_of_cons in *.
          destruct Hx as [? | [? | ?]]; [left; by left | done | right; right; by apply HB3sub]. }
        case_decide as Hsb.
        -- exfalso. apply elem_of_app in Hx as [Hx | [? | Hx]%elem_of_cons]; [| done |].
           ++ pose proof (chain_before _ _ _ _ _ HB0 Hx). lia.
           ++ destruct (chain_bounds _ _ _ _ _ HB3 Hx) as (? & ? & ? & ?).
              apply chain_le in Hpost. lia.
        -- by apply Hadj.
    + apply forget_NoDup, (live_nodup _ _ _ Hlive).
    + intros q m (Hq & Hin)%elem_of_forget.
      destruct (live_used _ _ _ Hlive q m Hin) as (Hqb & Hqu & ? & ? & ?).
      assert (b ≠ get_header q) as Hne.
      { intros Heq. apply Hq. subst b. unfold get_header in Heq. lia. }
      assert (a ≠ get_header q) as Hne' by (intros Heq; rewrite <- Heq in Hqu; congruence).
      rewrite Hisfree', Hsize', Hsz2, !decide_False by done.
      split_and!; try done.
      rewrite !elem_of_app, !elem_of_cons in *.
      destruct Hqb as [[? | [? | ?]] | [? | ?]]; try done; [by left | set_solver |].
      right; right; by apply HB3used.
    + intros x Hx. rewrite Hisfree'. case_decide as Hbx; [done |]. intros Hxu.
      assert (x ∈ (B0 ++ [a]) ++ b :: B2) as Hx0.
      { rewrite !elem_of_app, !elem_of_cons in *.
        destruct Hx as [? | [? | ?]]; [left; by left | left; right; by left | right; right; by apply HB3sub]. }
      destruct (live_all _ _ _ Hlive x Hx0 Hxu) as (m & Hm).
      exists m. apply elem_of_forget. split; [by apply Hptr | done].
    + rewrite Hisfree'. by rewrite decide_False.
    + rewrite Hsize', decide_True by done. unfold span_total. simpl. lia.
Qed.

(** * Reachable states *)

Lemma hdr_init a :
  hdr init_allocator a =
  if decide (a = 0) then mkBlockHeader HEAP_SIZE true None else zero_header.
Proof.
  unfold hdr, init_allocator. simpl. case_decide as Ha.
  - subst. by rewrite lookup_singleton_eq.
  - by rewrite lookup_singleton_ne.
Qed.

Lemma init_inv :
  heap_inv init_allocator [0] [0] ∧ live_inv init_allocator [0] [].
Proof.
  split; split.
  - unfold layout. simpl. rewrite hdr_init. simpl. done.
  - unfold free_entries. simpl. rewrite hdr_init. done.
  - apply NoDup_singleton.
  - intros a. rewrite list_elem_of_singleton. split.
    + intros ->. rewrite hdr_init. done.
    + by intros [? _].
  - intros a ->%list_elem_of_singleton _. rewrite hdr_init. simpl.
    unfold HEAP_SIZE. lia.
  - constructor.
  - intros p n Hin. by apply elem_of_nil in Hin.
  - intros b ->%list_elem_of_singleton. rewrite hdr_init. done.
Qed.

(** A release that reports an error, or of [nullptr], changes nothing. *)
Lemma my_free_rejected fuel st q st' e :
  my_free fuel st q = Some (st', e) → q = None ∨ e ≠ None → st' = st.
Proof.
  unfold my_free. destruct q as [p |]; [| by intros [= <- <-]].
  destruct (negb (is_valid_ptr (get_header p))); [by intros [= <- <-] |].
  destruct (is_free (hdr st (get_header p))); [by intros [= <- <-] |].
  destruct (coalesce_block _ _ _) as [[st2 [b |]] |]; simpl; [| | done].
  - intros [= <- <-] [? | ?]; done.
  - intros [= <- <-] [? | ?]; done.
Qed.

Lemma reach_inv st live :
  reach in_range st live → ∃ bs fl, heap_inv st bs fl ∧ live_inv st bs live.
Proof.
  induction 1 as [| st live fuel s st' _ IH Hs Hm | st live fuel s st' p _ IH Hs Hm
                  | st live fuel p n st' e _ IH Hin Hf | st live fuel q st' e _ IH Hf Hq].
  - exists [0], [0]. apply init_inv.
  - destruct IH as (bs & fl & Hinv & Hlive).
    apply (my_malloc_inv _ _ _ _ _ _ _ _ Hinv Hlive Hs Hm).
  - destruct IH as (bs & fl & Hinv & Hlive).
    apply (my_malloc_inv _ _ _ _ _ _ _ _ Hinv Hlive Hs Hm).
  - destruct IH as (bs & fl & Hinv & Hlive).
    destruct (my_free_inv st bs fl live p n fuel Hinv Hlive Hin)
      as (st2 & B1 & B2 & _ & _ & Hres & (fl' & Hinv') & Hlive' & _).
    apply Hres in Hf. injection Hf as -> ->. eauto.
  - apply my_free_rejected in Hf as ->; done.
Qed.

(** * The diagnostic walks on a well-formed heap *)

Lemma user_total_perm st l k : l ≡ₚ k → user_total st l = user_total st k.
Proof.
  unfold user_total. induction 1; simpl; lia.
Qed.

Lemma user_total_nonneg st l :
  (∀ a, a ∈ l → sizeof_BlockHeader ≤ size (hdr st a)) → 0 ≤ user_total st l.
Proof.
  unfold user_total. induction l as [| x l IH]; intros Hl; simpl; [lia |].
  pose proof (Hl x ltac:(left)).
  assert (0 ≤ foldr (λ a acc, size (hdr st a) - sizeof_BlockHeader + acc) 0 l)
    by (apply IH; intros a Ha; apply Hl; by right).
  lia.
Qed.

Lemma free_walk_total st l :
  ∀ cur acc fuel,
  lseg st cur l None →
  (∀ a, a ∈ l → sizeof_BlockHeader ≤ size (hdr st a)) →
  0 ≤ acc → acc + user_total st l < SIZE_MODULUS →
  (length l < fuel)%nat →
  free_walk fuel st cur acc = Some (acc + user_total st l).
Proof.
  induction l as [| x l IH]; intros cur acc fuel Hl Hsz Hacc Hmax Hfuel;
    (destruct fuel as [| fuel]; [simpl in Hfuel; lia |]); simpl in *.
  - subst. unfold user_total. simpl. f_equal. lia.
  - destruct Hl as (-> & Hl).
    pose proof (Hsz x ltac:(left)) as Hx.
    assert (0 ≤ user_total st l) as Hrest
      by (apply user_total_nonneg; intros a Ha; apply Hsz; by right).
    unfold user_total in *. simpl in Hmax.
    rewrite wrap_add_r, wrap_small by lia.
    rewrite IH; try done; try lia.
    + simpl. f_equal. lia.
    + intros a Ha. apply Hsz. by right.
Qed.

Lemma count_walk_total st l :
  ∀ cur acc fuel,
  lseg st cur l None →
  0 ≤ acc → acc + Z.of_nat (length l) < SIZE_MODULUS →
  (length l < fuel)%nat →
  count_walk fuel st cur acc = Some (acc + Z.of_nat (length l)).
Proof.
  induction l as [| x l IH]; intros cur acc fuel Hl Hacc Hmax Hfuel;
    (destruct fuel as [| fuel]; [simpl in Hfuel; lia |]); simpl length in *;
    simpl count_walk.
  - simpl in Hl. subst. f_equal. lia.
  - destruct Hl as (-> & Hl). rewrite wrap_small by lia.
    rewrite IH; try done; try lia. f_equal. lia.
Qed.

Lemma user_total_free_le st a l e :
  chain st a l e → user_total st (free_blocks st l) ≤ span_total st l.
Proof.
  revert a. induction l as [| x l IH]; intros a Hc; simpl in *.
  - unfold user_total, span_total. simpl. lia.
  - destruct Hc as (-> & Hmin & _ & Hc). rewrite min_block_size_eq in Hmin.
    apply IH in Hc. unfold free_blocks, user_total, span_total in *.
    rewrite filter_cons. case_decide; simpl; unfold sizeof_BlockHeader in *; lia.
Qed.

Lemma free_entries_perm st bs fl :
  heap_inv st bs fl → fl ≡ₚ free_blocks st bs.
Proof.
  intros [Hlay _ Hnd Hfree _]. apply NoDup_Permutation; [done | |].
  - apply NoDup_filter. by eapply chain_NoDup.
  - intros x. rewrite Hfree. unfold free_blocks.
    rewrite list_elem_of_filter. tauto.
Qed.

(** The free-list walk counts the user bytes of the free blocks. *)
Lemma get_free_memory_inv st bs fl fuel :
  heap_inv st bs fl → (length bs + length fl < fuel)%nat →
  get_free_memory fuel st = Some (user_total st (free_blocks st bs)).
Proof.
  intros Hinv Hfuel. pose proof Hinv as [Hlay Hent Hnd Hfree Hadj].
  pose proof (user_total_free_le _ _ _ _ Hlay) as Hle.
  rewrite <- (Z.add_0_l (span_total st bs)), <- (chain_end_span _ _ _ _ Hlay) in Hle.
  pose proof (user_total_perm st _ _ (free_entries_perm _ _ _ Hinv)) as Hperm.
  unfold get_free_memory. rewrite (free_walk_total st fl); try done; try lia.
  - f_equal. lia.
  - intros a (Ha & _)%Hfree.
    destruct (chain_bounds _ _ _ _ _ Hlay Ha) as (_ & _ & ? & _).
    unfold sizeof_BlockHeader. lia.
  - unfold SIZE_MODULUS, HEAP_SIZE in *. lia.
Qed.

(** * Blocks and entries as the walks see them *)

Lemma is_block_chain st bs a :
  layout st bs → is_block st a ↔ a ∈ bs.
Proof.
  intros Hlay. split.
  - induction 1 as [| a _ IH Hlt].
    + destruct bs as [| x bs]; [by simpl in Hlay | ].
      destruct Hlay as (-> & _). by left.
    + destruct (chain_succ _ _ _ _ _ Hlay IH) as [Heq | Hin]; [lia | done].
  - assert (∀ l s, is_block st s → chain st s l HEAP_SIZE → a ∈ l → is_block st a) as Hgen.
    { induction l as [| x l IH]; intros s Hs Hc Ha; [by apply elem_of_nil in Ha |].
      destruct Hc as (-> & Hmin & _ & Hc).
      apply elem_of_cons in Ha as [-> | Ha]; [done |].
      apply (IH (s + size (hdr st s))); [| done | done].
      apply is_block_step; [done |].
      destruct (chain_bounds _ _ _ _ _ Hc Ha) as (? & ? & ? & _). lia. }
    apply (Hgen bs 0); [constructor | done].
Qed.

Lemma in_free_list_lseg st fl a :
  free_entries st fl → in_free_list st a ↔ a ∈ fl.
Proof.
  intros Hent. split.
  - induction 1 as [a Hhead | a b _ IH Hnext].
    + unfold free_entries in Hent. rewrite Hhead in Hent.
      destruct fl as [| x fl]; [done |]. destruct Hent as ([= ->] & _). by left.
    + apply list_elem_of_split in IH as (l1 & l2 & ->).
      apply lseg_app in Hent as (m & _ & _ & Hl2). rewrite Hnext in Hl2.
      destruct l2 as [| y l2]; [done |]. destruct Hl2 as ([= ->] & _). set_solver.
  - assert (∀ l p, (∀ x, p = Some x → in_free_list st x) → lseg st p l None →
                   a ∈ l → in_free_list st a) as Hgen.
    { induction l as [| x l IH]; intros p Hp Hl Ha; [by apply elem_of_nil in Ha |].
      destruct Hl as (-> & Hl).
      apply elem_of_cons in Ha as [-> | Ha]; [by apply Hp |].
      apply (IH (next (hdr st x))); [| done | done].
      intros y Hy. apply (in_free_list_step st x); [by apply Hp | done]. }
    apply (Hgen fl (free_list st)); [| done].
    intros x Hx. by apply in_free_list_head.
Qed.

(** * The used blocks as outstanding allocations *)

Lemma used_allocations_inv st bs fl :
  heap_inv st bs fl → live_inv st bs (used_allocations st bs).
Proof.
  intros [Hlay _ _ _ _]. unfold used_allocations. split.
  - rewrite <- list_fmap_compose.
    apply NoDup_fmap_2_strong; [| apply NoDup_filter; by eapply chain_NoDup].
    intros x y _ _. simpl. unfold get_data. lia.
  - intros p n (a & [= -> ->] & (Hu & Ha)%list_elem_of_filter)%list_elem_of_fmap.
    destruct (chain_bounds _ _ _ _ _ Hlay Ha) as (_ & _ & ? & _).
    unfold get_header, get_data. replace (a + sizeof_BlockHeader - sizeof_BlockHeader) with a by lia.
    rewrite min_block_size_eq. unfold sizeof_BlockHeader. split_and!; try done; lia.
  - intros b Hb Hu. exists (size (hdr st b) - sizeof_BlockHeader).
    apply list_elem_of_fmap. exists b. split; [done |].
    by apply list_elem_of_filter.
Qed.

(** * Allocation on a fresh heap *)

(** C6. On the freshly initialised heap every request of [1] to
    [HEAP_SIZE - sizeof(BlockHeader)] bytes is served: [my_malloc] returns
    a non-null pointer, the data pointer of the initial block, as soon as
    the scan loop may run once. *)
Theorem fresh_heap_allocates (s : Z) (fuel : nat) :
  1 ≤ s ≤ HEAP_SIZE - sizeof_BlockHeader →
  (0 < fuel)%nat →
  ∃ st', my_malloc fuel init_allocator s = Some (st', Some (get_data 0)).
Proof.
  intros Hs Hfuel. destruct fuel as [| fuel]; [lia |].
  unfold HEAP_SIZE, sizeof_BlockHeader in Hs.
  assert (0 ≤ s ≤ MAX_REQUEST) as Hr by (unfold MAX_REQUEST, SIZE_MODULUS; lia).
  pose proof (align_size_in_range s Hr) as [Hal Hmod].
  pose proof (total_size_in_range s Hr) as Htot.
  pose proof (Z.div_mod (align_size s) 8 ltac:(lia)) as Hdm.
  unfold my_malloc. rewrite (proj2 (Z.eqb_neq s 0)) by lia.
  simpl malloc_scan. rewrite hdr_init. simpl size.
  rewrite (proj2 (Z.leb_le _ _)).
  - unfold take_block. destruct (split_block _ _ _) as [st1 b] eqn:Hsplit.
    assert (b = 0) as ->.
    { unfold split_block in Hsplit. destruct (_ <? _); by injection Hsplit as <- <-. }
    by eexists.
  - rewrite Htot. unfold sizeof_BlockHeader, HEAP_SIZE. lia.
Qed.

Lemma fresh_heap_allocates_witness :
  ∃ st', my_malloc 1 init_allocator 100 = Some (st', Some (get_data 0)).
Proof.
  apply (fresh_heap_allocates 100 1); [unfold HEAP_SIZE, sizeof_BlockHeader; lia | lia].
Defined.

(** * Rejected releases *)

(** C3. A non-null pointer whose block header would lie outside the heap
    buffer is rejected: [my_free] returns, reports the invalid pointer and
    leaves the whole allocator state, blocks and free list, as it was. *)
Theorem release_outside_heap (fuel : nat) (st : allocator) (p : Z) :
  ¬ (0 ≤ get_header p < HEAP_SIZE) →
  my_free fuel st (Some p) = Some (st, Some ERR_invalid_pointer).
Proof.
  intros Hout. unfold my_free.
  replace (is_valid_ptr (get_header p)) with false; [done |].
  symmetry. unfold is_valid_ptr. apply andb_false_iff.
  destruct (Z.leb_spec 0 (get_header p)); [right | by left].
  apply Z.ltb_ge. lia.
Qed.

Lemma release_outside_heap_witness :
  my_free 0 init_allocator (Some 0) =
  Some (init_allocator, Some ERR_invalid_pointer).
Proof.
  apply (release_outside_heap 0 init_allocator 0).
  unfold get_header, sizeof_BlockHeader, HEAP_SIZE. lia.
Defined.

(** The free flags are out of reach of the list and size updates of a
    release. *)
Lemma remove_from_free_list_is_free fuel st c st' x :
  remove_from_free_list fuel st c = Some st' →
  is_free (hdr st' x) = is_free (hdr st x).
Proof.
  unfold remove_from_free_list. destruct (free_list st) as [first |]; [| by intros [= <-]].
  case_decide; [by intros [= <-] |].
  destruct (remove_scan _ _ _ _) as [[cur |] |]; simpl; [| by intros [= <-] | done].
  intros [= <-]. by autorewrite with heap.
Qed.

Lemma coalesce_block_is_free fuel st b st' r x :
  coalesce_block fuel st b = Some (st', r) →
  is_free (hdr st' x) = is_free (hdr st x).
Proof.
  rewrite coalesce_block_halves. unfold coalesce_forward, coalesce_backward.
  intros Hc.
  assert (∃ st2, (∀ y, is_free (hdr st2 y) = is_free (hdr st y)) ∧
                 coalesce_scan fuel st2 b 0 ≫=
                   (λ prev_block, match prev_block with
                      | Some pb => Some (set_size st2 pb (wrap (size (hdr st2 pb) + size (hdr st2 b))), None)
                      | None => Some (st2, Some b)
                      end) = Some (st', r)) as (st2 & Hst2 & Hback).
  { destruct (_ <? _).
    - destruct (is_free (hdr st (b + size (hdr st b)))).
      + destruct (remove_from_free_list _ _ _) as [st1 |] eqn:Hrem; [| done].
        simpl in Hc. eexists. split; [| exact Hc].
        intros y. autorewrite with heap. by eapply remove_from_free_list_is_free.
      + simpl in Hc. by exists st.
    - simpl in Hc. by exists st. }
  destruct (coalesce_scan _ _ _ _) as [[pb |] |]; simpl in Hback; [| | done].
  - injection Hback as <- <-. autorewrite with heap. apply Hst2.
  - injection Hback as <- <-. apply Hst2.
Qed.

(** After an accepted release the block is marked free. *)
Lemma my_free_marks_free fuel st p st' :
  my_free fuel st (Some p) = Some (st', None) →
  is_valid_ptr (get_header p) = true ∧
  is_free (hdr st' (get_header p)) = true.
Proof.
  unfold my_free.
  destruct (is_valid_ptr (get_header p)); simpl; [| done].
  destruct (is_free (hdr st (get_header p))); [done |].
  destruct (coalesce_block _ _ _) as [[st2 r] |] eqn:Hc; simpl; [| done].
  pose proof (coalesce_block_is_free _ _ _ _ _ (get_header p) Hc) as Hf.
  autorewrite with heap in Hf. rewrite decide_True in Hf by done.
  destruct r as [b |]; intros [= <-]; [| done].
  by autorewrite with heap.
Qed.

(** * Splitting *)

(** X28. [split_block] on a block of at most [HEAP_SIZE] bytes that
    [my_malloc] found large enough, for a total size that has not
    wrapped below the header size: when the remainder [size - total] is
    below the minimum block size nothing is written and the whole block
    is handed over; otherwise, and only then, the block is cut into a
    first block of [total] bytes and a free block of the remainder right
    behind it, linked after it, and the two sizes add up to the size the
    block had. The block returned is always the one given. *)
Theorem split_conservation (st : allocator) (block s : Z) :
  sizeof_BlockHeader ≤ total_size s →
  total_size s ≤ size (hdr st block) ≤ HEAP_SIZE →
  let total := total_size s in
  let remainder := size (hdr st block) - total in
  let new_block := block + total in
  let st' := (split_block st block s).1 in
  (split_block st block s).2 = block ∧
  (remainder < get_min_block_size → st' = st) ∧
  (get_min_block_size ≤ remainder →
   size (hdr st' block) = total ∧
   size (hdr st' new_block) = remainder ∧
   size (hdr st' block) + size (hdr st' new_block) = size (hdr st block) ∧
   is_free (hdr st' new_block) = true ∧
   is_free (hdr st' block) = is_free (hdr st block) ∧
   next (hdr st' block) = Some new_block ∧
   next (hdr st' new_block) = next (hdr st block)).
Proof.
  intros Hhdr [Hfit Hheap] total remainder new_block st'.
  subst st'. unfold split_block. fold (total_size s). fold total.
  rewrite min_block_size_eq.
  assert (total < SIZE_MODULUS) as Hmax by (apply wrap_range).
  unfold sizeof_BlockHeader, HEAP_SIZE, SIZE_MODULUS in *.
  rewrite (wrap_small (total + 32)) by (unfold SIZE_MODULUS; lia).
  destruct (Z.ltb_spec (size (hdr st block)) (total + 32)) as [Hlt | Hge]; simpl.
  - split; [done |]. split; [done |]. intros Hr. exfalso. subst remainder. lia.
  - split; [done |]. split; [subst remainder; lia |]. intros _.
    fold new_block.
    assert (new_block ≠ block) as Hne by (subst new_block; lia).
    rewrite (wrap_small (size (hdr st block) - total)) by (unfold SIZE_MODULUS; lia).
    fold remainder. autorewrite with heap.
    split_and!; repeat case_decide; try done; subst remainder; lia.
Qed.

Lemma split_conservation_witness :
  let st' := (split_block init_allocator 0 100).1 in
  size (hdr st' 0) + size (hdr st' (0 + total_size 100)) =
  size (hdr init_allocator 0).
Proof.
  refine (proj1 (proj2 (proj2 (proj2 (proj2
    (split_conservation init_allocator 0 100 _ _)) _)))).
  - vm_compute. discriminate.
  - vm_compute. split; discriminate.
  - vm_compute. discriminate.
Defined.

(** C4. A split that does not conserve the size: [my_malloc] adds the
    header size to the aligned size without a check, and for a request
    of [2^64 - 25] bytes the sum is 0.  On the fresh heap the block of
    [HEAP_SIZE] bytes passes the test of [my_malloc], its remainder is
    not below the minimum block size, and [split_block] splits it; the
    remainder it sets up 0 bytes further is the block itself, whose size
    field is then overwritten with the total: the two resulting size
    fields are one field that holds 0, and [my_malloc] hands out the
    block with that size.  The same call on the bytes of the buffer
    leaves the bytes of that header record. *)
Theorem split_loses_bytes_when_total_wraps :
  size (hdr init_allocator 0) = HEAP_SIZE ∧
  total_size WRAPPING_REQUEST = 0 ∧
  total_size WRAPPING_REQUEST ≤ size (hdr init_allocator 0) ∧
  get_min_block_size
    ≤ size (hdr init_allocator 0) - total_size WRAPPING_REQUEST ∧
  (∃ st', split_block init_allocator 0 WRAPPING_REQUEST = (st', 0) ∧
          st' ≠ init_allocator ∧
          next (hdr st' 0) = Some (0 + total_size WRAPPING_REQUEST) ∧
          size (hdr st' 0) + size (hdr st' (0 + total_size WRAPPING_REQUEST))
          = 0) ∧
  (∃ st' r,
     my_malloc 1 init_allocator WRAPPING_REQUEST = Some (st', Some 24) ∧
     size (hdr st' 0) = 0 ∧
     raw.my_malloc 1 raw.init_allocator WRAPPING_REQUEST = Some (r, Some 24) ∧
     raw.view r 0 = Some (hdr st' 0)).
Proof.
  split_and!; try (vm_compute; done).
  - eexists. split; [vm_compute; reflexivity |].
    split_and!; vm_compute; done.
  - eexists _, _. split; [vm_compute; reflexivity |].
    split; [vm_compute; done |].
    split; [vm_compute; reflexivity |]. vm_compute. reflexivity.
Qed.

(** * Coalescing *)

Lemma NoDup_split_unique (B1 B2 B1' B2' : list Z) b :
  NoDup (B1 ++ b :: B2) → B1 ++ b :: B2 = B1' ++ b :: B2' →
  B1 = B1' ∧ B2 = B2'.
Proof.
  revert B1'. induction B1 as [| x B1 IH]; intros [| y B1'] Hnd Heq; simpl in *.
  - by injection Heq as ->.
  - injection Heq as <- ->. apply NoDup_cons in Hnd as [Hb _]. exfalso. apply Hb. set_solver.
  - injection Heq as -> <-. apply NoDup_cons in Hnd as [Hb _]. exfalso. apply Hb. set_solver.
  - injection Heq as -> Heq. apply NoDup_cons in Hnd as [_ Hnd].
    destruct (IH _ Hnd Heq) as [-> ->]. done.
Qed.

Lemma pred_free_split st B1 :
  B1 = take (length B1 - length (pred_free st B1)) B1 ++ pred_free st B1.
Proof.
  destruct (pred_free_cases st B1) as [(-> & _) | (B0 & a & -> & -> & _)]; simpl.
  - by rewrite Nat.sub_0_r, firstn_all, app_nil_r.
  - rewrite length_app. simpl.
    replace (length B0 + 1 - 1)%nat with (length B0) by lia.
    by rewrite take_app_length.
Qed.

Lemma succ_free_split st B2 :
  B2 = succ_free st B2 ++ drop (length (succ_free st B2)) B2.
Proof.
  destruct (succ_free_cases st B2) as [(-> & _) | (nx & B3 & -> & -> & _)]; done.
Qed.

Lemma get_header_get_data b : get_header (get_data b) = b.
Proof. unfold get_header, get_data. lia. Qed.

(** C5. Releasing a used block of a well-formed heap: the call returns
    (any fuel above the number of blocks and entries is enough) without a
    message, and the run made of the free block right before it (if
    any), the block itself and the free block right after it (if any) is
    replaced in the layout by one free block, starting where the run
    started, whose size is the sum of the sizes of the blocks of the run.
    The new state is well formed again, so that this block is neither
    preceded nor followed by a free block, and the free list holds it
    once and holds no other block of the run. *)
Theorem release_coalesces (st : allocator) (bs fl B1 B2 : list Z) (b : Z) :
  heap_inv st bs fl → bs = B1 ++ b :: B2 → is_free (hdr st b) = false →
  let pre := pred_free st B1 in
  let post := succ_free st B2 in
  let run := pre ++ b :: post in
  let merged := hd b pre in
  let bs' :=
    take (length B1 - length pre) B1 ++ merged :: drop (length post) B2 in
  (∀ fuel, (length bs + length fl < fuel)%nat →
     ∃ st', my_free fuel st (Some (get_data b)) = Some (st', None)) ∧
  (∀ fuel st' e,
     my_free fuel st (Some (get_data b)) = Some (st', e) →
     e = None ∧
     is_free (hdr st' merged) = true ∧
     size (hdr st' merged) = span_total st run ∧
     ∃ fl', heap_inv st' bs' fl' ∧ merged ∈ fl' ∧
            ∀ x, x ∈ run → x ∈ fl' → x = merged).
Proof.
  intros Hinv -> Hused pre post run merged bs'.
  pose proof (used_allocations_inv _ _ _ Hinv) as Hlive.
  assert ((get_data b, size (hdr st b) - sizeof_BlockHeader)
            ∈ used_allocations st (B1 ++ b :: B2)) as Hin.
  { apply list_elem_of_fmap. exists b. split; [done |].
    apply list_elem_of_filter. split; [done | set_solver]. }
  pose proof (chain_NoDup _ _ _ _ (inv_layout _ _ _ Hinv)) as Hnd.
  assert (∀ fuel, ∃ st',
    ((length (B1 ++ b :: B2) + length fl < fuel)%nat →
     my_free fuel st (Some (get_data b)) = Some (st', None)) ∧
    (∀ r, my_free fuel st (Some (get_data b)) = Some r → r = (st', None)) ∧
    (∃ fl', heap_inv st' bs' fl') ∧
    is_free (hdr st' merged) = true ∧
    size (hdr st' merged) = span_total st run) as Hstep.
  { intros fuel.
    destruct (my_free_inv st _ fl _ _ _ fuel Hinv Hlive Hin)
      as (st' & B1' & B2' & Heq & Hr1 & Hr2 & Hinv' & _ & Hfree & Hsize).
    rewrite get_header_get_data in *.
    destruct (NoDup_split_unique _ _ _ _ _ Hnd Heq) as [<- <-].
    by exists st'. }
  split.
  - intros fuel Hfuel. destruct (Hstep fuel) as (st' & Hr1 & _). eauto.
  - intros fuel st' e Hfree.
    destruct (Hstep fuel) as (st2 & _ & Hr2 & (fl' & Hinv') & Hmf & Hms).
    apply Hr2 in Hfree. injection Hfree as -> ->.
    split_and!; try done. exists fl'. split; [done |].
    assert (merged ∈ bs') as Hmb by (subst bs'; set_solver).
    split; [apply (inv_free _ _ _ Hinv'); done |].
    intros x Hxrun (Hxb & _)%(inv_free _ _ _ Hinv').
    rewrite (pred_free_split st B1), (succ_free_split st B2) in Hnd.
    fold pre post in Hnd. subst bs' run.
    set (T := take _ B1) in *. set (D := drop _ B2) in *.
    rewrite <- app_assoc in Hnd.
    apply NoDup_app in Hnd as (_ & HT & Hnd).
    change (pre ++ b :: post ++ D) with (pre ++ (b :: post) ++ D) in Hnd.
    rewrite app_assoc in Hnd.
    apply NoDup_app in Hnd as (_ & HD & _).
    apply elem_of_app in Hxb as [Hx | [Hx | Hx]%elem_of_cons]; [| done |].
    + exfalso. apply (HT x Hx). rewrite app_comm_cons, app_assoc. set_solver.
    + exfalso. by apply (HD x).
Qed.

Lemma sample_hole_inv : heap_inv sample_hole [0; 32; 64] [0; 64].
Proof.
  split.
  - vm_compute. repeat split; discriminate.
  - vm_compute. done.
  - apply NoDup_cons. split; [set_solver | apply NoDup_singleton].
  - intros a. rewrite !elem_of_cons, !elem_of_nil. split.
    + intros [-> | [-> | []]]; vm_compute; auto.
    + intros ([-> | [-> | [-> | []]]] & Hf); auto.
      vm_compute in Hf. discriminate.
  - intros a. rewrite !elem_of_cons, !elem_of_nil.
    intros [-> | [-> | [-> | []]]]; vm_compute; done.
Qed.

Lemma release_coalesces_witness :
  (∀ fuel, (length [0; 32; 64] + length [0; 64] < fuel)%nat →
     ∃ st', my_free fuel sample_hole (Some (get_data 32)) = Some (st', None)) ∧
  (∀ fuel st' e,
     my_free fuel sample_hole (Some (get_data 32)) = Some (st', e) →
     e = None ∧
     is_free (hdr st' 0) = true ∧
     size (hdr st' 0) = span_total sample_hole [0; 32; 64] ∧
     ∃ fl', heap_inv st' [0] fl' ∧ 0 ∈ fl' ∧
            ∀ x, x ∈ [0; 32; 64] → x ∈ fl' → x = 0).
Proof.
  exact (release_coalesces sample_hole [0; 32; 64] [0; 64] [0] [64] 32
           sample_hole_inv eq_refl eq_refl).
Defined.

(** * Sample runs are reachable *)

Lemma in_range_any s : in_range s → any_request s.
Proof. unfold in_range, any_request, MAX_REQUEST, SIZE_MODULUS. lia. Qed.

Lemma reach_sample_allocated :
  reach in_range sample_allocated [(24, align_size 100)].
Proof.
  apply (reach_malloc in_range init_allocator [] 1 100).
  - apply reach_init.
  - unfold in_range, MAX_REQUEST, SIZE_MODULUS. lia.
  - vm_compute. reflexivity.
Qed.

Lemma reach_sample_released : reach in_range sample_released [].
Proof.
  apply (reach_free in_range sample_allocated [(24, align_size 100)] 2 24
           (align_size 100) sample_released None).
  - apply reach_sample_allocated.
  - by left.
  - vm_compute. reflexivity.
Qed.

Lemma reach_sample_whole :
  reach in_range sample_whole
    [(24, align_size (HEAP_SIZE - sizeof_BlockHeader - ALIGN_SIZE))].
Proof.
  apply (reach_malloc in_range init_allocator [] 1
           (HEAP_SIZE - sizeof_BlockHeader - ALIGN_SIZE)).
  - apply reach_init.
  - unfold in_range, MAX_REQUEST, SIZE_MODULUS, HEAP_SIZE, sizeof_BlockHeader, ALIGN_SIZE. lia.
  - vm_compute. reflexivity.
Qed.

Lemma reach_sample_wrapped :
  reach any_request sample_wrapped [(24, align_size WRAPPING_REQUEST)].
Proof.
  apply (reach_malloc any_request init_allocator [] 1 WRAPPING_REQUEST).
  - apply reach_init.
  - unfold any_request, WRAPPING_REQUEST, SIZE_MODULUS. lia.
  - vm_compute. reflexivity.
Qed.

Lemma reach_sample_wrapped_released :
  reach any_request sample_wrapped_released [].
Proof.
  apply (reach_free any_request sample_wrapped
           [(24, align_size WRAPPING_REQUEST)] 2 24
           (align_size WRAPPING_REQUEST) sample_wrapped_released None).
  - apply reach_sample_wrapped.
  - by left.
  - vm_compute. reflexivity.
Qed.

Lemma reach_sample_wrapped_neighbours :
  reach any_request sample_wrapped_neighbours [].
Proof.
  set (st1 := state_after_malloc 1 init_allocator 8).
  set (st2 := state_after_malloc 2 st1 WRAPPING_REQUEST).
  set (st3 := state_after_free 3 st2 (Some 24)).
  assert (reach any_request st1 [(24, align_size 8)]) as H1.
  { apply (reach_malloc any_request init_allocator [] 1 8).
    - apply reach_init.
    - unfold any_request, SIZE_MODULUS. lia.
    - vm_compute. reflexivity. }
  assert (reach any_request st2
            [(56, align_size WRAPPING_REQUEST); (24, align_size 8)]) as H2.
  { apply (reach_malloc any_request st1 _ 2 WRAPPING_REQUEST); [done | |].
    - unfold any_request, WRAPPING_REQUEST, SIZE_MODULUS. lia.
    - vm_compute. reflexivity. }
  assert (reach any_request st3 [(56, align_size WRAPPING_REQUEST)]) as H3.
  { apply (reach_free any_request st2 _ 3 24 (align_size 8) st3 None) in H2.
    - exact H2.
    - right. by left.
    - vm_compute. reflexivity. }
  apply (reach_free any_request st3 _ 3 56 (align_size WRAPPING_REQUEST)
           sample_wrapped_neighbours None) in H3.
  - exact H3.
  - by left.
  - vm_compute. reflexivity.
Qed.

(** * Everything released *)

(** X25. After a run of [my_malloc] calls of at most [MAX_REQUEST]
    bytes and of [my_free] calls that leaves no allocation outstanding,
    the free list is the single block that covers the heap: the
    fragmentation count is 1 and the free memory is the heap size less
    one header (any fuel of 2 or more lets both walks finish). *)
Theorem full_circle (st : allocator) (fuel : nat) :
  reach in_range st [] → (1 < fuel)%nat →
  get_fragmentation_count fuel st = Some 1 ∧
  get_free_memory fuel st = Some (HEAP_SIZE - sizeof_BlockHeader).
Proof.
  intros (bs & fl & Hinv & Hlive)%reach_inv Hfuel.
  destruct Hinv as [Hlay Hent Hnd Hfree Hadj].
  assert (∀ b, b ∈ bs → is_free (hdr st b) = true) as Hall.
  { intros b Hb. destruct (is_free (hdr st b)) eqn:Hf; [done |].
    destruct (live_all _ _ _ Hlive b Hb Hf) as (n & Hn). by apply elem_of_nil in Hn. }
  assert (bs = [0] ∧ size (hdr st 0) = HEAP_SIZE) as [-> Hsize].
  { destruct bs as [| x bs]; [by simpl in Hlay |].
    pose proof Hlay as (-> & Hmin & _ & Hc).
    destruct bs as [| y bs].
    - simpl in Hc. split; [done | lia].
    - exfalso. pose proof Hc as (-> & Hmin' & _ & Hc').
      apply chain_le in Hc'. rewrite min_block_size_eq in *.
      pose proof (Hadj 0 ltac:(left) (Hall 0 ltac:(left)) ltac:(lia)) as Hu.
      rewrite Hall in Hu; [done |]. right. by left. }
  assert (fl = [0]) as ->.
  { assert (0 ∈ fl) as H0 by (apply Hfree; split; [by left | apply Hall; by left]).
    destruct fl as [| x fl]; [by apply elem_of_nil in H0 |].
    assert (x = 0) as -> by (destruct (proj1 (Hfree x) ltac:(left)) as [?%list_elem_of_singleton _]; done).
    destruct fl as [| y fl]; [done |]. exfalso.
    assert (y = 0) as -> by (destruct (proj1 (Hfree y) ltac:(right; left)) as [?%list_elem_of_singleton _]; done).
    apply NoDup_cons in Hnd as [Hn _]. apply Hn. by left. }
  destruct Hent as (Hhead & Hnext). simpl in Hnext.
  destruct fuel as [| [| fuel]]; [lia | lia |].
  unfold get_fragmentation_count, get_free_memory. rewrite Hhead. simpl.
  rewrite Hnext, Hsize. split; vm_compute; reflexivity.
Qed.

Lemma full_circle_witness :
  get_fragmentation_count 2 sample_released = Some 1 ∧
  get_free_memory 2 sample_released = Some (HEAP_SIZE - sizeof_BlockHeader).
Proof.
  apply (full_circle sample_released 2 reach_sample_released). lia.
Defined.

(** C7. The full circle fails for a request whose total size wraps:
    [my_malloc] adds the header size to the aligned size without a
    check, and for [2^64 - 25] the sum is 0.  [p = my_malloc(2^64 - 25)]
    on the fresh heap returns a pointer, and after [my_free(p)] nothing
    is outstanding, yet the one entry of the free list has size 0 and
    [get_free_memory] returns [2^64 - 24] instead of the heap size less
    one header.  Only the header at offset 0 is read and written in
    this run, and the same calls on the bytes of the buffer leave the
    bytes of that header record. *)
Theorem full_circle_fails_when_total_wraps :
  reach any_request sample_wrapped_released [] ∧
  get_free_memory 2 sample_wrapped_released = Some (SIZE_MODULUS - 24) ∧
  (∀ fuel, get_free_memory fuel sample_wrapped_released
           ≠ Some (HEAP_SIZE - sizeof_BlockHeader)) ∧
  ∃ r, raw.replay 2 raw.init_allocator
         [raw.Malloc WRAPPING_REQUEST; raw.Free (Some 24)]
       = Some (r, [raw.Returned (Some 24); raw.Released None]) ∧
       raw.free_list r = free_list sample_wrapped_released ∧
       raw.view r 0 = Some (hdr sample_wrapped_released 0).
Proof.
  split; [exact reach_sample_wrapped_released |].
  split; [vm_compute; reflexivity |].
  split; [intros [| [| fuel]]; vm_compute; discriminate |].
  eexists. split; [vm_compute; reflexivity |]. split; vm_compute; reflexivity.
Qed.

(** * The free list and the free flags *)

(** X26. In every state reached with [my_malloc] calls of at most
    [MAX_REQUEST] bytes, the entries of the free list are the blocks
    whose flag says free. *)
Theorem free_list_matches_flags (st : allocator) (live : list (Z * Z)) :
  reach in_range st live →
  ∀ a, in_free_list st a ↔ is_block st a ∧ is_free (hdr st a) = true.
Proof.
  intros (bs & fl & Hinv & Hlive)%reach_inv a.
  rewrite (in_free_list_lseg st fl) by apply Hinv.
  rewrite (is_block_chain st bs) by apply Hinv. apply Hinv.
Qed.

Lemma reach_sample_hole : reach in_range sample_hole [(56, align_size 8)].
Proof.
  apply (reach_free in_range
           (state_after_malloc 1 (state_after_malloc 1 init_allocator 8) 8)
           [(56, align_size 8); (24, align_size 8)] 3 24 (align_size 8)
           sample_hole None).
  - apply (reach_malloc in_range (state_after_malloc 1 init_allocator 8)
             [(24, align_size 8)] 1 8).
    + apply (reach_malloc in_range init_allocator [] 1 8).
      * apply reach_init.
      * unfold in_range, MAX_REQUEST, SIZE_MODULUS. lia.
      * vm_compute. reflexivity.
    + unfold in_range, MAX_REQUEST, SIZE_MODULUS. lia.
    + vm_compute. reflexivity.
  - right. by left.
  - vm_compute. reflexivity.
Qed.

Lemma free_list_matches_flags_witness :
  in_free_list sample_hole 64 ↔
  is_block sample_hole 64 ∧ is_free (hdr sample_hole 64) = true.
Proof.
  exact (free_list_matches_flags sample_hole _ reach_sample_hole 64).
Defined.

(** C8. The free list and the flags disagree after a request whose
    total size wraps: [my_malloc] adds the header size to the aligned
    size without a check, and for [2^64 - 25] the sum is 0, so that the
    remainder [split_block] sets up is the block itself.  After
    [my_malloc(2^64 - 25)] on the fresh heap the block at offset 0 is the
    head of the free list although its flag says used.  Only the header
    at offset 0 is read and written in this run, and the same call on
    the bytes of the buffer leaves the bytes of that header record. *)
Theorem free_list_holds_used_block_when_total_wraps :
  reach any_request sample_wrapped [(24, align_size WRAPPING_REQUEST)] ∧
  in_free_list sample_wrapped 0 ∧
  is_block sample_wrapped 0 ∧
  is_free (hdr sample_wrapped 0) = false ∧
  ∃ r, raw.replay 1 raw.init_allocator [raw.Malloc WRAPPING_REQUEST]
       = Some (r, [raw.Returned (Some 24)]) ∧
       raw.free_list r = free_list sample_wrapped ∧
       raw.view r 0 = Some (hdr sample_wrapped 0).
Proof.
  split; [exact reach_sample_wrapped |].
  split; [by apply in_free_list_head |].
  split; [constructor |]. split; [vm_compute; reflexivity |].
  eexists. split; [vm_compute; reflexivity |]. split; vm_compute; reflexivity.
Qed.

(** * Neighbouring free blocks *)

(** X27. In every state reached with [my_malloc] calls of at most
    [MAX_REQUEST] bytes, a block and the block that follows it in
    address order are never both free. *)
Theorem no_adjacent_free_blocks (st : allocator) (live : list (Z * Z)) (a : Z) :
  reach in_range st live →
  is_block st a → a + size (hdr st a) < HEAP_SIZE →
  ¬ (is_free (hdr st a) = true ∧
     is_free (hdr st (a + size (hdr st a))) = true).
Proof.
  intros (bs & fl & Hinv & Hlive)%reach_inv Ha Hlt [Hf Hf'].
  apply (is_block_chain st bs) in Ha; [| apply Hinv].
  rewrite (inv_adjacent _ _ _ Hinv a Ha Hf Hlt) in Hf'. done.
Qed.

Lemma no_adjacent_free_blocks_witness :
  is_block sample_hole 0 ∧
  is_free (hdr sample_hole 0) = true ∧
  ¬ (is_free (hdr sample_hole 0) = true ∧
     is_free (hdr sample_hole (0 + size (hdr sample_hole 0))) = true).
Proof.
  split; [constructor |]. split; [vm_compute; reflexivity |].
  apply (no_adjacent_free_blocks sample_hole _ 0 reach_sample_hole).
  - constructor.
  - vm_compute. reflexivity.
Defined.

(** C10. Two neighbours are both free after a request whose total
    size wraps: [my_malloc] adds the header size to the aligned size
    without a check, and for [2^64 - 25] the sum is 0, so that
    [split_block] leaves a block of size 0.  After [a = my_malloc(8)],
    [b = my_malloc(2^64 - 25)], [my_free(a)], [my_free(b)] the block at
    offset 0 (32 bytes) and the block that follows it at offset 32 (0
    bytes) are both free.  Only the headers at offsets 0 and 32 are read
    and written in this run, and the same calls on the bytes of the
    buffer leave the bytes of these two header records. *)
Theorem adjacent_free_blocks_when_total_wraps :
  reach any_request sample_wrapped_neighbours [] ∧
  is_block sample_wrapped_neighbours 0 ∧
  0 + size (hdr sample_wrapped_neighbours 0) < HEAP_SIZE ∧
  is_free (hdr sample_wrapped_neighbours 0) = true ∧
  is_free (hdr sample_wrapped_neighbours
             (0 + size (hdr sample_wrapped_neighbours 0))) = true ∧
  ∃ r, raw.replay 3 raw.init_allocator
         [raw.Malloc 8; raw.Malloc WRAPPING_REQUEST;
          raw.Free (Some 24); raw.Free (Some 56)]
       = Some (r, [raw.Returned (Some 24); raw.Returned (Some 56);
                   raw.Released None; raw.Released None]) ∧
       raw.free_list r = free_list sample_wrapped_neighbours ∧
       raw.view r 0 = Some (hdr sample_wrapped_neighbours 0) ∧
       raw.view r 32 = Some (hdr sample_wrapped_neighbours 32).
Proof.
  split; [exact reach_sample_wrapped_neighbours |].
  split; [constructor |].
  split; [vm_compute; done |]. split; [vm_compute; done |].
  split; [vm_compute; done |].
  eexists. split; [vm_compute; reflexivity |].
  split; [vm_compute; reflexivity |]. split; vm_compute; reflexivity.
Qed.

(** * Calls on reachable states return *)

Lemma reachable_calls_return st live :
  reach in_range st live →
  (∀ s, ∃ fuel st' r, my_malloc fuel st s = Some (st', r)) ∧
  (∀ p n, (p, n) ∈ live →
     ∃ fuel st', my_free fuel st (Some p) = Some (st', None)).
Proof.
  intros (bs & fl & Hinv & Hlive)%reach_inv. split.
  - intros s. exists (S (length fl)).
    apply (my_malloc_total st bs fl); [done | lia].
  - intros p n Hin.
    destruct (my_free_inv st bs fl live p n (S (length bs + length fl)) Hinv Hlive Hin)
      as (st' & _ & _ & _ & Hr & _).
    exists (S (length bs + length fl)), st'. apply Hr. lia.
Qed.

(** * Walks on a corrupted heap *)

(** The heap walk of [get_used_memory] stays on a block of size 0. *)
Lemma used_walk_stuck st current :
  current < HEAP_SIZE → size (hdr st current) = 0 →
  ∀ fuel used, used_walk fuel st current used = None.
Proof.
  intros Hlt Hzero. induction fuel as [| fuel IH]; intros used; [done |].
  simpl. rewrite (proj2 (Z.ltb_lt _ _)) by done.
  rewrite Hzero, Z.add_0_r. apply IH.
Qed.

(** The free-list walks go round an entry that is linked to itself. *)
Lemma free_walk_cycle st c :
  next (hdr st c) = Some c →
  ∀ fuel free, free_walk fuel st (Some c) free = None.
Proof.
  intros Hself. induction fuel as [| fuel IH]; intros free; [done |].
  simpl. rewrite Hself. apply IH.
Qed.

Lemma count_walk_cycle st c :
  next (hdr st c) = Some c →
  ∀ fuel count, count_walk fuel st (Some c) count = None.
Proof.
  intros Hself. induction fuel as [| fuel IH]; intros count; [done |].
  simpl. rewrite Hself. apply IH.
Qed.

(** The block layout loop of [print_heap_state] is the one walk with a
    step counter: it stops on every heap within 10001 steps. *)
Lemma layout_walk_stops st :
  ∀ fuel current block_num,
  0 ≤ block_num ≤ 10001 →
  (Z.to_nat (10001 - block_num) < fuel)%nat →
  is_Some (layout_walk fuel st current block_num).
Proof.
  induction fuel as [| fuel IH]; intros current block_num Hn Hfuel; [lia |].
  simpl. destruct (current <? HEAP_SIZE); [| done].
  rewrite (wrap_small (block_num + 1)) by (unfold SIZE_MODULUS; lia).
  destruct (size (hdr st current) =? 0); [done |]. simpl.
  destruct (Z.ltb_spec 10000 (block_num + 1)); [done |].
  destruct (IH (current + size (hdr st current)) (block_num + 1))
    as [[rows c] Heq]; [lia | lia | by rewrite Heq].
Qed.

(** C9 fails on the code. After [my_malloc(2^64 - 25)] on the fresh heap
    the block at offset 0 has size 0. The block layout loop of
    [print_heap_state] notices it in its first step and stops, but the
    heap walk of [get_used_memory] has no such check and never ends,
    whatever the fuel; and [print_heap_state], which calls
    [get_used_memory] first, never gets to its own loop. *)
Theorem used_walk_never_ends_on_zero_size :
  my_malloc 1 init_allocator WRAPPING_REQUEST = Some (sample_wrapped, Some 24) ∧
  size (hdr sample_wrapped 0) = 0 ∧
  layout_walk 1 sample_wrapped 0 0 =
    Some ([(0, 0, wrap (0 - sizeof_BlockHeader), false)], true) ∧
  (∀ fuel, get_used_memory fuel sample_wrapped = None) ∧
  (∀ fuel, print_heap_state fuel sample_wrapped = None).
Proof.
  split; [vm_compute; reflexivity |].
  split; [vm_compute; reflexivity |].
  split; [vm_compute; reflexivity |].
  assert (∀ fuel, get_used_memory fuel sample_wrapped = None) as Hused.
  { intros fuel. apply used_walk_stuck; [done | vm_compute; reflexivity]. }
  split; [exact Hused |].
  intros fuel. unfold print_heap_state. by rewrite Hused.
Qed.

(** * The runs of [main.cpp] on the model *)

(** Three allocations of 100, 200 and 50 bytes: three blocks in a row. *)
Example basic_allocation :
  ('(st, p1) ← my_malloc 1 init_allocator 100;
  '(st, p2) ← my_malloc 1 st 200;
  '(st, p3) ← my_malloc 1 st 50;
  used ← get_used_memory 5 st;
  Some (p1, p2, p3, used))
  = Some (Some 24, Some 152, Some 376, 104 + 200 + 56).
Proof. vm_compute. reflexivity. Qed.

(** The freed middle block is the first fit for 150 bytes; it is split,
    the 48 bytes left over being enough for a block. *)
Example free_and_reuse :
  ('(st, p1) ← my_malloc 1 init_allocator 100;
  '(st, p2) ← my_malloc 1 st 200;
  '(st, p3) ← my_malloc 1 st 50;
  '(st, _) ← my_free 4 st p2;
  '(st, p4) ← my_malloc 2 st 150;
  Some (p2, p4, usable_bytes st 152))
  = Some (Some 152, Some 152, 152).
Proof. vm_compute. reflexivity. Qed.

(** Four blocks released second, fourth, first, third: two free blocks
    after the first three releases, one after the last. *)
Example coalescing_order :
  ('(st, p1) ← my_malloc 1 init_allocator 100;
  '(st, p2) ← my_malloc 1 st 200;
  '(st, p3) ← my_malloc 1 st 150;
  '(st, p4) ← my_malloc 1 st 250;
  '(st, _) ← my_free 5 st p2;
  '(st, _) ← my_free 5 st p4;
  '(st, _) ← my_free 5 st p1;
  two ← get_fragmentation_count 5 st;
  '(st, _) ← my_free 5 st p3;
  one ← get_fragmentation_count 5 st;
  free ← get_free_memory 5 st;
  Some (two, one, free))
  = Some (2, 1, HEAP_SIZE - sizeof_BlockHeader).
Proof. vm_compute. reflexivity. Qed.

(** [my_malloc(0)], [my_free(nullptr)], a double free and the release of
    a pointer outside the buffer. *)
Example edge_cases :
  ('(st, zero) ← my_malloc 1 init_allocator 0;
  '(st, e0) ← my_free 0 st None;
  '(st, p) ← my_malloc 1 st 100;
  '(st, e1) ← my_free 3 st p;
  '(st, e2) ← my_free 3 st p;
  '(st, e3) ← my_free 3 st (Some (HEAP_SIZE + 4096));
  Some (zero, e0, e1, e2, e3))
  = Some (None, None, None, Some ERR_double_free, Some ERR_invalid_pointer).
Proof. vm_compute. reflexivity. Qed.

(** * Rounding of sizes *)

Lemma align_size_multiple s :
  align_size s mod 8 = 0 ∧ 0 ≤ align_size s ≤ SIZE_MODULUS - 8.
Proof.
  rewrite align_size_eq. pose proof (wrap_range (s + 7)) as Hr.
  unfold SIZE_MODULUS in *.
  pose proof (Z.div_mod (wrap (s + 7)) 8 ltac:(lia)) as Hdm.
  pose proof (Z.mod_pos_bound (wrap (s + 7)) 8 ltac:(lia)) as Hm.
  split; [rewrite Z.mul_comm; apply Z.mod_mul; lia |].
  assert (wrap (s + 7) / 8 < 2 ^ 61) by (apply Z.div_lt_upper_bound; lia).
  lia.
Qed.

(** X1. As long as [size + ALIGN_SIZE - 1] does not wrap, [align_size]
    rounds up to the next multiple of the alignment: the result is a
    multiple of 8, at least the size, less than 8 above it, and no
    multiple of 8 lies between the size and the result. *)
Theorem align_size_least_multiple (s : Z) :
  0 ≤ s ≤ SIZE_MODULUS - ALIGN_SIZE →
  align_size s mod ALIGN_SIZE = 0 ∧
  s ≤ align_size s < s + ALIGN_SIZE ∧
  ∀ m, m mod ALIGN_SIZE = 0 → s ≤ m → align_size s ≤ m.
Proof.
  unfold ALIGN_SIZE, SIZE_MODULUS. intros Hs.
  rewrite align_size_eq, wrap_small by (unfold SIZE_MODULUS; lia).
  pose proof (Z.div_mod (s + 7) 8 ltac:(lia)) as Hdm.
  pose proof (Z.mod_pos_bound (s + 7) 8 ltac:(lia)) as Hm.
  clear Hs.
  split; [rewrite Z.mul_comm; apply Z.mod_mul; lia |].
  split; [lia |].
  intros m Hmod Hle.
  pose proof (Z.div_mod m 8 ltac:(lia)) as Hdm'. rewrite Hmod in Hdm'.
  lia.
Qed.

Lemma align_size_least_multiple_witness :
  align_size 100 mod ALIGN_SIZE = 0 ∧
  100 ≤ align_size 100 < 100 + ALIGN_SIZE ∧
  ∀ m, m mod ALIGN_SIZE = 0 → 100 ≤ m → align_size 100 ≤ m.
Proof.
  apply (align_size_least_multiple 100).
  unfold SIZE_MODULUS, ALIGN_SIZE. lia.
Defined.

(** X2. Whatever the size, wrapped or not, the result of [align_size] is
    a multiple of 8 that fits a [size_t], and aligning it again changes
    nothing. *)
Theorem align_size_idempotent (s : Z) :
  align_size s mod ALIGN_SIZE = 0 ∧
  0 ≤ align_size s < SIZE_MODULUS ∧
  align_size (align_size s) = align_size s.
Proof.
  pose proof (align_size_multiple s) as [Hmod Hr].
  unfold ALIGN_SIZE. split; [exact Hmod |]. split; [lia |].
  rewrite (align_size_eq (align_size s)).
  rewrite wrap_small by lia.
  pose proof (Z.div_mod (align_size s) 8 ltac:(lia)) as Hdm.
  rewrite Hmod in Hdm.
  replace (align_size s + 7) with (7 + (align_size s / 8) * 8) by lia.
  rewrite Z.div_add by lia. change (7 / 8) with 0. lia.
Qed.

(** * Requests that [align_size] rounds to zero *)

Lemma align_size_top s :
  SIZE_MODULUS - ALIGN_SIZE < s < SIZE_MODULUS → align_size s = 0.
Proof.
  unfold ALIGN_SIZE, SIZE_MODULUS. intros Hs.
  rewrite align_size_eq. unfold wrap, SIZE_MODULUS.
  replace (s + 7) with ((s + 7 - 2 ^ 64) + 1 * 2 ^ 64) by lia.
  rewrite Z.mod_add by lia. rewrite Z.mod_small by lia.
  rewrite Z.div_small by lia. reflexivity.
Qed.

Lemma split_block_fst_snd st c s : (split_block st c s).2 = c.
Proof. unfold split_block. by destruct (_ <? _). Qed.

Lemma size_take_block st s c prev :
  size (hdr (take_block st s c prev).1 c) = size (hdr (split_block st c s).1 c).
Proof.
  unfold take_block. pose proof (split_block_fst_snd st c s) as Hb.
  destruct (split_block st c s) as [st1 b]. simpl in *. subst b.
  rewrite size_set_next, size_set_is_free.
  destruct (decide _); [by rewrite hdr_set_free_list |].
  destruct prev; [by rewrite size_set_next | done].
Qed.

Lemma take_block_pointer st s c prev : (take_block st s c prev).2 = Some (get_data c).
Proof.
  unfold take_block. pose proof (split_block_fst_snd st c s) as Hb.
  destruct (split_block st c s) as [st1 b]. simpl in *. by subst b.
Qed.

Lemma malloc_scan_result st s :
  ∀ fuel cur prev st' p,
  malloc_scan fuel st s cur prev = Some (st', Some p) →
  ∃ c prev', total_size s ≤ size (hdr st c) ∧
             (st', Some p) = take_block st s c prev' ∧ p = get_data c.
Proof.
  induction fuel as [| fuel IH]; intros cur prev st' p H; [done |].
  simpl in H. destruct cur as [c |]; [| done].
  destruct (Z.leb_spec (total_size s) (size (hdr st c))) as [Hle | Hgt].
  - exists c, prev. split; [exact Hle |]. split; [by injection H as <- |].
    unfold take_block in H. pose proof (split_block_fst_snd st c s) as Hb.
    destruct (split_block st c s) as [st1 b]. simpl in Hb. subst b.
    by injection H as _ <-.
  - by apply IH in H.
Qed.

(** X3. The seven largest [size_t] values are rounded by [align_size] to
    0, so a request for one of them is treated as a request for a bare
    header.  On a well-formed heap such a request fails only when the
    free list is empty, and the pointer [my_malloc] returns for it
    addresses fewer than [get_min_block_size] bytes, far fewer than were
    asked for. *)
Theorem top_requests_get_tiny_blocks
  (fuel : nat) (st st' : allocator) (bs fl : list Z) (s : Z) (r : option Z) :
  heap_inv st bs fl →
  SIZE_MODULUS - ALIGN_SIZE < s < SIZE_MODULUS →
  my_malloc fuel st s = Some (st', r) →
  align_size s = 0 ∧
  match r with
  | Some p => usable_bytes st' p < get_min_block_size
  | None => fl = []
  end.
Proof.
  intros Hinv Hs Hm. pose proof (align_size_top s Hs) as Hal.
  split; [exact Hal |].
  assert (total_size s = 24) as Ht by (unfold total_size; by rewrite Hal).
  unfold my_malloc in Hm.
  destruct (Z.eqb_spec s 0) as [-> | _]; [unfold SIZE_MODULUS, ALIGN_SIZE in Hs; lia |].
  destruct r as [p |].
  - apply malloc_scan_result in Hm as (c & prev & Hle & Hst & ->).
    rewrite Ht in Hle.
    unfold usable_bytes. rewrite get_header_get_data.
    replace st' with (take_block st s c prev).1 by (by rewrite <- Hst).
    rewrite size_take_block. unfold split_block.
    fold (total_size s). rewrite Ht, min_block_size_eq.
    change (wrap (24 + 32)) with 56.
    destruct (Z.ltb_spec (size (hdr st c)) 56) as [Hlt | Hge]; simpl.
    + unfold sizeof_BlockHeader. rewrite wrap_small by (unfold SIZE_MODULUS; lia). lia.
    + rewrite size_set_next, size_set_next, size_set_size.
      rewrite decide_True by done. reflexivity.
  - pose proof Hinv as [Hlay Hent _ Hfree _].
    destruct (malloc_scan_first_fit st s fl (free_list st) None fuel Hent) as [_ H2].
    apply H2 in Hm.
    destruct (first_fit st (total_size s) fl None) as [[c prev] |] eqn:Hff.
    + pose proof (take_block_pointer st s c prev) as Hp. by rewrite <- Hm in Hp.
    + destruct fl as [| a fl]; [done |]. exfalso.
      pose proof (first_fit_None _ _ _ _ Hff a ltac:(left)) as Hsmall.
      destruct (proj1 (Hfree a) ltac:(left)) as [Ha _].
      destruct (chain_bounds _ _ _ _ _ Hlay Ha) as (_ & _ & ? & _). lia.
Qed.

Lemma top_requests_get_tiny_blocks_witness :
  align_size (SIZE_MODULUS - 1) = 0 ∧
  usable_bytes (state_after_malloc 1 init_allocator (SIZE_MODULUS - 1)) 24
  < get_min_block_size.
Proof.
  apply (top_requests_get_tiny_blocks 1 init_allocator _ [0] [0]
           (SIZE_MODULUS - 1) (Some 24)).
  - apply init_inv.
  - unfold SIZE_MODULUS, ALIGN_SIZE. lia.
  - vm_compute. reflexivity.
Defined.

(** * Calls that change nothing *)

Lemma malloc_scan_null st s :
  ∀ fuel cur prev st',
  malloc_scan fuel st s cur prev = Some (st', None) → st' = st.
Proof.
  induction fuel as [| fuel IH]; intros cur prev st' H; [done |].
  simpl in H. destruct cur as [c |]; [| by injection H as <-].
  destruct (_ <=? _).
  - unfold take_block in H. destruct (split_block st c s). done.
  - by apply IH in H.
Qed.

(** X4. A call of [my_malloc] that returns [nullptr], for a zero size or
    for want of a large enough free block, leaves the allocator exactly
    as it was: no header and no link is written before the scan has
    found its block. *)
Theorem failed_malloc_changes_nothing
  (fuel : nat) (st st' : allocator) (s : Z) :
  my_malloc fuel st s = Some (st', None) → st' = st.
Proof.
  unfold my_malloc. destruct (s =? 0); [by intros [= <-] |].
  apply malloc_scan_null.
Qed.

Lemma failed_malloc_changes_nothing_witness :
  state_after_malloc 1 sample_whole 8 = sample_whole.
Proof.
  apply (failed_malloc_changes_nothing 1 sample_whole _ 8).
  vm_compute. reflexivity.
Defined.

Lemma is_valid_ptr_spec a : is_valid_ptr a = true ↔ 0 ≤ a < HEAP_SIZE.
Proof. unfold is_valid_ptr. rewrite andb_true_iff, Z.leb_le, Z.ltb_lt. done. Qed.

(** * First fit *)

Lemma first_fit_prefix st t l prev c p :
  first_fit st t l prev = Some (c, p) →
  ∃ l1 l2, l = l1 ++ c :: l2 ∧ t ≤ size (hdr st c) ∧
           ∀ a, a ∈ l1 → size (hdr st a) < t.
Proof.
  revert prev. induction l as [| a l IH]; intros prev Hff; simpl in Hff; [done |].
  destruct (Z.leb_spec t (size (hdr st a))) as [Hle | Hgt].
  - injection Hff as <- <-. exists [], l. split_and!; [done | done |].
    intros x Hx. by apply elem_of_nil in Hx.
  - apply IH in Hff as (l1 & l2 & -> & Hsz & Hsmall).
    exists (a :: l1), l2. split_and!; [done | done |].
    intros x Hx. apply elem_of_cons in Hx as [-> | Hx]; [done | by apply Hsmall].
Qed.

(** X6. [my_malloc] is first fit in the order of the free list.  When
    the free list is a proper list [fl], a non-zero request returns as
    soon as the scan may run through [fl]; the block behind the pointer
    it returns is the first entry of [fl] whose size reaches the total
    size of the request, every entry before it being too small; and it
    returns [nullptr] only when every entry is too small. *)
Theorem my_malloc_first_fit (st : allocator) (fl : list Z) (s : Z) (fuel : nat) :
  free_entries st fl → s ≠ 0 →
  ((length fl < fuel)%nat → ∃ st' r, my_malloc fuel st s = Some (st', r)) ∧
  ∀ st' r, my_malloc fuel st s = Some (st', r) →
    match r with
    | Some p =>
        ∃ l1 l2, fl = l1 ++ get_header p :: l2 ∧
                 total_size s ≤ size (hdr st (get_header p)) ∧
                 ∀ a, a ∈ l1 → size (hdr st a) < total_size s
    | None => ∀ a, a ∈ fl → size (hdr st a) < total_size s
    end.
Proof.
  intros Hfl Hs. unfold my_malloc. rewrite (proj2 (Z.eqb_neq s 0)) by exact Hs.
  destruct (malloc_scan_first_fit st s fl (free_list st) None fuel Hfl) as [H1 H2].
  split.
  - intros Hfuel. rewrite (H1 Hfuel).
    destruct (first_fit _ _ _ _) as [[c p] |]; [| by eexists _, _].
    destruct (take_block st s c p) as [st' r]. by eexists _, _.
  - intros st' r Hr. apply H2 in Hr.
    destruct (first_fit st (total_size s) fl None) as [[c p] |] eqn:Hff.
    + pose proof (take_block_pointer st s c p) as Hp. rewrite <- Hr in Hp.
      simpl in Hp. subst r. rewrite get_header_get_data.
      by apply first_fit_prefix in Hff.
    + injection Hr as _ ->. by eapply first_fit_None.
Qed.

Lemma my_malloc_first_fit_witness :
  ((length [0; 64] < 3)%nat →
   ∃ st' r, my_malloc 3 sample_hole 100 = Some (st', r)) ∧
  ∀ st' r, my_malloc 3 sample_hole 100 = Some (st', r) →
    match r with
    | Some p =>
        ∃ l1 l2, [0; 64] = l1 ++ get_header p :: l2 ∧
                 total_size 100 ≤ size (hdr sample_hole (get_header p)) ∧
                 ∀ a, a ∈ l1 → size (hdr sample_hole a) < total_size 100
    | None => ∀ a, a ∈ [0; 64] → size (hdr sample_hole a) < total_size 100
    end.
Proof.
  apply (my_malloc_first_fit sample_hole [0; 64] 100 3).
  - apply sample_hole_inv.
  - lia.
Defined.

(** * Taking an entry out of the free list *)

Lemma remove_scan_absent st c l :
  ∀ cur fuel,
  lseg st cur l None → c ∉ l → (length l < fuel)%nat →
  remove_scan fuel st c cur = Some None.
Proof.
  induction l as [| a l IH]; intros cur fuel Hl Hc Hfuel;
    (destruct fuel as [| fuel]; [simpl in Hfuel; lia |]); simpl in *.
  - by subst.
  - destruct Hl as (-> & Hl).
    rewrite decide_False.
    + apply IH; [done | set_solver | lia].
    + intros Hn. destruct l as [| z l]; simpl in Hl.
      * congruence.
      * destruct Hl as (Hz & _). rewrite Hz in Hn. injection Hn as ->.
        apply Hc. set_solver.
Qed.

Lemma remove_from_free_list_absent st fl block fuel :
  free_entries st fl → block ∉ fl → (length fl < fuel)%nat →
  remove_from_free_list fuel st block = Some st.
Proof.
  intros Hfl Hb Hfuel. unfold remove_from_free_list, free_entries in *.
  destruct (free_list st) as [first |]; [| done].
  destruct fl as [| x fl]; [done |].
  pose proof Hfl as ([= ->] & _).
  rewrite decide_False by (intros ->; apply Hb; by left).
  by rewrite (remove_scan_absent st block (x :: fl) (Some x) fuel Hfl Hb Hfuel).
Qed.

(** X7. [remove_from_free_list] on a block that is not an entry of the
    free list: the scan runs to the end of the list without finding a
    predecessor and the allocator is left exactly as it was. *)
Theorem remove_absent_block_changes_nothing
  (st : allocator) (fl : list Z) (block : Z) (fuel : nat) :
  free_entries st fl → block ∉ fl → (length fl < fuel)%nat →
  remove_from_free_list fuel st block = Some st.
Proof. apply remove_from_free_list_absent. Qed.

Lemma remove_absent_block_changes_nothing_witness :
  remove_from_free_list 3 sample_hole 32 = Some sample_hole.
Proof.
  apply (remove_absent_block_changes_nothing sample_hole [0; 64] 32 3).
  - apply sample_hole_inv.
  - set_solver.
  - simpl. lia.
Defined.

(** X8. [remove_from_free_list] on an entry of the free list of a
    well-formed heap, [l1] being the entries before it and [l2] the
    entries after it: the call returns once the scan may pass [l1], the
    free list is then [l1] followed by [l2], in the same order, the
    blocks are laid out as before, none has changed its size or its
    flag, and the entry taken out still carries its old link. *)
Theorem remove_present_block
  (st : allocator) (bs l1 l2 : list Z) (block : Z) (fuel : nat) :
  heap_inv st bs (l1 ++ block :: l2) → (length l1 < fuel)%nat →
  ∃ st', remove_from_free_list fuel st block = Some st' ∧
         free_entries st' (l1 ++ l2) ∧
         layout st' bs ∧
         (∀ x, x ∈ bs → size (hdr st' x) = size (hdr st x) ∧
                        is_free (hdr st' x) = is_free (hdr st x)) ∧
         next (hdr st' block) = next (hdr st block).
Proof.
  intros [Hlay Hfl Hnd _ _] Hfuel.
  destruct (remove_from_free_list_unlink st l1 block l2 fuel Hfl Hnd) as [H1 _].
  exists (unlink st l1 block). split_and!.
  - by apply H1.
  - by apply lseg_unlink.
  - apply (chain_ext st); [| done]. intros x _. by autorewrite with heap.
  - intros x _. by autorewrite with heap.
  - rewrite next_unlink. destruct (last l1) as [p |] eqn:Hlast; [| done].
    rewrite decide_False; [done |]. intros ->.
    apply last_Some in Hlast as (l1' & ->).
    apply NoDup_app in Hnd as (_ & Hd & _).
    apply (Hd block); [set_solver | by left].
Qed.

Lemma remove_present_block_witness :
  ∃ st', remove_from_free_list 2 sample_hole 64 = Some st' ∧
         free_entries st' ([0] ++ []) ∧
         layout st' [0; 32; 64] ∧
         (∀ x, x ∈ [0; 32; 64] →
               size (hdr st' x) = size (hdr sample_hole x) ∧
               is_free (hdr st' x) = is_free (hdr sample_hole x)) ∧
         next (hdr st' 64) = next (hdr sample_hole 64).
Proof.
  apply (remove_present_block sample_hole [0; 32; 64] [0] [] 64 2).
  - apply sample_hole_inv.
  - simpl. lia.
Defined.

(** * Counting blocks and bytes *)

Lemma max_blocks_eq : MAX_BLOCKS = 32768.
Proof. reflexivity. Qed.

Lemma enough_fuel_eq : Z.of_nat ENOUGH_FUEL = 65537.
Proof. unfold ENOUGH_FUEL. rewrite max_blocks_eq. lia. Qed.

Lemma chain_length st a l e :
  chain st a l e → a + 32 * Z.of_nat (length l) ≤ e.
Proof.
  revert a. induction l as [| x l IH]; intros a Hc; simpl in Hc.
  - subst. simpl. lia.
  - destruct Hc as (-> & Hmin & _ & Hc). rewrite min_block_size_eq in Hmin.
    apply IH in Hc. simpl length. lia.
Qed.

Lemma heap_inv_counts st bs fl :
  heap_inv st bs fl →
  (length fl ≤ length bs)%nat ∧ (0 < length bs)%nat ∧
  Z.of_nat (length bs) ≤ MAX_BLOCKS.
Proof.
  intros Hinv. pose proof Hinv as [Hlay _ _ _ _].
  pose proof (chain_length _ _ _ _ Hlay) as Hlen.
  rewrite max_blocks_eq. unfold HEAP_SIZE in Hlen. split_and!.
  - rewrite (Permutation_length (free_entries_perm _ _ _ Hinv)).
    unfold free_blocks. apply length_filter.
  - destruct bs; [by simpl in Hlay | simpl; lia].
  - lia.
Qed.

Lemma heap_inv_fuel st bs fl fuel :
  heap_inv st bs fl → (ENOUGH_FUEL ≤ fuel)%nat →
  (length bs + length fl < fuel)%nat.
Proof.
  intros Hinv Hfuel. pose proof (heap_inv_counts _ _ _ Hinv) as (? & ? & Hmax).
  pose proof enough_fuel_eq. rewrite max_blocks_eq in Hmax. lia.
Qed.

Lemma user_total_partition st l :
  user_total st l = user_total st (free_blocks st l) + user_total st (used_blocks st l) ∧
  length l = (length (free_blocks st l) + length (used_blocks st l))%nat.
Proof.
  unfold user_total, free_blocks, used_blocks.
  induction l as [| x l [IH1 IH2]]; [done |].
  rewrite !filter_cons. destruct (is_free (hdr st x)) eqn:Hf.
  - rewrite decide_True, decide_False by done. simpl. lia.
  - rewrite decide_False, decide_True by done. simpl. lia.
Qed.

Lemma span_user_total st l :
  span_total st l = user_total st l + sizeof_BlockHeader * Z.of_nat (length l).
Proof.
  unfold span_total, user_total. induction l as [| x l IH]; simpl foldr; [simpl; lia |].
  simpl length. lia.
Qed.

Lemma used_blocks_bounds st a l e x :
  chain st a l e → x ∈ used_blocks st l →
  x ∈ l ∧ is_free (hdr st x) = false ∧ 32 ≤ size (hdr st x).
Proof.
  intros Hc (Hu & Hx)%list_elem_of_filter.
  destruct (chain_bounds _ _ _ _ _ Hc Hx) as (_ & _ & ? & _). done.
Qed.

Lemma user_total_used_nonneg st a l e :
  chain st a l e → 0 ≤ user_total st (used_blocks st l).
Proof.
  intros Hc. apply user_total_nonneg. intros x Hx.
  destruct (used_blocks_bounds _ _ _ _ _ Hc Hx) as (_ & _ & ?).
  unfold sizeof_BlockHeader. lia.
Qed.

Lemma user_total_free_nonneg st a l e :
  chain st a l e → 0 ≤ user_total st (free_blocks st l).
Proof.
  intros Hc. apply user_total_nonneg. intros x (_ & Hx)%list_elem_of_filter.
  destruct (chain_bounds _ _ _ _ _ Hc Hx) as (_ & _ & ? & _).
  unfold sizeof_BlockHeader. lia.
Qed.

(** The bytes and the blocks of a layout add up to the heap. *)
Lemma layout_accounting st bs :
  layout st bs →
  user_total st (used_blocks st bs) + user_total st (free_blocks st bs) +
  sizeof_BlockHeader *
    (Z.of_nat (length (free_blocks st bs)) + Z.of_nat (length (used_blocks st bs)))
  = HEAP_SIZE.
Proof.
  intros Hlay. pose proof (chain_end_span _ _ _ _ Hlay) as Hspan.
  rewrite span_user_total in Hspan.
  destruct (user_total_partition st bs) as [Hu Hl]. lia.
Qed.

Lemma used_walk_total st l :
  ∀ a acc fuel,
  chain st a l HEAP_SIZE →
  0 ≤ acc → acc + user_total st (used_blocks st l) < SIZE_MODULUS →
  (length l < fuel)%nat →
  used_walk fuel st a acc = Some (acc + user_total st (used_blocks st l)).
Proof.
  induction l as [| x l IH]; intros a acc fuel Hc Hacc Hmax Hfuel;
    (destruct fuel as [| fuel]; [simpl in Hfuel; lia |]); simpl used_walk.
  - simpl in Hc. subst. rewrite Z.ltb_irrefl. unfold user_total. simpl. f_equal. lia.
  - destruct Hc as (-> & Hmin & _ & Hc). rewrite min_block_size_eq in Hmin.
    pose proof (chain_le _ _ _ _ Hc).
    rewrite (proj2 (Z.ltb_lt _ _)) by lia.
    pose proof (user_total_used_nonneg _ _ _ _ Hc) as Hrest.
    unfold used_blocks in *. rewrite filter_cons in *.
    destruct (is_free (hdr st a)) eqn:Hf; simpl negb; cbv iota.
    + rewrite decide_False in * by done. simpl in Hfuel.
      rewrite IH; try done; lia.
    + rewrite decide_True in * by done. unfold user_total in *. simpl in Hmax |- *.
      unfold sizeof_BlockHeader in *.
      rewrite wrap_add_r, wrap_small by lia.
      simpl in Hfuel. rewrite IH; try done; try lia. simpl. f_equal. lia.
Qed.

Lemma get_used_memory_layout st bs fuel :
  layout st bs → (length bs < fuel)%nat →
  get_used_memory fuel st = Some (user_total st (used_blocks st bs)).
Proof.
  intros Hlay Hfuel. unfold get_used_memory.
  pose proof (layout_accounting _ _ Hlay) as Hacc.
  pose proof (user_total_used_nonneg _ _ _ _ Hlay).
  pose proof (user_total_free_nonneg _ _ _ _ Hlay).
  rewrite (used_walk_total st bs); try done; try lia.
  unfold SIZE_MODULUS, HEAP_SIZE, sizeof_BlockHeader in *. lia.
Qed.

Lemma get_fragmentation_count_inv st bs fl fuel :
  heap_inv st bs fl → (length fl < fuel)%nat →
  get_fragmentation_count fuel st = Some (Z.of_nat (length (free_blocks st bs))).
Proof.
  intros Hinv Hfuel. pose proof Hinv as [_ Hent _ _ _].
  pose proof (heap_inv_counts _ _ _ Hinv) as (? & ? & Hmax).
  rewrite max_blocks_eq in Hmax.
  unfold get_fragmentation_count.
  rewrite (count_walk_total st fl); try done; try lia.
  - rewrite (Permutation_length (free_entries_perm _ _ _ Hinv)). f_equal.
  - unfold SIZE_MODULUS. lia.
Qed.

(** * Outstanding allocations and used blocks *)

Lemma live_used_perm st bs live :
  layout st bs → live_inv st bs live →
  get_header <$> live.*1 ≡ₚ used_blocks st bs.
Proof.
  intros Hlay [Hnd Hused Hall]. apply NoDup_Permutation.
  - apply NoDup_fmap_2_strong; [| done].
    intros x y _ _. unfold get_header. lia.
  - apply NoDup_filter. by eapply chain_NoDup.
  - intros x. unfold used_blocks. rewrite list_elem_of_filter. split.
    + intros (p & -> & ([q n] & -> & Hin)%list_elem_of_fmap)%list_elem_of_fmap.
      simpl. destruct (Hused _ _ Hin) as (? & ? & _). done.
    + intros [Hu Hx]. destruct (Hall x Hx Hu) as (n & Hin).
      apply list_elem_of_fmap. exists (get_data x).
      split; [by rewrite get_header_get_data |].
      apply list_elem_of_fmap. by exists (get_data x, n).
Qed.

Lemma live_bytes_user_total st (live : list (Z * Z)) :
  (∀ p n, (p, n) ∈ live →
     sizeof_BlockHeader ≤ size (hdr st (get_header p)) < SIZE_MODULUS) →
  live_bytes st live = user_total st (get_header <$> live.*1).
Proof.
  unfold live_bytes, user_total.
  induction live as [| [p n] live IH]; intros Hsz; [done |].
  simpl. rewrite IH by (intros q m Hq; apply (Hsz q m); by right).
  f_equal. unfold usable_bytes. apply wrap_small.
  pose proof (Hsz p n ltac:(left)). unfold sizeof_BlockHeader in *. lia.
Qed.

Lemma live_bytes_used st bs live :
  layout st bs → live_inv st bs live →
  live_bytes st live = user_total st (used_blocks st bs).
Proof.
  intros Hlay Hlive.
  rewrite <- (user_total_perm st _ _ (live_used_perm _ _ _ Hlay Hlive)).
  apply live_bytes_user_total. intros p n Hin.
  destruct (live_used _ _ _ Hlive _ _ Hin) as (Hb & _).
  destruct (chain_bounds _ _ _ _ _ Hlay Hb) as (? & ? & ? & _).
  unfold sizeof_BlockHeader, SIZE_MODULUS, HEAP_SIZE in *. lia.
Qed.

Lemma live_count st bs live :
  layout st bs → live_inv st bs live →
  length live = length (used_blocks st bs).
Proof.
  intros Hlay Hlive.
  rewrite <- (Permutation_length (live_used_perm _ _ _ Hlay Hlive)).
  by rewrite !length_fmap.
Qed.

Lemma get_used_memory_reach st live fuel :
  reach in_range st live → (ENOUGH_FUEL ≤ fuel)%nat →
  get_used_memory fuel st = Some (live_bytes st live).
Proof.
  intros Hreach Hfuel.
  destruct (reach_inv _ _ Hreach) as (bs & fl & Hinv & Hlive).
  pose proof (heap_inv_fuel _ _ _ _ Hinv Hfuel).
  rewrite (live_bytes_used st bs live); [| apply Hinv | done].
  apply get_used_memory_layout; [apply Hinv | lia].
Qed.

(** X9. In every state reached with requests of at most [MAX_REQUEST]
    bytes, [get_used_memory] returns, and what it returns is the sum of
    the usable bytes of the outstanding allocations: nothing else is
    counted as used and nothing outstanding is left out. *)
Theorem used_memory_is_live_bytes
  (st : allocator) (live : list (Z * Z)) (fuel : nat) :
  reach in_range st live → (ENOUGH_FUEL ≤ fuel)%nat →
  get_used_memory fuel st = Some (live_bytes st live).
Proof. apply get_used_memory_reach. Qed.

Lemma used_memory_is_live_bytes_witness :
  get_used_memory ENOUGH_FUEL sample_allocated =
  Some (live_bytes sample_allocated [(24, align_size 100)]).
Proof.
  apply (used_memory_is_live_bytes sample_allocated [(24, align_size 100)]).
  - apply reach_sample_allocated.
  - apply le_n.
Defined.

(** X10. The heap is fully accounted for.  In every state reached with
    requests of at most [MAX_REQUEST] bytes, the three counters return
    and the used bytes, the free bytes and one header for each free
    block and each outstanding allocation add up to [HEAP_SIZE]. *)
Theorem heap_accounting
  (st : allocator) (live : list (Z * Z)) (fuel : nat) :
  reach in_range st live → (ENOUGH_FUEL ≤ fuel)%nat →
  ∃ used free count,
    get_used_memory fuel st = Some used ∧
    get_free_memory fuel st = Some free ∧
    get_fragmentation_count fuel st = Some count ∧
    used + free + sizeof_BlockHeader * (count + Z.of_nat (length live))
    = HEAP_SIZE.
Proof.
  intros Hreach Hfuel.
  destruct (reach_inv _ _ Hreach) as (bs & fl & Hinv & Hlive).
  pose proof (heap_inv_fuel _ _ _ _ Hinv Hfuel).
  pose proof Hinv as [Hlay _ _ _ _].
  eexists _, _, _. split_and!.
  - apply (get_used_memory_layout st bs); [done | lia].
  - by apply (get_free_memory_inv st bs fl).
  - apply (get_fragmentation_count_inv st bs fl); [done | lia].
  - rewrite (live_count st bs live) by done. by apply layout_accounting.
Qed.

Lemma heap_accounting_witness :
  ∃ used free count,
    get_used_memory ENOUGH_FUEL sample_allocated = Some used ∧
    get_free_memory ENOUGH_FUEL sample_allocated = Some free ∧
    get_fragmentation_count ENOUGH_FUEL sample_allocated = Some count ∧
    used + free +
    sizeof_BlockHeader * (count + Z.of_nat (length [(24, align_size 100)]))
    = HEAP_SIZE.
Proof.
  apply (heap_accounting sample_allocated [(24, align_size 100)]).
  - apply reach_sample_allocated.
  - apply le_n.
Defined.

(** * Fragmentation *)

(** Free blocks never being neighbours, a layout has at most one free
    block more than it has used blocks. *)
Lemma alternating_count st l :
  ∀ a e,
  chain st a l e →
  (∀ x, x ∈ l → is_free (hdr st x) = true → x + size (hdr st x) < e →
        is_free (hdr st (x + size (hdr st x))) = false) →
  (length (free_blocks st l) ≤
   length (used_blocks st l) +
   match l with
   | x :: _ => if is_free (hdr st x) then 1 else 0
   | [] => 0
   end)%nat.
Proof.
  unfold free_blocks, used_blocks.
  induction l as [| x l IH]; intros a e Hc Hadj; [simpl; lia |].
  destruct Hc as (-> & Hmin & _ & Hc).
  assert (∀ y, y ∈ l → is_free (hdr st y) = true → y + size (hdr st y) < e →
               is_free (hdr st (y + size (hdr st y))) = false) as Hadj'
    by (intros y Hy; apply Hadj; by right).
  specialize (IH _ _ Hc Hadj').
  rewrite !filter_cons. destruct (is_free (hdr st a)) eqn:Hf.
  - rewrite decide_True, decide_False by done. simpl length.
    destruct l as [| y l]; [simpl in *; lia |].
    pose proof Hc as (-> & Hmin' & _ & Hc').
    apply chain_le in Hc'. rewrite min_block_size_eq in Hmin'.
    rewrite (Hadj a ltac:(left) Hf ltac:(lia)) in IH. lia.
  - rewrite decide_False, decide_True by done. simpl length.
    destruct l as [| y l]; [simpl in *; lia |].
    destruct (is_free (hdr st y)); lia.
Qed.

(** X11. In every state reached with requests of at most [MAX_REQUEST]
    bytes, [get_fragmentation_count] returns, and the number of free
    blocks it returns is at most one more than the number of outstanding
    allocations: two free blocks always have a used block between
    them. *)
Theorem fragmentation_bound
  (st : allocator) (live : list (Z * Z)) (fuel : nat) :
  reach in_range st live → (ENOUGH_FUEL ≤ fuel)%nat →
  ∃ count, get_fragmentation_count fuel st = Some count ∧
           0 ≤ count ≤ Z.of_nat (length live) + 1.
Proof.
  intros Hreach Hfuel.
  destruct (reach_inv _ _ Hreach) as (bs & fl & Hinv & Hlive).
  pose proof (heap_inv_fuel _ _ _ _ Hinv Hfuel).
  pose proof Hinv as [Hlay _ _ _ Hadj].
  eexists. split; [apply (get_fragmentation_count_inv st bs fl); [done | lia] |].
  rewrite (live_count st bs live) by done.
  pose proof (alternating_count st bs 0 HEAP_SIZE Hlay) as Hcount.
  assert (length (free_blocks st bs) ≤ length (used_blocks st bs) + 1)%nat; [| lia].
  etransitivity; [apply Hcount |].
  - intros x Hx Hf Hlt. by apply Hadj.
  - destruct bs as [| x ?]; [lia |]. destruct (is_free (hdr st x)); lia.
Qed.

Lemma fragmentation_bound_witness :
  ∃ count, get_fragmentation_count ENOUGH_FUEL sample_released = Some count ∧
           0 ≤ count ≤ Z.of_nat (length (@nil (Z * Z))) + 1.
Proof.
  apply (fragmentation_bound sample_released []).
  - apply reach_sample_released.
  - apply le_n.
Defined.

(** * Requests that cannot be served *)

Lemma first_fit_all_small st t l prev :
  (∀ a, a ∈ l → size (hdr st a) < t) → first_fit st t l prev = None.
Proof.
  revert prev. induction l as [| x l IH]; intros prev Hl; [done |]. simpl.
  pose proof (Hl x ltac:(left)).
  rewrite (proj2 (Z.leb_gt _ _)) by lia.
  apply IH. intros a Ha. apply Hl. by right.
Qed.

Lemma user_total_elem st l a :
  (∀ x, x ∈ l → sizeof_BlockHeader ≤ size (hdr st x)) → a ∈ l →
  size (hdr st a) - sizeof_BlockHeader ≤ user_total st l.
Proof.
  induction l as [| x l IH]; intros Hsz Ha; [by apply elem_of_nil in Ha |].
  assert (0 ≤ user_total st l) as Hrest
    by (apply user_total_nonneg; intros y Hy; apply Hsz; by right).
  pose proof (Hsz x ltac:(left)) as Hx.
  unfold user_total in *. simpl.
  apply elem_of_cons in Ha as [-> | Ha]; [lia |].
  specialize (IH ltac:(intros y Hy; apply Hsz; by right) Ha). lia.
Qed.

(** X12. In every state reached with requests of at most [MAX_REQUEST]
    bytes, [get_free_memory] returns at most [HEAP_SIZE] less one
    header, and a request of at most [MAX_REQUEST] bytes for more bytes
    than it returns, in particular any such request above
    [HEAP_SIZE - sizeof(BlockHeader)], makes [my_malloc] return
    [nullptr] and leaves the state as it was. *)
Theorem request_beyond_free_memory_fails
  (st : allocator) (live : list (Z * Z)) (fuel : nat) :
  reach in_range st live → (ENOUGH_FUEL ≤ fuel)%nat →
  ∃ free, get_free_memory fuel st = Some free ∧
          0 ≤ free ≤ HEAP_SIZE - sizeof_BlockHeader ∧
          ∀ s, in_range s → free < s → my_malloc fuel st s = Some (st, None).
Proof.
  intros Hreach Hfuel.
  destruct (reach_inv _ _ Hreach) as (bs & fl & Hinv & Hlive).
  pose proof (heap_inv_fuel _ _ _ _ Hinv Hfuel) as Hf.
  pose proof Hinv as [Hlay Hent _ Hfree _].
  pose proof (heap_inv_counts _ _ _ Hinv) as (_ & Hpos & _).
  pose proof (layout_accounting _ _ Hlay) as Hacc.
  pose proof (user_total_used_nonneg _ _ _ _ Hlay) as Hu.
  pose proof (user_total_free_nonneg _ _ _ _ Hlay) as Hfr.
  destruct (user_total_partition st bs) as [_ Hlen].
  exists (user_total st (free_blocks st bs)). split_and!.
  - by apply (get_free_memory_inv st bs fl).
  - done.
  - unfold sizeof_BlockHeader in *. lia.
  - intros s Hs Hlt.
    destruct (Z.eq_dec s 0) as [-> | Hs0]; [lia |].
    unfold my_malloc. rewrite (proj2 (Z.eqb_neq s 0)) by done.
    destruct (malloc_scan_first_fit st s fl (free_list st) None fuel Hent) as [H1 _].
    rewrite H1 by lia. rewrite first_fit_all_small; [done |].
    intros a Ha.
    rewrite <- (user_total_perm st _ _ (free_entries_perm _ _ _ Hinv)) in Hlt.
    assert (size (hdr st a) - sizeof_BlockHeader ≤ user_total st fl) as Hle.
    { apply user_total_elem; [| done]. intros x (Hx & _)%Hfree.
      destruct (chain_bounds _ _ _ _ _ Hlay Hx) as (_ & _ & ? & _).
      unfold sizeof_BlockHeader. lia. }
    rewrite (total_size_in_range s Hs).
    pose proof (align_size_in_range s Hs) as [? _]. lia.
Qed.

Lemma request_beyond_free_memory_fails_witness :
  ∃ free, get_free_memory ENOUGH_FUEL sample_allocated = Some free ∧
          0 ≤ free ≤ HEAP_SIZE - sizeof_BlockHeader ∧
          ∀ s, in_range s → free < s →
               my_malloc ENOUGH_FUEL sample_allocated s =
               Some (sample_allocated, None).
Proof.
  apply (request_beyond_free_memory_fails sample_allocated [(24, align_size 100)]).
  - apply reach_sample_allocated.
  - apply le_n.
Defined.

(** * What a call leaves alone *)

Lemma remove_from_free_list_size fuel st c st' x :
  remove_from_free_list fuel st c = Some st' →
  size (hdr st' x) = size (hdr st x).
Proof.
  unfold remove_from_free_list. destruct (free_list st) as [first |]; [| by intros [= <-]].
  case_decide; [by intros [= <-] |].
  destruct (remove_scan _ _ _ _) as [[cur |] |]; simpl; [| by intros [= <-] | done].
  intros [= <-]. by autorewrite with heap.
Qed.

Lemma coalesce_forward_frame fuel st b st2 :
  coalesce_forward fuel st b = Some st2 →
  (∀ x, x ≠ b → size (hdr st2 x) = size (hdr st x)) ∧
  (∀ x, is_free (hdr st2 x) = is_free (hdr st x)).
Proof.
  unfold coalesce_forward. intros H.
  destruct (_ <? _); [| by injection H as <-].
  destruct (is_free (hdr st (b + size (hdr st b)))); [| by injection H as <-].
  destruct (remove_from_free_list _ _ _) as [st1 |] eqn:Hrem; [| done].
  simpl in H. injection H as <-. split.
  - intros x Hx. autorewrite with heap. rewrite decide_False by done.
    by eapply remove_from_free_list_size.
  - intros x. autorewrite with heap. by eapply remove_from_free_list_is_free.
Qed.

Lemma coalesce_scan_found st b :
  ∀ fuel a pb,
  coalesce_scan fuel st b a = Some (Some pb) →
  is_free (hdr st pb) = true ∧ pb + size (hdr st pb) = b.
Proof.
  induction fuel as [| fuel IH]; intros a pb H; [done |]. simpl in H.
  destruct (a <? b); [| done].
  destruct (Z.eqb_spec (a + size (hdr st a)) b) as [Heq | Hne]; simpl in H.
  - destruct (is_free (hdr st a)) eqn:Hf; simpl in H.
    + by injection H as <-.
    + destruct (_ <=? _); [done | by apply IH in H].
  - destruct (_ <=? _); [done | by apply IH in H].
Qed.

(** The size and the flag of a block whose flag says used are out of
    reach of the release of another block. *)
Lemma my_free_frame fuel st p st' e x :
  my_free fuel st p = Some (st', e) →
  p ≠ Some (get_data x) → is_free (hdr st x) = false →
  size (hdr st' x) = size (hdr st x) ∧ is_free (hdr st' x) = false.
Proof.
  intros H Hp Hx. destruct p as [p |]; [| by injection H as <- _].
  assert (x ≠ get_header p) as Hne.
  { intros ->. apply Hp. f_equal. unfold get_data, get_header. lia. }
  destruct (is_valid_ptr (get_header p)) eqn:Hv;
    [| unfold my_free in H; rewrite Hv in H; by injection H as <- _].
  destruct (is_free (hdr st (get_header p))) eqn:Hf;
    [unfold my_free in H; rewrite Hv, Hf in H; by injection H as <- _ |].
  rewrite my_free_accepted in H by done. cbv zeta in H.
  destruct (coalesce_forward _ _ _) as [st2 |] eqn:Hfw; [| done].
  apply coalesce_forward_frame in Hfw as [Hsz2 Hfr2]. simpl in H.
  assert (size (hdr st2 x) = size (hdr st x) ∧ is_free (hdr st2 x) = false)
    as [Hs Hu].
  { rewrite Hsz2, Hfr2 by done. autorewrite with heap.
    rewrite decide_False by done. done. }
  destruct (coalesce_scan _ _ _ _) as [[pb |] |] eqn:Hscan; [| | done];
    simpl in H; injection H as <- _.
  - apply coalesce_scan_found in Hscan as [Hpb _].
    autorewrite with heap. rewrite decide_False by congruence. done.
  - by autorewrite with heap.
Qed.

Lemma take_block_frame st s c prev x :
  x ≠ c →
  size (hdr st c) < wrap (total_size s + get_min_block_size) ∨
  x ≠ c + total_size s →
  size (hdr (take_block st s c prev).1 x) = size (hdr st x) ∧
  is_free (hdr (take_block st s c prev).1 x) = is_free (hdr st x).
Proof.
  intros Hc Hnb. unfold take_block, split_block. fold (total_size s).
  destruct (Z.ltb_spec (size (hdr st c)) (wrap (total_size s + get_min_block_size)))
    as [Hlt | Hge].
  - destruct (decide _); [| destruct prev]; simpl; autorewrite with heap;
      rewrite ?decide_False by congruence; done.
  - destruct Hnb as [? | Hnb]; [lia |].
    destruct (decide _); [| destruct prev]; simpl; autorewrite with heap;
      rewrite ?decide_False by congruence; done.
Qed.

Lemma take_block_shape st s c prev :
  total_size s ≠ 0 →
  let st1 := (take_block st s c prev).1 in
  let t := total_size s in
  is_free (hdr st1 c) = false ∧
  if size (hdr st c) <? wrap (t + get_min_block_size)
  then size (hdr st1 c) = size (hdr st c)
  else size (hdr st1 c) = t ∧
       size (hdr st1 (c + t)) = wrap (size (hdr st c) - t) ∧
       is_free (hdr st1 (c + t)) = true.
Proof.
  intros Ht. unfold take_block, split_block. fold (total_size s).
  destruct (Z.ltb_spec (size (hdr st c)) (wrap (total_size s + get_min_block_size)))
    as [Hlt | Hge]; cbv zeta.
  - destruct (decide _); [| destruct prev]; simpl; autorewrite with heap;
      rewrite ?decide_True by done; done.
  - assert (c + total_size s ≠ c) by lia. assert (c ≠ c + total_size s) by lia.
    destruct (decide _); [| destruct prev]; simpl; autorewrite with heap;
      repeat case_decide; done.
Qed.

(** The block [my_malloc] takes on a well-formed heap. *)
Lemma my_malloc_block st bs fl s fuel st1 p :
  heap_inv st bs fl → in_range s →
  my_malloc fuel st s = Some (st1, Some p) →
  ∃ c prev, p = get_data c ∧ c ∈ fl ∧ 0 < s ∧
            sizeof_BlockHeader < total_size s ≤ size (hdr st c) ∧
            wrap (total_size s + get_min_block_size)
            = total_size s + get_min_block_size ∧
            st1 = (take_block st s c prev).1.
Proof.
  intros Hinv Hs Hm. pose proof Hinv as [Hlay Hent _ Hfree _].
  unfold my_malloc in Hm.
  destruct (Z.eqb_spec s 0) as [-> | Hs0]; [done |].
  destruct (malloc_scan_first_fit st s fl (free_list st) None fuel Hent) as [_ H2].
  apply H2 in Hm.
  destruct (first_fit st (total_size s) fl None) as [[c prev] |] eqn:Hff; [| done].
  apply first_fit_Some in Hff as (l1 & l2 & -> & Hle & _).
  pose proof (take_block_pointer st s c prev) as Hp. rewrite <- Hm in Hp.
  simpl in Hp. injection Hp as ->.
  assert (c ∈ l1 ++ c :: l2) as Hc by set_solver.
  pose proof (proj1 (Hfree c) Hc) as [Hcb _].
  destruct (chain_bounds _ _ _ _ _ Hlay Hcb) as (? & ? & ? & _).
  pose proof (total_size_in_range s Hs) as Ht.
  pose proof (align_size_in_range s Hs) as [Hal _].
  unfold in_range in Hs.
  exists c, prev. split_and!; try done; try lia.
  - rewrite min_block_size_eq. apply wrap_small.
    unfold SIZE_MODULUS, HEAP_SIZE, sizeof_BlockHeader in *. lia.
  - by rewrite <- Hm.
Qed.

Lemma my_malloc_frame st bs fl s fuel st' r x :
  heap_inv st bs fl → in_range s →
  my_malloc fuel st s = Some (st', r) →
  x ∈ bs → is_free (hdr st x) = false →
  size (hdr st' x) = size (hdr st x) ∧ is_free (hdr st' x) = false.
Proof.
  intros Hinv Hs Hm Hx Hu. pose proof Hinv as [Hlay _ _ Hfree _].
  destruct r as [p |].
  - destruct (my_malloc_block _ _ _ _ _ _ _ Hinv Hs Hm)
      as (c & prev & -> & Hc & _ & [Ht Hle] & Hw & ->).
    apply Hfree in Hc as [Hcb Hcf].
    rewrite <- Hu. apply take_block_frame; [congruence |].
    rewrite Hw, min_block_size_eq.
    destruct (Z.lt_ge_cases (size (hdr st c)) (total_size s + 32)); [by left | right].
    intros ->. apply (chain_inside _ _ _ _ c (c + total_size s) Hlay Hcb); [| done].
    unfold sizeof_BlockHeader in *. lia.
  - unfold my_malloc in Hm. destruct (s =? 0); [by injection Hm as <- |].
    apply malloc_scan_null in Hm as ->. done.
Qed.

(** X13. The block of an outstanding allocation is out of reach of the
    calls made for others.  In a state reached with requests of at most
    [MAX_REQUEST] bytes, no such [my_malloc] and no [my_free] of
    [nullptr] or of another outstanding pointer changes the size of the
    block behind an outstanding pointer or clears its used flag: the
    pointer keeps addressing the same number of bytes. *)
Theorem outstanding_blocks_untouched
  (st : allocator) (live : list (Z * Z)) (q m : Z) :
  reach in_range st live → (q, m) ∈ live →
  (∀ fuel s st' r, in_range s → my_malloc fuel st s = Some (st', r) →
     usable_bytes st' q = usable_bytes st q ∧
     is_free (hdr st' (get_header q)) = false) ∧
  (∀ fuel p st' e,
     p = None ∨ (∃ p' k, p = Some p' ∧ (p', k) ∈ live ∧ p' ≠ q) →
     my_free fuel st p = Some (st', e) →
     usable_bytes st' q = usable_bytes st q ∧
     is_free (hdr st' (get_header q)) = false).
Proof.
  intros Hreach Hq.
  destruct (reach_inv _ _ Hreach) as (bs & fl & Hinv & Hlive).
  destruct (live_used _ _ _ Hlive _ _ Hq) as (Hb & Hu & _).
  unfold usable_bytes. split.
  - intros fuel s st' r Hs Hm.
    destruct (my_malloc_frame _ _ _ _ _ _ _ _ Hinv Hs Hm Hb Hu) as [-> ->]. done.
  - intros fuel p st' e Hp Hf.
    destruct (my_free_frame _ _ _ _ _ (get_header q) Hf) as [-> ->]; [| done | done].
    intros ->. destruct Hp as [[=] | (p' & k & [= <-] & _ & Hne)].
    apply Hne. unfold get_data, get_header. lia.
Qed.

Lemma outstanding_blocks_untouched_witness :
  (∀ fuel s st' r, in_range s →
     my_malloc fuel sample_allocated s = Some (st', r) →
     usable_bytes st' 24 = usable_bytes sample_allocated 24 ∧
     is_free (hdr st' (get_header 24)) = false) ∧
  (∀ fuel p st' e,
     p = None ∨
     (∃ p' k, p = Some p' ∧ (p', k) ∈ [(24, align_size 100)] ∧ p' ≠ 24) →
     my_free fuel sample_allocated p = Some (st', e) →
     usable_bytes st' 24 = usable_bytes sample_allocated 24 ∧
     is_free (hdr st' (get_header 24)) = false).
Proof.
  apply (outstanding_blocks_untouched sample_allocated
           [(24, align_size 100)] 24 (align_size 100)).
  - apply reach_sample_allocated.
  - by left.
Defined.

(** * Released memory is available again *)

Lemma align_size_le s m :
  0 ≤ s ≤ m → m mod 8 = 0 → m ≤ SIZE_MODULUS - 8 → align_size s ≤ m.
Proof.
  unfold SIZE_MODULUS. intros Hs Hmod Hm.
  rewrite align_size_eq, wrap_small by (unfold SIZE_MODULUS; lia).
  pose proof (Z.div_mod (s + 7) 8 ltac:(lia)) as Hdm.
  pose proof (Z.mod_pos_bound (s + 7) 8 ltac:(lia)) as Hb.
  pose proof (Z.div_mod m 8 ltac:(lia)) as Hdm'. rewrite Hmod in Hdm'.
  clear Hm. lia.
Qed.

Lemma first_fit_exists st t l prev a :
  a ∈ l → t ≤ size (hdr st a) → is_Some (first_fit st t l prev).
Proof.
  revert prev. induction l as [| x l IH]; intros prev Ha Hle;
    [by apply elem_of_nil in Ha |]. simpl.
  destruct (Z.leb_spec t (size (hdr st x))); [done |].
  apply elem_of_cons in Ha as [-> | Ha]; [lia | by apply IH].
Qed.

Lemma span_total_nonneg st a l e : chain st a l e → 0 ≤ span_total st l.
Proof. intros Hc. by apply chain_span_aligned in Hc as [? _]. Qed.

(** X14. What has been released can be had again.  After the release of
    an outstanding pointer, in a state reached with requests of at most
    [MAX_REQUEST] bytes, a request for no more bytes than the released
    block held does not fail: [my_malloc] returns a non-null pointer. *)
Theorem released_memory_can_be_reallocated
  (st st1 : allocator) (live : list (Z * Z)) (p n : Z) (fuel : nat)
  (e : option free_error) :
  reach in_range st live → (p, n) ∈ live →
  my_free fuel st (Some p) = Some (st1, e) →
  ∀ s fuel', 0 < s ≤ usable_bytes st p → (ENOUGH_FUEL ≤ fuel')%nat →
    ∃ st2 q, my_malloc fuel' st1 s = Some (st2, Some q).
Proof.
  intros Hreach Hp Hfree s fuel' Hs Hfuel.
  destruct (reach_inv _ _ Hreach) as (bs & fl & Hinv & Hlive).
  destruct (live_used _ _ _ Hlive _ _ Hp) as (Hb & Hu & _).
  pose proof Hinv as [Hlay _ _ _ _].
  destruct (chain_bounds _ _ _ _ _ Hlay Hb) as (Hb0 & HbH & Hbmin & Hbal).
  destruct (my_free_inv st bs fl live p n fuel Hinv Hlive Hp)
    as (st' & B1 & B2 & -> & _ & Hdet & (fl' & Hinv') & _ & Hmf & Hmsz).
  apply Hdet in Hfree. injection Hfree as -> ->.
  set (b := get_header p) in *.
  set (pre := pred_free st B1) in *. set (post := succ_free st B2) in *.
  set (mb := hd b pre) in *.
  pose proof Hinv' as [Hlay' Hent' _ Hfree' _].
  assert (mb ∈ fl') as Hmb by (apply Hfree'; split; [set_solver | done]).
  (* the merged block is at least as large as the released one *)
  assert (size (hdr st b) ≤ size (hdr st' mb)) as Hsize.
  { rewrite Hmsz, span_total_app. simpl.
    apply chain_mid in Hlay as (HB1 & _ & _ & HB2).
    assert (0 ≤ span_total st pre).
    { subst pre. destruct (pred_free_cases st B1) as [(-> & _) | (B0 & a & -> & -> & _)].
      - unfold span_total. simpl. lia.
      - apply chain_app in HB1 as (m & _ & Ha). by eapply span_total_nonneg. }
    assert (0 ≤ span_total st post).
    { subst post. destruct (succ_free_cases st B2) as [(-> & _) | (nx & B3 & -> & -> & _)].
      - unfold span_total. simpl. lia.
      - destruct HB2 as (-> & ? & _). unfold span_total. simpl.
        rewrite min_block_size_eq in *. lia. }
    lia. }
  assert (usable_bytes st p = size (hdr st b) - sizeof_BlockHeader) as Hus.
  { unfold usable_bytes. fold b. apply wrap_small.
    unfold sizeof_BlockHeader, SIZE_MODULUS, HEAP_SIZE in *. lia. }
  rewrite Hus in Hs.
  assert (in_range s) as Hrange
    by (unfold in_range, MAX_REQUEST, SIZE_MODULUS, sizeof_BlockHeader, HEAP_SIZE in *; lia).
  assert (total_size s ≤ size (hdr st' mb)) as Hfit.
  { rewrite (total_size_in_range s Hrange).
    assert (align_size s ≤ size (hdr st b) - sizeof_BlockHeader); [| lia].
    apply align_size_le; [lia | |].
    - unfold sizeof_BlockHeader. rewrite Zminus_mod, Hbal. reflexivity.
    - unfold sizeof_BlockHeader, SIZE_MODULUS, HEAP_SIZE in *. lia. }
  pose proof (heap_inv_fuel _ _ _ _ Hinv' Hfuel) as Hlen.
  unfold my_malloc. rewrite (proj2 (Z.eqb_neq s 0)) by lia.
  destruct (malloc_scan_first_fit st' s fl' (free_list st') None fuel' Hent') as [H1 _].
  rewrite H1 by lia.
  destruct (first_fit_exists st' (total_size s) fl' None mb Hmb Hfit) as [[c prev] ->].
  pose proof (take_block_pointer st' s c prev) as Hptr.
  destruct (take_block st' s c prev) as [st2 r]. simpl in Hptr. subst r.
  by eexists _, _.
Qed.

Lemma released_memory_can_be_reallocated_witness :
  ∃ st2 q, my_malloc ENOUGH_FUEL sample_released 100 = Some (st2, Some q).
Proof.
  apply (released_memory_can_be_reallocated sample_allocated sample_released
           [(24, align_size 100)] 24 (align_size 100) 2 None).
  - apply reach_sample_allocated.
  - by left.
  - vm_compute. reflexivity.
  - vm_compute. split; [reflexivity | discriminate].
  - apply le_n.
Defined.

(** * Allocating and releasing at once *)

(** A state has one layout. *)
Lemma chain_fun st l :
  ∀ l' a e, chain st a l e → chain st a l' e → l = l'.
Proof.
  induction l as [| x l IH]; intros l' a e Hc Hc'.
  - simpl in Hc. subst e. destruct l' as [| y l']; [done |].
    destruct Hc' as (_ & Hmin & _ & Hc'). apply chain_le in Hc'.
    rewrite min_block_size_eq in Hmin. lia.
  - destruct Hc as (-> & Hmin & _ & Hc). destruct l' as [| y l'].
    + simpl in Hc'. subst e. apply chain_le in Hc.
      rewrite min_block_size_eq in Hmin. lia.
    + destruct Hc' as (-> & _ & _ & Hc'). f_equal. by eapply IH.
Qed.

Lemma free_blocks_ext st st' l :
  (∀ x, x ∈ l → is_free (hdr st' x) = is_free (hdr st x)) →
  free_blocks st' l = free_blocks st l ∧ used_blocks st' l = used_blocks st l.
Proof.
  unfold free_blocks, used_blocks.
  induction l as [| x l IH]; intros Hl; [done |].
  rewrite !filter_cons, (Hl x ltac:(left)).
  destruct IH as [-> ->]; [intros y Hy; apply Hl; by right |]. done.
Qed.

Lemma user_total_ext st st' l :
  (∀ x, x ∈ l → size (hdr st' x) = size (hdr st x)) →
  user_total st' l = user_total st l.
Proof.
  unfold user_total. induction l as [| x l IH]; intros Hl; [done |].
  simpl. rewrite (Hl x ltac:(left)), IH; [done |].
  intros y Hy. apply Hl. by right.
Qed.

(** The layout after [my_malloc] and the release of its result: every
    block has the size and the flag it had. *)
Lemma round_trip_layout st bs fl s fuel fuel' st1 st2 p e :
  heap_inv st bs fl → in_range s →
  my_malloc fuel st s = Some (st1, Some p) →
  my_free fuel' st1 (Some p) = Some (st2, e) →
  e = None ∧
  ∀ x, x ∈ bs → size (hdr st2 x) = size (hdr st x) ∧
                is_free (hdr st2 x) = is_free (hdr st x).
Proof.
  intros Hinv Hs Hm Hf. pose proof Hinv as [Hlay _ _ Hfree Hadj].
  destruct (my_malloc_block _ _ _ _ _ _ _ Hinv Hs Hm)
    as (c & prev & -> & Hc & Hs0 & [Ht Hle] & Hw & ->).
  apply Hfree in Hc as [Hcb Hcf].
  destruct (list_elem_of_split _ _ Hcb) as (B1 & B2 & ->).
  pose proof Hlay as Hlay0.
  apply chain_mid in Hlay as (HB1 & Hcmin & Hcal & HB2).
  destruct (chain_bounds _ _ _ _ _ Hlay0 Hcb) as (Hc0 & HcH & _ & _).
  set (bs := B1 ++ c :: B2) in *.
  set (st1 := (take_block st s c prev).1) in *.
  rewrite min_block_size_eq in Hw.
  assert (total_size s ≠ 0) as Ht0 by (unfold sizeof_BlockHeader in *; lia).
  destruct (take_block_shape st s c prev Ht0) as [Hfl1 Hshape].
  fold st1 in Hfl1, Hshape. cbv zeta in Hshape.
  rewrite min_block_size_eq, Hw in Hshape.
  assert (∀ x, x ∈ bs → x ≠ c →
               size (hdr st1 x) = size (hdr st x) ∧
               is_free (hdr st1 x) = is_free (hdr st x)) as Hframe.
  { intros x Hx Hxc. apply take_block_frame; [done |].
    rewrite min_block_size_eq, Hw.
    destruct (Z.lt_ge_cases (size (hdr st c)) (total_size s + 32)); [by left | right].
    intros ->. apply (chain_inside _ _ _ _ c (c + total_size s) Hlay0 Hcb); [| done].
    unfold sizeof_BlockHeader in *. lia. }
  (* the release is accepted *)
  rewrite my_free_accepted in Hf; rewrite get_header_get_data in *; [| | done].
  2: { apply is_valid_ptr_spec. lia. }
  cbv zeta in Hf.
  set (st1' := set_next (set_is_free st1 c true) c None) in *.
  assert (∀ x, size (hdr st1' x) = size (hdr st1 x)) as Hsz1'
    by (intros x; subst st1'; by autorewrite with heap).
  assert (∀ x, is_free (hdr st1' x) =
               if decide (c = x) then true else is_free (hdr st1 x)) as Hfr1'
    by (intros x; subst st1'; by autorewrite with heap).
  destruct (coalesce_forward fuel' st1' c) as [st2' |] eqn:Hfw; [| done].
  simpl in Hf.
  destruct (coalesce_forward_frame _ _ _ _ Hfw) as [Hsz2' Hfr2'].
  (* the forward merge gives the block its old size back *)
  assert (size (hdr st2' c) = size (hdr st c)) as Hszc.
  { unfold coalesce_forward in Hfw. rewrite Hsz1' in Hfw.
    destruct (Z.ltb_spec (size (hdr st c)) (total_size s + 32)) as [Hns | Hsp].
    - (* the block was handed over whole *)
      rewrite Hshape in Hfw.
      destruct (Z.ltb_spec (c + size (hdr st c)) HEAP_SIZE) as [Hlt | Hge].
      + assert (c + size (hdr st c) ∈ bs) as Hy
          by (destruct (chain_succ _ _ _ _ _ Hlay0 Hcb); [lia | done]).
        assert (c + size (hdr st c) ≠ c) as Hyc by lia.
        rewrite Hfr1', decide_False in Hfw by lia.
        rewrite (proj2 (Hframe _ Hy Hyc)), (Hadj c Hcb Hcf Hlt) in Hfw.
        injection Hfw as <-. by rewrite Hsz1', Hshape.
      + injection Hfw as <-. by rewrite Hsz1', Hshape.
    - (* the block was split: the remainder is merged back *)
      destruct Hshape as (Hc1 & Hnb1 & Hnbf).
      rewrite Hc1 in Hfw.
      rewrite (proj2 (Z.ltb_lt (c + total_size s) HEAP_SIZE)) in Hfw by lia.
      rewrite Hfr1', decide_False, Hnbf in Hfw by lia.
      destruct (remove_from_free_list _ _ _) as [r |] eqn:Hrem; [| done].
      simpl in Hfw. injection Hfw as <-. autorewrite with heap.
      rewrite decide_True by done.
      rewrite !(remove_from_free_list_size _ _ _ _ _ Hrem), !Hsz1', Hc1, Hnb1.
      rewrite wrap_add_r.
      replace (total_size s + (size (hdr st c) - total_size s))
        with (size (hdr st c)) by lia.
      apply wrap_small. unfold SIZE_MODULUS, HEAP_SIZE in *. lia. }
  assert (∀ x, x ∈ bs → size (hdr st2' x) = size (hdr st x)) as Hsize2.
  { intros x Hx. destruct (decide (x = c)) as [-> | Hxc]; [done |].
    rewrite Hsz2', Hsz1' by done. by apply Hframe. }
  assert (∀ x, x ∈ bs → is_free (hdr st2' x) = is_free (hdr st x)) as Hflag2.
  { intros x Hx. rewrite Hfr2', Hfr1'. case_decide as Hxc; [by subst |].
    apply Hframe; [done | congruence]. }
  (* the block before is in use: no merge into it *)
  assert (chain st2' 0 B1 c) as HB1'.
  { apply (chain_ext st); [| done]. intros x Hx. apply Hsize2. set_solver. }
  destruct (coalesce_scan_prev st2' c B1 0 fuel' HB1') as [_ Hscan].
  destruct (coalesce_scan fuel' st2' c 0) as [found |] eqn:Hrun; [| done].
  rewrite (Hscan found eq_refl) in Hf.
  assert (match last B1 with
          | Some y => if is_free (hdr st2' y) then Some y else None
          | None => None
          end = None) as Hnone.
  { destruct (last B1) as [y |] eqn:Hlast; [| done].
    apply last_Some in Hlast as (B0 & ->).
    assert (y ∈ bs) as Hy by set_solver.
    rewrite (Hflag2 y Hy).
    destruct (is_free (hdr st y)) eqn:Hyf; [| done]. exfalso.
    apply chain_app in HB1 as (m & _ & (-> & _ & _ & Hend)). simpl in Hend.
    pose proof (Hadj m Hy Hyf ltac:(lia)) as Hcu. rewrite Hend in Hcu. congruence. }
  rewrite Hnone in Hf. simpl in Hf. injection Hf as <- <-.
  split; [done |]. intros x Hx. autorewrite with heap.
  by rewrite Hsize2, Hflag2.
Qed.

(** X15. Allocating and releasing at once gives the heap back as it
    was.  In a state reached with requests of at most [MAX_REQUEST]
    bytes, after a successful [my_malloc] of at most [MAX_REQUEST] bytes
    and the [my_free] of its result the walk through the heap meets the same blocks, each with
    the size and the flag it had before the two calls, and the used
    memory, the free memory and the fragmentation count are what they
    were: the remainder split off is merged back and nothing else is
    touched. *)
Theorem malloc_free_round_trip
  (st st1 st2 : allocator) (live : list (Z * Z)) (s p : Z) (fuel fuel' : nat)
  (e : option free_error) :
  reach in_range st live → in_range s →
  my_malloc fuel st s = Some (st1, Some p) →
  my_free fuel' st1 (Some p) = Some (st2, e) →
  e = None ∧
  (∀ x, is_block st2 x ↔ is_block st x) ∧
  (∀ x, is_block st x →
        size (hdr st2 x) = size (hdr st x) ∧
        is_free (hdr st2 x) = is_free (hdr st x)) ∧
  ∀ n, (ENOUGH_FUEL ≤ n)%nat →
    get_used_memory n st2 = get_used_memory n st ∧
    get_free_memory n st2 = get_free_memory n st ∧
    get_fragmentation_count n st2 = get_fragmentation_count n st.
Proof.
  intros Hreach Hs Hm Hf.
  destruct (reach_inv _ _ Hreach) as (bs & fl & Hinv & Hlive).
  destruct (round_trip_layout _ _ _ _ _ _ _ _ _ _ Hinv Hs Hm Hf) as [-> Hsame].
  pose proof Hinv as [Hlay _ _ _ _].
  assert (layout st2 bs) as Hlay2.
  { apply (chain_ext st); [| done]. intros x Hx. by apply Hsame. }
  assert (reach in_range st2 (forget p ((p, align_size s) :: live))) as Hreach2.
  { eapply reach_free; [| | exact Hf]; [by eapply reach_malloc | by left]. }
  destruct (reach_inv _ _ Hreach2) as (bs2 & fl2 & Hinv2 & _).
  assert (bs2 = bs) as -> by (eapply chain_fun; [apply Hinv2 | exact Hlay2]).
  destruct (free_blocks_ext st st2 bs) as [Hfb Hub];
    [intros x Hx; by apply Hsame |].
  split; [done |]. split_and!.
  - intros x. by rewrite (is_block_chain st2 bs), (is_block_chain st bs).
  - intros x Hx. apply Hsame. by apply (is_block_chain st bs).
  - intros n Hn.
    pose proof (heap_inv_fuel _ _ _ _ Hinv Hn).
    pose proof (heap_inv_fuel _ _ _ _ Hinv2 Hn).
    split_and!.
    + rewrite (get_used_memory_layout st2 bs), (get_used_memory_layout st bs)
        by (done || lia).
      rewrite Hub. f_equal. apply user_total_ext.
      intros x (_ & Hx)%list_elem_of_filter. by apply Hsame.
    + rewrite (get_free_memory_inv st2 bs fl2 n Hinv2 ltac:(lia)).
      rewrite (get_free_memory_inv st bs fl n Hinv ltac:(lia)).
      rewrite Hfb. f_equal. apply user_total_ext.
      intros x (_ & Hx)%list_elem_of_filter. by apply Hsame.
    + rewrite (get_fragmentation_count_inv st2 bs fl2), (get_fragmentation_count_inv st bs fl)
        by (done || lia).
      by rewrite Hfb.
Qed.

Lemma malloc_free_round_trip_witness :
  @None free_error = None ∧
  (∀ x, is_block sample_released x ↔ is_block init_allocator x) ∧
  (∀ x, is_block init_allocator x →
        size (hdr sample_released x) = size (hdr init_allocator x) ∧
        is_free (hdr sample_released x) = is_free (hdr init_allocator x)) ∧
  ∀ n, (ENOUGH_FUEL ≤ n)%nat →
    get_used_memory n sample_released = get_used_memory n init_allocator ∧
    get_free_memory n sample_released = get_free_memory n init_allocator ∧
    get_fragmentation_count n sample_released =
    get_fragmentation_count n init_allocator.
Proof.
  apply (malloc_free_round_trip init_allocator sample_allocated sample_released
           [] 100 24 1 2 None).
  - apply reach_init.
  - unfold in_range, MAX_REQUEST, SIZE_MODULUS. lia.
  - vm_compute. reflexivity.
  - vm_compute. reflexivity.
Defined.

(** * The block layout loop of [print_heap_state] *)

Lemma layout_walk_rows st :
  ∀ fuel current block_num rows corrupted,
  0 ≤ block_num ≤ 10000 →
  layout_walk fuel st current block_num = Some (rows, corrupted) →
  Z.of_nat (length rows) ≤ 10001 - block_num ∧
  (corrupted = true →
   ∃ a, last rows = Some (block_row st a) ∧
        (size (hdr st a) = 0 ∨ Z.of_nat (length rows) = 10001 - block_num)).
Proof.
  induction fuel as [| fuel IH]; intros current block_num rows corrupted Hn H; [done |].
  simpl in H. destruct (current <? HEAP_SIZE); [| injection H as <- <-; simpl; split; [lia | done]].
  rewrite (wrap_small (block_num + 1)) in H by (unfold SIZE_MODULUS; lia).
  destruct (Z.eqb_spec (size (hdr st current)) 0) as [Hz | Hnz]; simpl in H.
  { injection H as <- <-. simpl. split; [lia |]. intros _. exists current. split; [done | by left]. }
  destruct (Z.ltb_spec 10000 (block_num + 1)).
  { injection H as <- <-. simpl. split; [lia |]. intros _. exists current.
    split; [done | right; lia]. }
  destruct (layout_walk fuel st _ _) as [[rows' c'] |] eqn:Hrec; [| done].
  simpl in H. injection H as <- <-.
  destruct (IH _ (block_num + 1) _ _ ltac:(lia) Hrec) as [Hlen Hcor]. simpl length. split; [lia |].
  intros Hc. destruct (Hcor Hc) as (a & Hlast & Ha). exists a. split.
  - destruct rows' as [| r rows']; [done |]. by rewrite last_cons_cons.
  - destruct Ha as [? | ?]; [by left | right; lia].
Qed.

(** X16. The block layout loop of [print_heap_state] stops on every
    heap on which its walk stays inside the buffer, whether the blocks
    are well formed or not: when every block the walk comes to has its
    header inside the buffer and a size that does not lead past the end
    of the buffer, then within 10001 steps the loop has reached the end
    of the buffer or written the corruption message, it prints at most
    10001 rows, and when it writes the message the last row it printed
    is that of a block of size 0 or the 10001st. *)
Theorem layout_loop_always_stops (st : allocator) (fuel : nat) :
  (∀ a, is_block st a →
        a + sizeof_BlockHeader ≤ HEAP_SIZE ∧
        0 ≤ size (hdr st a) ∧ a + size (hdr st a) ≤ HEAP_SIZE) →
  (Z.to_nat 10001 < fuel)%nat →
  ∃ rows corrupted,
    layout_walk fuel st 0 0 = Some (rows, corrupted) ∧
    Z.of_nat (length rows) ≤ 10001 ∧
    (corrupted = true →
     ∃ a, last rows = Some (block_row st a) ∧
          (size (hdr st a) = 0 ∨ Z.of_nat (length rows) = 10001)).
Proof.
  intros _ Hfuel.
  destruct (layout_walk_stops st fuel 0 0) as [[rows corrupted] Hrun]; [lia | lia |].
  exists rows, corrupted. split; [done |].
  by destruct (layout_walk_rows st fuel 0 0 rows corrupted ltac:(lia) Hrun).
Qed.

Lemma sample_wrapped_blocks a : is_block sample_wrapped a → a = 0.
Proof.
  induction 1 as [| a _ IH _]; [done |]. subst a. vm_compute. reflexivity.
Qed.

Lemma layout_loop_always_stops_witness :
  ∃ rows corrupted,
    layout_walk (S (Z.to_nat 10001)) sample_wrapped 0 0 = Some (rows, corrupted) ∧
    Z.of_nat (length rows) ≤ 10001 ∧
    (corrupted = true →
     ∃ a, last rows = Some (block_row sample_wrapped a) ∧
          (size (hdr sample_wrapped a) = 0 ∨ Z.of_nat (length rows) = 10001)).
Proof.
  apply (layout_loop_always_stops sample_wrapped (S (Z.to_nat 10001))).
  - intros a ->%sample_wrapped_blocks. vm_compute. split_and!; discriminate.
  - apply le_n.
Defined.

(** The loop on a layout of at most 10000 blocks, and on a longer one. *)
Lemma layout_walk_chain st l :
  ∀ a k fuel,
  chain st a l HEAP_SIZE → 0 ≤ k →
  k + Z.of_nat (length l) ≤ 10000 → (length l < fuel)%nat →
  layout_walk fuel st a k = Some (block_row st <$> l, false).
Proof.
  induction l as [| x l IH]; intros a k fuel Hc Hk Hlen Hfuel;
    (destruct fuel as [| fuel]; [simpl in Hfuel; lia |]); simpl layout_walk.
  - simpl in Hc. subst. by rewrite Z.ltb_irrefl.
  - destruct Hc as (-> & Hmin & _ & Hc). rewrite min_block_size_eq in Hmin.
    pose proof (chain_le _ _ _ _ Hc).
    rewrite (proj2 (Z.ltb_lt _ _)) by lia.
    simpl length in *.
    rewrite (wrap_small (k + 1)) by (unfold SIZE_MODULUS; lia).
    rewrite (proj2 (Z.eqb_neq _ _)) by lia.
    rewrite (proj2 (Z.ltb_ge _ _)) by lia. simpl orb. cbv iota.
    rewrite (IH _ (k + 1) fuel Hc) by lia. done.
Qed.

Lemma layout_walk_long st l :
  ∀ a k fuel,
  chain st a l HEAP_SIZE → 0 ≤ k ≤ 10000 →
  10000 < k + Z.of_nat (length l) → (Z.to_nat (10001 - k) ≤ fuel)%nat →
  layout_walk fuel st a k =
  Some (block_row st <$> take (Z.to_nat (10001 - k)) l, true).
Proof.
  induction l as [| x l IH]; intros a k fuel Hc Hk Hlen Hfuel;
    [simpl in Hlen; lia |].
  destruct fuel as [| fuel]; [lia |]. simpl layout_walk.
  destruct Hc as (-> & Hmin & _ & Hc). rewrite min_block_size_eq in Hmin.
  pose proof (chain_le _ _ _ _ Hc).
  rewrite (proj2 (Z.ltb_lt _ _)) by lia.
  simpl length in *.
  rewrite (wrap_small (k + 1)) by (unfold SIZE_MODULUS; lia).
  rewrite (proj2 (Z.eqb_neq _ _)) by lia. simpl orb.
  replace (Z.to_nat (10001 - k)) with (S (Z.to_nat (10001 - (k + 1)))) by lia.
  simpl take.
  destruct (Z.ltb_spec 10000 (k + 1)).
  - replace (Z.to_nat (10001 - (k + 1))) with 0%nat by lia. done.
  - rewrite (IH _ (k + 1) fuel Hc) by lia. done.
Qed.

(** X17. The step counter of the block layout loop takes a well-formed
    heap of more than 10000 blocks for a corrupted one: in a state
    reached with requests of at most [MAX_REQUEST] bytes that has more
    than 10000 outstanding allocations, the loop prints 10001 rows and
    writes the corruption message. *)
Theorem layout_loop_gives_up_on_long_heaps
  (st : allocator) (live : list (Z * Z)) (fuel : nat) :
  reach in_range st live → 10000 < Z.of_nat (length live) →
  (ENOUGH_FUEL ≤ fuel)%nat →
  ∃ rows, layout_walk fuel st 0 0 = Some (rows, true) ∧
          Z.of_nat (length rows) = 10001.
Proof.
  intros Hreach Hlong Hfuel.
  destruct (reach_inv _ _ Hreach) as (bs & fl & Hinv & Hlive).
  pose proof Hinv as [Hlay _ _ _ _].
  pose proof (live_count _ _ _ Hlay Hlive) as Hcount.
  destruct (user_total_partition st bs) as [_ Hlen].
  pose proof enough_fuel_eq.
  eexists. split.
  - apply (layout_walk_long st bs); [done | lia | lia | lia].
  - rewrite length_fmap, length_take. lia.
Qed.

Lemma reach_sample_many n :
  reach in_range (sample_many n).1 (sample_many n).2.
Proof.
  induction n as [| n IH]; [apply reach_init |]. simpl.
  destruct (sample_many n) as [st live]. simpl in IH.
  destruct (my_malloc 1 st 8) as [[st' [p |]] |] eqn:Hm; [| done | done].
  simpl. apply (reach_malloc in_range st live 1 8 st' p IH); [| done].
  unfold in_range, MAX_REQUEST, SIZE_MODULUS. lia.
Qed.

Lemma layout_loop_gives_up_on_long_heaps_witness :
  ∃ rows,
    layout_walk ENOUGH_FUEL (sample_many (Z.to_nat 10001)).1 0 0
    = Some (rows, true) ∧
    Z.of_nat (length rows) = 10001.
Proof.
  apply (layout_loop_gives_up_on_long_heaps
           (sample_many (Z.to_nat 10001)).1 (sample_many (Z.to_nat 10001)).2).
  - apply reach_sample_many.
  - vm_compute. reflexivity.
  - apply le_n.
Defined.

(** * The report of [print_heap_state] *)

Lemma free_list_walk_total st l :
  ∀ cur fuel,
  lseg st cur l None → (length l < fuel)%nat →
  free_list_walk fuel st cur = Some (entry_row st <$> l).
Proof.
  induction l as [| x l IH]; intros cur fuel Hl Hfuel;
    (destruct fuel as [| fuel]; [simpl in Hfuel; lia |]); simpl in *.
  - by subst.
  - destruct Hl as (-> & Hl). rewrite (IH _ fuel Hl) by lia. done.
Qed.

Lemma entry_rows_total st l :
  foldr (λ e acc, (e.2 - sizeof_BlockHeader) + acc) 0 (entry_row st <$> l)
  = user_total st l.
Proof.
  unfold user_total. induction l as [| x l IH]; [done |].
  rewrite fmap_cons. cbn [foldr]. by rewrite IH.
Qed.

Lemma block_rows_total st l :
  foldr (λ r acc, r.1.1.2 + acc) 0 (block_row st <$> l) = span_total st l.
Proof.
  unfold span_total. induction l as [| x l IH]; [done |].
  rewrite fmap_cons. cbn [foldr]. by rewrite IH.
Qed.

Lemma block_rows_free st l :
  (λ r : layout_row, (r.1.1.1, r.1.1.2)) <$>
    filter (λ r : layout_row, r.2 = true) (block_row st <$> l)
  = entry_row st <$> free_blocks st l.
Proof.
  unfold free_blocks. induction l as [| x l IH]; [done |].
  rewrite fmap_cons, !filter_cons. simpl.
  destruct (is_free (hdr st x)).
  - rewrite !decide_True by done. rewrite !fmap_cons, IH. done.
  - rewrite !decide_False by done. done.
Qed.

(** X18. The report of [print_heap_state] in a state reached with
    requests of at most [MAX_REQUEST] bytes.  The call returns; the used
    memory it prints is the sum of the usable bytes of the outstanding
    allocations; the fragmentation count is the number of lines of the
    free list and the free memory the sum of their sizes, less one header
    each; and unless the layout loop has written the corruption message,
    the sizes of the rows of the block layout add up to [HEAP_SIZE] and
    its FREE rows are the lines of the free list, in another order. *)
Theorem heap_report_consistent
  (st : allocator) (live : list (Z * Z)) (fuel : nat) :
  reach in_range st live → (ENOUGH_FUEL ≤ fuel)%nat →
  ∃ rep,
    print_heap_state fuel st = Some rep ∧
    report_used rep = live_bytes st live ∧
    report_fragmentation rep = Z.of_nat (length (report_free_list rep)) ∧
    report_free rep =
      foldr (λ e acc, (e.2 - sizeof_BlockHeader) + acc) 0 (report_free_list rep) ∧
    (report_corrupted rep = false →
     foldr (λ r acc, r.1.1.2 + acc) 0 (report_layout rep) = HEAP_SIZE ∧
     report_free_list rep ≡ₚ
       (λ r : layout_row, (r.1.1.1, r.1.1.2)) <$>
         filter (λ r : layout_row, r.2 = true) (report_layout rep)).
Proof.
  intros Hreach Hfuel.
  destruct (reach_inv _ _ Hreach) as (bs & fl & Hinv & Hlive).
  pose proof (heap_inv_fuel _ _ _ _ Hinv Hfuel) as Hlen.
  pose proof Hinv as [Hlay Hent _ _ _].
  pose proof (free_entries_perm _ _ _ Hinv) as Hperm.
  unfold print_heap_state.
  rewrite (get_used_memory_layout st bs fuel Hlay) by lia.
  rewrite (get_free_memory_inv st bs fl fuel Hinv Hlen).
  rewrite (get_fragmentation_count_inv st bs fl fuel Hinv) by lia.
  rewrite (free_list_walk_total st fl (free_list st) fuel Hent) by lia.
  simpl.
  destruct (Z.le_gt_cases (Z.of_nat (length bs)) 10000) as [Hshort | Hlong].
  - rewrite (layout_walk_chain st bs 0 0 fuel Hlay) by lia. simpl.
    eexists. split; [done |]. simpl. split_and!.
    + symmetry. by apply live_bytes_used.
    + by rewrite length_fmap, (Permutation_length Hperm).
    + by rewrite entry_rows_total, (user_total_perm _ _ _ Hperm).
    + intros _. split.
      * rewrite block_rows_total. by rewrite (chain_end_span _ _ _ _ Hlay).
      * rewrite block_rows_free. by apply fmap_Permutation.
  - rewrite (layout_walk_long st bs 0 0 fuel Hlay) by lia. simpl.
    eexists. split; [done |]. simpl. split_and!.
    + symmetry. by apply live_bytes_used.
    + by rewrite length_fmap, (Permutation_length Hperm).
    + by rewrite entry_rows_total, (user_total_perm _ _ _ Hperm).
    + done.
Qed.

Lemma heap_report_consistent_witness :
  ∃ rep,
    print_heap_state ENOUGH_FUEL sample_hole = Some rep ∧
    report_used rep = live_bytes sample_hole [(56, align_size 8)] ∧
    report_fragmentation rep = Z.of_nat (length (report_free_list rep)) ∧
    report_free rep =
      foldr (λ e acc, (e.2 - sizeof_BlockHeader) + acc) 0 (report_free_list rep) ∧
    (report_corrupted rep = false →
     foldr (λ r acc, r.1.1.2 + acc) 0 (report_layout rep) = HEAP_SIZE ∧
     report_free_list rep ≡ₚ
       (λ r : layout_row, (r.1.1.1, r.1.1.2)) <$>
         filter (λ r : layout_row, r.2 = true) (report_layout rep)).
Proof.
  apply (heap_report_consistent sample_hole [(56, align_size 8)]).
  - apply (reach_free in_range
             (state_after_malloc 1 (state_after_malloc 1 init_allocator 8) 8)
             [(56, align_size 8); (24, align_size 8)] 3 24 (align_size 8)
             sample_hole None).
    + apply (reach_malloc in_range (state_after_malloc 1 init_allocator 8)
               [(24, align_size 8)] 1 8).
      * apply (reach_malloc in_range init_allocator [] 1 8).
        -- apply reach_init.
        -- unfold in_range, MAX_REQUEST, SIZE_MODULUS. lia.
        -- vm_compute. reflexivity.
      * unfold in_range, MAX_REQUEST, SIZE_MODULUS. lia.
      * vm_compute. reflexivity.
    + set_solver.
    + vm_compute. reflexivity.
  - apply le_n.
Defined.

(** * Walks that do not end *)

Lemma count_walk_loop st (l : list Z) :
  (∀ a, a ∈ l → ∃ b, b ∈ l ∧ next (hdr st a) = Some b) →
  ∀ fuel a acc, a ∈ l → count_walk fuel st (Some a) acc = None.
Proof.
  intros Hclosed. induction fuel as [| fuel IH]; intros a acc Ha; [done |].
  simpl. destruct (Hclosed a Ha) as (b & Hb & ->). by apply IH.
Qed.

Lemma free_walk_loop st (l : list Z) :
  (∀ a, a ∈ l → ∃ b, b ∈ l ∧ next (hdr st a) = Some b) →
  ∀ fuel a acc, a ∈ l → free_walk fuel st (Some a) acc = None.
Proof.
  intros Hclosed. induction fuel as [| fuel IH]; intros a acc Ha; [done |].
  simpl. destruct (Hclosed a Ha) as (b & Hb & ->). by apply IH.
Qed.

Lemma lseg_closed st l c :
  ∀ p, lseg st p l (Some c) → c ∈ l →
  ∀ k : list Z, (∀ x, x ∈ l → x ∈ k) →
  ∀ a, a ∈ l → ∃ b, b ∈ k ∧ next (hdr st a) = Some b.
Proof.
  induction l as [| x l IH]; intros p Hl Hc k Hk a Ha; [by apply elem_of_nil in Ha |].
  destruct Hl as (-> & Hl).
  assert (∃ b, b ∈ k ∧ next (hdr st x) = Some b) as Hx.
  { destruct l as [| y l]; simpl in Hl.
    - exists c. split; [by apply Hk | done].
    - destruct Hl as (Hy & _). exists y. split; [apply Hk; set_solver | done]. }
  apply elem_of_cons in Ha as [-> | Ha]; [done |].
  destruct l as [| y l]; [by apply elem_of_nil in Ha |].
  destruct (decide (c ∈ y :: l)) as [Hin | Hout].
  - apply (IH _ Hl Hin k); [intros z Hz; apply Hk; by right | done].
  - (* the link back goes to the first entry *)
    assert (c = x) as -> by set_solver.
    clear IH Hx. revert a Ha.
    assert (∀ l' p', lseg st p' l' (Some x) → (∀ z, z ∈ l' → z ∈ k) →
                     ∀ a, a ∈ l' → ∃ b, b ∈ k ∧ next (hdr st a) = Some b) as Hgen.
    { induction l' as [| u l' IH']; intros p' Hl' Hk' a Ha; [by apply elem_of_nil in Ha |].
      destruct Hl' as (-> & Hl').
      apply elem_of_cons in Ha as [-> | Ha].
      - destruct l' as [| v l']; simpl in Hl'.
        + exists x. split; [apply Hk; by left | done].
        + destruct Hl' as (Hv & _). exists v. split; [apply Hk'; set_solver | done].
      - apply (IH' _ Hl'); [intros z Hz; apply Hk'; by right | done]. }
    apply (Hgen _ _ Hl). intros z Hz. apply Hk. by right.
Qed.

(** X19. The free-list walks have no guard.  When the links of the free
    list lead back into the list ([l] are the entries met from the head
    until the link to the entry [c] of [l] is reached), neither
    [get_free_memory] nor [get_fragmentation_count] ever returns, and
    neither does [print_heap_state], which calls them before it prints
    anything of the heap. *)
Theorem free_list_walks_never_end_on_a_cycle
  (st : allocator) (l : list Z) (c : Z) :
  lseg st (free_list st) l (Some c) → c ∈ l →
  ∀ fuel, get_free_memory fuel st = None ∧
          get_fragmentation_count fuel st = None ∧
          print_heap_state fuel st = None.
Proof.
  intros Hl Hc fuel.
  pose proof (lseg_closed st l c _ Hl Hc l ltac:(done)) as Hclosed.
  destruct l as [| x l]; [by apply elem_of_nil in Hc |].
  pose proof Hl as (Hhead & _).
  assert (get_free_memory fuel st = None) as Hfree.
  { unfold get_free_memory. rewrite Hhead.
    apply (free_walk_loop st (x :: l) Hclosed). by left. }
  split_and!.
  - exact Hfree.
  - unfold get_fragmentation_count. rewrite Hhead.
    apply (count_walk_loop st (x :: l) Hclosed). by left.
  - unfold print_heap_state. rewrite Hfree.
    by destruct (get_used_memory fuel st).
Qed.

Lemma free_list_walks_never_end_on_a_cycle_witness :
  get_free_memory ENOUGH_FUEL sample_self_linked = None ∧
  get_fragmentation_count ENOUGH_FUEL sample_self_linked = None ∧
  print_heap_state ENOUGH_FUEL sample_self_linked = None.
Proof.
  apply (free_list_walks_never_end_on_a_cycle sample_self_linked [0] 0).
  - vm_compute. done.
  - by left.
Defined.

Lemma used_walk_reaches st a :
  is_block st a →
  (∀ fuel used, used_walk fuel st a used = None) →
  ∀ fuel used, used_walk fuel st 0 used = None.
Proof.
  induction 1 as [| a Hblock IH Hlt]; [done |].
  intros Hstuck. apply IH. intros fuel used.
  destruct fuel as [| fuel]; [done |]. simpl.
  assert (a < HEAP_SIZE) as Ha.
  { destruct Hblock; [done | lia]. }
  rewrite (proj2 (Z.ltb_lt _ _)) by done. apply Hstuck.
Qed.

(** X20. The heap walk of [get_used_memory] has no guard either.  On
    every heap on which the walk from the start of the buffer comes to a
    block of size 0, [get_used_memory] never returns, and neither does
    [print_heap_state], which calls it first: the zero-size test of the
    block layout loop is never reached. *)
Theorem used_walk_never_ends_on_a_zero_size_block (st : allocator) (a : Z) :
  is_block st a → size (hdr st a) = 0 →
  ∀ fuel, get_used_memory fuel st = None ∧ print_heap_state fuel st = None.
Proof.
  intros Hblock Hzero fuel.
  assert (a < HEAP_SIZE) as Ha by (destruct Hblock; [done | lia]).
  assert (get_used_memory fuel st = None) as Hused.
  { apply (used_walk_reaches st a Hblock). by apply used_walk_stuck. }
  split; [exact Hused |]. unfold print_heap_state. by rewrite Hused.
Qed.

Lemma used_walk_never_ends_on_a_zero_size_block_witness :
  get_used_memory ENOUGH_FUEL sample_wrapped_neighbours = None ∧
  print_heap_state ENOUGH_FUEL sample_wrapped_neighbours = None.
Proof.
  apply (used_walk_never_ends_on_a_zero_size_block sample_wrapped_neighbours 32).
  - apply (is_block_step sample_wrapped_neighbours 0); [constructor |].
    vm_compute. reflexivity.
  - vm_compute. reflexivity.
Defined.

(** * Every call returns *)






(** * The run of [main.cpp] *)

Lemma run_bind_ext_k {A B} (m : main_cpp.run A) (k k' : A → main_cpp.run B) st :
  (∀ a st', k a st' = k' a st') → (m ≫= k) st = (m ≫= k') st.
Proof.
  intros Hk. unfold mbind, main_cpp.run_mbind, main_cpp.run_bind.
  destruct (m st) as [[[[a |] st'] log] |]; [| done | done]. by rewrite Hk.
Qed.

Lemma run_bind_ext_m {A B} (m m' : main_cpp.run A) (k : A → main_cpp.run B) st :
  m st = m' st → (m ≫= k) st = (m' ≫= k) st.
Proof.
  intros Hm. unfold mbind, main_cpp.run_mbind, main_cpp.run_bind. by rewrite Hm.
Qed.

Lemma my_free_outside fuel st p :
  ¬ (0 ≤ get_header p < HEAP_SIZE) →
  my_free fuel st (Some p) = Some (st, Some ERR_invalid_pointer).
Proof.
  intros Hout. unfold my_free.
  destruct (is_valid_ptr (get_header p)) eqn:Hv; [| done].
  by apply is_valid_ptr_spec in Hv.
Qed.

(** The program behaves in one way for every address of [stack_var]
    outside the buffer. *)
Lemma main_any_stack_address fuel stack_var st :
  ¬ (0 ≤ get_header stack_var < HEAP_SIZE) →
  main_cpp.main fuel stack_var st = main_cpp.main fuel main_cpp.outside st.
Proof.
  intros Hout. unfold main_cpp.main.
  do 6 (apply run_bind_ext_k; intros ? ?).
  apply run_bind_ext_m. unfold main_cpp.test_edge_cases.
  do 6 (apply run_bind_ext_k; intros ? ?).
  apply run_bind_ext_m. unfold main_cpp.call_my_free.
  rewrite !my_free_outside; [done | | done].
  unfold main_cpp.outside, get_header, HEAP_SIZE, sizeof_BlockHeader. lia.
Qed.

(** X22. The test program runs through.  Wherever outside the buffer
    the variable [stack_var] of [test_edge_cases] lies, [main] returns
    0 with no [assert] failed and no loop of the allocator out of fuel;
    every [strcpy] writes into an allocated block that holds the string;
    no report of [print_heap_state] carries the corruption message; the
    only messages of [my_free] are those of the double free and of the
    release of [&stack_var]; [test_fragmentation] prints a count of 5;
    and at the end the three blocks of [test_basic_allocation], which
    nothing releases, are still in use next to one free block. *)
Theorem main_runs_through (stack_var : Z) :
  ¬ (0 ≤ get_header stack_var < HEAP_SIZE) →
  ∃ st log,
    main_cpp.main main_cpp.RUN_FUEL stack_var main_cpp.program_start
    = Some (Some 0, st, log) ∧
    forallb main_cpp.event_ok log = true ∧
    main_cpp.messages log = [ERR_double_free; ERR_invalid_pointer] ∧
    main_cpp.fragmentation_printed log = [5] ∧
    get_used_memory main_cpp.RUN_FUEL st = Some (104 + 200 + 56) ∧
    get_fragmentation_count main_cpp.RUN_FUEL st = Some 1 ∧
    layout_walk main_cpp.RUN_FUEL st 0 0 =
    Some ([(0, 128, 104, false); (128, 224, 200, false); (352, 80, 56, false);
           (432, HEAP_SIZE - 432, HEAP_SIZE - 432 - sizeof_BlockHeader, true)],
          false).
Proof.
  intros Hout. rewrite (main_any_stack_address _ _ _ Hout).
  destruct (main_cpp.main main_cpp.RUN_FUEL main_cpp.outside main_cpp.program_start)
    as [[[r st] log] |] eqn:Hrun; [| by vm_compute in Hrun].
  exists st, log.
  assert (Some (r, st, log) = 
          main_cpp.main main_cpp.RUN_FUEL main_cpp.outside main_cpp.program_start)
    as Hrun' by done.
  clear Hrun. vm_compute in Hrun'. injection Hrun' as -> -> ->.
  split_and!; vm_compute; reflexivity.
Qed.

Lemma main_runs_through_witness :
  ∃ st log,
    main_cpp.main main_cpp.RUN_FUEL (-8) main_cpp.program_start
    = Some (Some 0, st, log) ∧
    forallb main_cpp.event_ok log = true ∧
    main_cpp.messages log = [ERR_double_free; ERR_invalid_pointer] ∧
    main_cpp.fragmentation_printed log = [5] ∧
    get_used_memory main_cpp.RUN_FUEL st = Some (104 + 200 + 56) ∧
    get_fragmentation_count main_cpp.RUN_FUEL st = Some 1 ∧
    layout_walk main_cpp.RUN_FUEL st 0 0 =
    Some ([(0, 128, 104, false); (128, 224, 200, false); (352, 80, 56, false);
           (432, HEAP_SIZE - 432, HEAP_SIZE - 432 - sizeof_BlockHeader, true)],
          false).
Proof.
  apply (main_runs_through (-8)).
  unfold get_header, sizeof_BlockHeader, HEAP_SIZE. lia.
Defined.

(** * The used memory, call by call *)

Lemma live_bytes_ext st st' (live : list (Z * Z)) :
  (∀ q m, (q, m) ∈ live → usable_bytes st' q = usable_bytes st q) →
  live_bytes st' live = live_bytes st live.
Proof.
  unfold live_bytes. induction live as [| [q m] live IH]; intros Hsame; [done |].
  simpl. rewrite (Hsame q m ltac:(left)), IH; [done |].
  intros q' m' Hin. apply (Hsame q' m'). by right.
Qed.

Lemma live_bytes_forget st (live : list (Z * Z)) p n :
  NoDup (live.*1) → (p, n) ∈ live →
  live_bytes st (forget p live) = live_bytes st live - usable_bytes st p.
Proof.
  unfold live_bytes, forget.
  induction live as [| [q m] live IH]; intros Hnd Hin; [by apply elem_of_nil in Hin |].
  rewrite fmap_cons in Hnd. apply NoDup_cons in Hnd as [Hq Hnd].
  rewrite filter_cons. simpl. destruct (decide (q = p)) as [-> | Hne].
  - rewrite decide_False by (intros ?; done).
    assert (filter (λ x : Z * Z, x.1 ≠ p) live = live) as ->; [| lia].
    clear IH Hin. induction live as [| [q' m'] live IH]; [done |].
    rewrite filter_cons. simpl.
    rewrite decide_True by (intros ->; apply Hq; rewrite fmap_cons; by left).
    f_equal. apply IH; [| by apply NoDup_cons in Hnd as [_ ?]].
    intros Hin. apply Hq. rewrite fmap_cons. by right.
  - rewrite decide_True by done. simpl.
    apply elem_of_cons in Hin as [[= -> ->] | Hin]; [done |].
    rewrite IH by done. lia.
Qed.

(** X23. The used memory moves by the size of one block at a time.  In
    a state reached with requests of at most [MAX_REQUEST] bytes, a
    successful [my_malloc] of at most [MAX_REQUEST] bytes raises what
    [get_used_memory] returns by the usable bytes of the block it hands
    out, and the [my_free] of an
    outstanding pointer lowers it by the usable bytes that pointer
    had. *)
Theorem used_memory_steps
  (st : allocator) (live : list (Z * Z)) (n : nat) :
  reach in_range st live → (ENOUGH_FUEL ≤ n)%nat →
  ∃ used, get_used_memory n st = Some used ∧
    (∀ fuel s st' p, in_range s →
       my_malloc fuel st s = Some (st', Some p) →
       get_used_memory n st' = Some (used + usable_bytes st' p)) ∧
    (∀ fuel p m st' e, (p, m) ∈ live →
       my_free fuel st (Some p) = Some (st', e) →
       get_used_memory n st' = Some (used - usable_bytes st p)).
Proof.
  intros Hreach Hn. exists (live_bytes st live).
  destruct (reach_inv _ _ Hreach) as (bs & fl & Hinv & Hlive).
  split; [by apply get_used_memory_reach |]. split.
  - intros fuel s st' p Hs Hm.
    rewrite (get_used_memory_reach st' ((p, align_size s) :: live));
      [| by eapply reach_malloc | done].
    f_equal. unfold live_bytes at 1. simpl. fold (live_bytes st' live).
    rewrite (live_bytes_ext st st' live); [lia |].
    intros q m Hq. destruct (live_used _ _ _ Hlive _ _ Hq) as (Hb & Hu & _).
    unfold usable_bytes.
    by destruct (my_malloc_frame _ _ _ _ _ _ _ _ Hinv Hs Hm Hb Hu) as [-> _].
  - intros fuel p m st' e Hp Hf.
    rewrite (get_used_memory_reach st' (forget p live));
      [| by eapply reach_free | done].
    f_equal. rewrite (live_bytes_ext st st' (forget p live)).
    + apply (live_bytes_forget st live p m); [apply Hlive | done].
    + intros q k [Hne Hq]%elem_of_forget.
      destruct (live_used _ _ _ Hlive _ _ Hq) as (_ & Hu & _).
      unfold usable_bytes.
      destruct (my_free_frame _ _ _ _ _ (get_header q) Hf) as [-> _]; [| done | done].
      intros [= ->]. apply Hne. unfold get_data, get_header. lia.
Qed.

Lemma used_memory_steps_witness :
  ∃ used, get_used_memory ENOUGH_FUEL sample_allocated = Some used ∧
    (∀ fuel s st' p, in_range s →
       my_malloc fuel sample_allocated s = Some (st', Some p) →
       get_used_memory ENOUGH_FUEL st' = Some (used + usable_bytes st' p)) ∧
    (∀ fuel p m st' e, (p, m) ∈ [(24, align_size 100)] →
       my_free fuel sample_allocated (Some p) = Some (st', e) →
       get_used_memory ENOUGH_FUEL st' =
       Some (used - usable_bytes sample_allocated p)).
Proof.
  apply (used_memory_steps sample_allocated [(24, align_size 100)]).
  - apply reach_sample_allocated.
  - apply le_n.
Defined.

(** * What [coalesce_block] returns *)

(** X24. The result of [coalesce_block] on a well-formed heap, called as
    [my_free] calls it, on a used block that has just been marked free.
    It returns [nullptr] when the block right before is free, the case
    in which the block has been merged into an entry of the free list,
    and the block itself when it is not, the case in which the caller
    has to insert it; and no flag of any block has changed. *)
Theorem coalesce_block_result
  (st st' : allocator) (B1 B2 fl : list Z) (b : Z) (fuel : nat)
  (r : option Z) :
  heap_inv st (B1 ++ b :: B2) fl → is_free (hdr st b) = false →
  coalesce_block fuel (set_next (set_is_free st b true) b None) b
  = Some (st', r) →
  r = (if decide (pred_free st B1 = []) then Some b else None) ∧
  ∀ x, x ∈ B1 ++ b :: B2 →
       is_free (hdr st' x) = if decide (x = b) then true else is_free (hdr st x).
Proof.
  intros Hinv Hu Hc.
  destruct (forward_step st B1 b B2 fl fuel Hinv Hu)
    as (st2 & fl2 & _ & Hf2 & _ & Hsz2 & _ & Hfr2 & _).
  pose proof Hinv as [Hlay _ _ _ _].
  apply chain_mid in Hlay as (HB1 & _ & _ & _).
  assert (∀ x, x ∈ B1 → x ≠ b) as Hne
    by (intros x Hx; pose proof (chain_before _ _ _ _ _ HB1 Hx); lia).
  assert (chain st2 0 B1 b) as HB1'.
  { apply (chain_ext st); [| done]. intros x Hx. apply Hsz2.
    intros <-. by apply (Hne b). }
  rewrite coalesce_block_halves in Hc.
  destruct (coalesce_forward _ _ _) as [r2 |] eqn:Hfw; [| done].
  pose proof (Hf2 r2 eq_refl) as ->. simpl in Hc.
  unfold coalesce_backward in Hc.
  destruct (coalesce_scan_prev st2 b B1 0 fuel HB1') as [_ Hscan].
  destruct (coalesce_scan fuel st2 b 0) as [found |] eqn:Hrun; [| done].
  rewrite (Hscan found eq_refl) in Hc. simpl in Hc.
  assert (∀ x, is_free (hdr st' x) = is_free (hdr st2 x)) as Hsame.
  { intros x. destruct (last B1) as [y |]; [destruct (is_free (hdr st2 y)) |];
      injection Hc as <- _; by autorewrite with heap. }
  split.
  - unfold pred_free. destruct (last B1) as [y |] eqn:Hlast.
    + rewrite Hfr2, decide_False in Hc
        by (intros <-; apply (Hne b); [by apply last_Some_elem_of | done]).
      destruct (is_free (hdr st y)); by injection Hc as _ <-.
    + by injection Hc as _ <-.
  - intros x _. rewrite Hsame, Hfr2. by repeat case_decide.
Qed.

Lemma coalesce_block_result_witness :
  None = (if decide (pred_free sample_hole [0] = []) then Some 32 else None) ∧
  ∀ x, x ∈ [0] ++ 32 :: [64] →
       is_free (hdr sample_hole_coalesced x)
       = if decide (x = 32) then true else is_free (hdr sample_hole x).
Proof.
  apply (coalesce_block_result sample_hole sample_hole_coalesced
           [0] [64] [0; 64] 32 3 None).
  - apply sample_hole_inv.
  - vm_compute. reflexivity.
  - vm_compute. reflexivity.
Defined.

(** * Loads after stores *)

Lemma load_cells_insert m x c b n :
  x < b ∨ b + Z.of_nat n ≤ x →
  raw.load_cells (<[x := c]> m) b n = raw.load_cells m b n.
Proof.
  revert b. induction n as [| n IH]; intros b Hx; [done |].
  simpl. f_equal.
  - unfold raw.cell_at. rewrite lookup_insert_ne by lia. done.
  - apply IH. lia.
Qed.

Lemma load_cells_store_same m a cs :
  raw.load_cells (raw.store_cells m a cs) a (length cs) = cs.
Proof.
  revert a. induction cs as [| c cs IH]; intros a; [done |].
  simpl. f_equal.
  - unfold raw.cell_at. by rewrite lookup_insert_eq.
  - rewrite load_cells_insert by lia. apply IH.
Qed.

Lemma load_cells_store_other m a cs b n :
  b + Z.of_nat n ≤ a ∨ a + Z.of_nat (length cs) ≤ b →
  raw.load_cells (raw.store_cells m a cs) b n = raw.load_cells m b n.
Proof.
  revert a. induction cs as [| c cs IH]; intros a Hd; [done |].
  simpl in *. rewrite load_cells_insert by lia. apply IH. lia.
Qed.

Lemma load_store_same {A : Type} (decode : list raw.cell → option A)
  (width : nat) r a cs r' b :
  raw.store r a cs = Some r' → b = a → width = length cs →
  raw.load decode width r' b = decode cs.
Proof.
  unfold raw.store, raw.load. intros Hs -> ->.
  destruct (raw.in_buffer a _); [| done]. injection Hs as <-. simpl.
  by rewrite load_cells_store_same.
Qed.

Lemma load_store_other {A : Type} (decode : list raw.cell → option A)
  (width : nat) r a cs r' b :
  raw.store r a cs = Some r' →
  b + Z.of_nat width ≤ a ∨ a + Z.of_nat (length cs) ≤ b →
  raw.load decode width r' b = raw.load decode width r b.
Proof.
  unfold raw.store, raw.load. intros Hs Hd.
  destruct (raw.in_buffer a _); [| done]. injection Hs as <-. simpl.
  by rewrite load_cells_store_other.
Qed.

Lemma load_poke {A : Type} (decode : list raw.cell → option A)
  (width : nat) r x c b :
  x < b ∨ b + Z.of_nat width ≤ x →
  raw.load decode width (raw.poke r x c) b = raw.load decode width r b.
Proof.
  intros Hx. unfold raw.load, raw.poke. simpl.
  by rewrite load_cells_insert.
Qed.

Lemma store_Some r a cs :
  0 ≤ a → a + Z.of_nat (length cs) ≤ HEAP_SIZE →
  ∃ r', raw.store r a cs = Some r'.
Proof.
  intros H0 H1. unfold raw.store, raw.in_buffer.
  rewrite (proj2 (Z.leb_le 0 a)), (proj2 (Z.leb_le _ _)) by done. by eexists.
Qed.

Lemma store_free_list r a cs r' :
  raw.store r a cs = Some r' → raw.free_list r' = raw.free_list r.
Proof.
  unfold raw.store. destruct (raw.in_buffer _ _); [| done]. by intros [= <-].
Qed.

(** * Decoding what was encoded *)

Lemma decode_encode_uint n v :
  raw.decode_uint (raw.encode_uint n v) = Some (v mod 256 ^ Z.of_nat n).
Proof.
  revert v. induction n as [| n IH]; intros v.
  - simpl. by rewrite Z.mod_1_r.
  - cbn [raw.encode_uint raw.decode_uint]. rewrite IH. simpl mbind. cbn [option_bind].
    f_equal. rewrite Nat2Z.inj_succ, Z.pow_succ_r by lia.
    rewrite Z.rem_mul_r by lia. done.
Qed.

Lemma decode_encode_size v :
  0 ≤ v < SIZE_MODULUS → raw.decode_uint (raw.encode_uint 8 v) = Some v.
Proof.
  intros Hv. rewrite decode_encode_uint. f_equal.
  apply Z.mod_small. unfold SIZE_MODULUS in Hv. simpl. lia.
Qed.

Lemma decode_encode_bool v : raw.decode_bool (raw.encode_bool v) = Some v.
Proof. by destruct v. Qed.

Lemma decode_encode_ptr v : raw.decode_ptr (raw.encode_ptr v) = Some v.
Proof.
  destruct v as [t |]; [| done].
  unfold raw.decode_ptr. rewrite decide_False by done.
  simpl. by rewrite decide_True.
Qed.

(** Pushes a load back through the stores before it. *)
Ltac raw_fields :=
  unfold raw.load_size, raw.load_is_free, raw.load_next,
    raw.store_size, raw.store_is_free, raw.store_next,
    raw.OFFSET_size, raw.OFFSET_is_free, raw.OFFSET_next in *.

Ltac raw_widths :=
  cbv [length raw.encode_uint raw.encode_bool raw.encode_ptr
       fmap list_fmap Z.of_nat Pos.of_succ_nat Pos.succ].

Ltac frame_step :=
  match goal with
  | H : raw.store ?r ?a ?cs = Some ?r' |- context [raw.load ?d ?w ?r' ?b] =>
      first
        [ rewrite (load_store_other d w r a cs r' b H)
            by (raw_widths; unfold sizeof_BlockHeader, apart in *; lia)
        | rewrite (load_store_same d w r a cs r' b H)
            by (first [lia | reflexivity]) ]
  end.

Ltac frame := raw_fields; repeat frame_step.

(** * Reading and writing where the bytes agree with the records *)

Lemma view_Some r a h :
  raw.view r a = Some h ↔
  raw.load_size r a = Some (size h) ∧
  raw.load_is_free r a = Some (is_free h) ∧
  raw.load_next r a = Some (next h).
Proof.
  unfold raw.view. split.
  - destruct (raw.load_size r a) as [s |]; [| done].
    destruct (raw.load_is_free r a) as [f |]; [| done].
    destruct (raw.load_next r a) as [n |]; [| done].
    by intros [= <-].
  - intros (-> & -> & ->). by destruct h.
Qed.

Section agree.

Context (K : Z → Prop) (r : raw.allocator) (st : allocator).
Hypothesis Hagree : agree K r st.

Lemma agree_load_size a : K a → raw.load_size r a = Some (size (hdr st a)).
Proof. intros Ha. by apply (view_Some r a), Hagree. Qed.

Lemma agree_load_is_free a :
  K a → raw.load_is_free r a = Some (is_free (hdr st a)).
Proof. intros Ha. by apply (view_Some r a), Hagree. Qed.

Lemma agree_load_next a : K a → raw.load_next r a = Some (next (hdr st a)).
Proof. intros Ha. by apply (view_Some r a), Hagree. Qed.

Lemma agree_free_list : raw.free_list r = free_list st.
Proof. apply Hagree. Qed.

Lemma agree_store_size a v :
  room K a → 0 ≤ v < SIZE_MODULUS →
  ∃ r', raw.store_size r a v = Some r' ∧ agree K r' (set_size st a v) ∧
        raw.load_size r' a = Some v.
Proof.
  intros (H0 & H1 & Hap) Hv.
  destruct (store_Some r (a + raw.OFFSET_size) (raw.encode_uint 8 v)) as (r' & Hs);
    [unfold raw.OFFSET_size; lia
    | raw_widths; unfold raw.OFFSET_size, sizeof_BlockHeader in *; lia |].
  exists r'. split; [exact Hs |].
  assert (raw.load_size r' a = Some v) as Hself
    by (frame; by apply decode_encode_size).
  split; [| exact Hself]. split.
  - rewrite (store_free_list _ _ _ _ Hs). simpl. apply Hagree.
  - intros b Hb. pose proof (Hap b Hb) as Hab. apply view_Some.
    pose proof (proj1 (view_Some _ _ _) (proj2 Hagree b Hb)) as (Hsz & Hf & Hn).
    autorewrite with heap. case_decide as Heq.
    + subst b. split_and!; [exact Hself | |].
      * rewrite <- Hf. clear Hself. frame. done.
      * rewrite <- Hn. clear Hself. frame. done.
    + destruct Hab as [? | Hab]; [done |]. clear Hself.
      rewrite <- Hsz, <- Hf, <- Hn. split_and!; frame; done.
Qed.

Lemma agree_store_is_free a v :
  room K a →
  ∃ r', raw.store_is_free r a v = Some r' ∧ agree K r' (set_is_free st a v) ∧
        raw.load_is_free r' a = Some v.
Proof.
  intros (H0 & H1 & Hap).
  destruct (store_Some r (a + raw.OFFSET_is_free) (raw.encode_bool v)) as (r' & Hs);
    [unfold raw.OFFSET_is_free; lia
    | raw_widths; unfold raw.OFFSET_is_free, sizeof_BlockHeader in *; lia |].
  exists r'. split; [exact Hs |].
  assert (raw.load_is_free r' a = Some v) as Hself
    by (frame; by apply decode_encode_bool).
  split; [| exact Hself]. split.
  - rewrite (store_free_list _ _ _ _ Hs). simpl. apply Hagree.
  - intros b Hb. pose proof (Hap b Hb) as Hab. apply view_Some.
    pose proof (proj1 (view_Some _ _ _) (proj2 Hagree b Hb)) as (Hsz & Hf & Hn).
    autorewrite with heap. case_decide as Heq.
    + subst b. split_and!; [| exact Hself |].
      * rewrite <- Hsz. clear Hself. frame. done.
      * rewrite <- Hn. clear Hself. frame. done.
    + destruct Hab as [? | Hab]; [done |]. clear Hself.
      rewrite <- Hsz, <- Hf, <- Hn. split_and!; frame; done.
Qed.

Lemma agree_store_next a v :
  room K a →
  ∃ r', raw.store_next r a v = Some r' ∧ agree K r' (set_next st a v) ∧
        raw.load_next r' a = Some v.
Proof.
  intros (H0 & H1 & Hap).
  destruct (store_Some r (a + raw.OFFSET_next) (raw.encode_ptr v)) as (r' & Hs);
    [unfold raw.OFFSET_next; lia
    | raw_widths; unfold raw.OFFSET_next, sizeof_BlockHeader in *; lia |].
  exists r'. split; [exact Hs |].
  assert (raw.load_next r' a = Some v) as Hself
    by (frame; by apply decode_encode_ptr).
  split; [| exact Hself]. split.
  - rewrite (store_free_list _ _ _ _ Hs). simpl. apply Hagree.
  - intros b Hb. pose proof (Hap b Hb) as Hab. apply view_Some.
    pose proof (proj1 (view_Some _ _ _) (proj2 Hagree b Hb)) as (Hsz & Hf & Hn).
    autorewrite with heap. case_decide as Heq.
    + subst b. split_and!; [| | exact Hself].
      * rewrite <- Hsz. clear Hself. frame. done.
      * rewrite <- Hf. clear Hself. frame. done.
    + destruct Hab as [? | Hab]; [done |]. clear Hself.
      rewrite <- Hsz, <- Hf, <- Hn. split_and!; frame; done.
Qed.

Lemma agree_set_free_list v :
  agree K (raw.set_free_list r v) (set_free_list st v).
Proof.
  split; [done |]. intros b Hb. rewrite hdr_set_free_list.
  apply (proj2 Hagree b Hb).
Qed.

End agree.

Lemma agree_weaken (K K' : Z → Prop) r st :
  agree K r st → (∀ a, K' a → K a) → agree K' r st.
Proof. intros [Hfl Hv] Hsub. split; [done |]. intros a Ha. by apply Hv, Hsub. Qed.

Lemma spaced_room K a : spaced K → K a → room K a.
Proof. intros Hsp. apply Hsp. Qed.

(** * The calls on the bytes go along with the calls on the records *)

Lemma ptr_add_Some p n :
  0 ≤ p + n ≤ HEAP_SIZE → raw.ptr_add p n = Some (p + n).
Proof.
  intros [H0 H1]. unfold raw.ptr_add.
  by rewrite (proj2 (Z.leb_le 0 _)), (proj2 (Z.leb_le _ HEAP_SIZE)).
Qed.

(** ** [remove_from_free_list] *)

Lemma raw_remove_scan K r st block :
  agree K r st →
  ∀ fuel cur l, lseg st cur l None → (∀ x, x ∈ l → K x) →
  raw.remove_scan fuel r block cur = remove_scan fuel st block cur.
Proof.
  intros Hag. induction fuel as [| fuel IH]; intros cur l Hl HK; [done |].
  simpl. destruct cur as [c |]; [| done].
  destruct l as [| x l]; [done |]. destruct Hl as ([= <-] & Hl).
  rewrite (agree_load_next K r st Hag c) by (apply HK; by left). simpl.
  case_decide; [done |]. apply (IH _ l); [done |].
  intros y Hy. apply HK. by right.
Qed.

Lemma remove_scan_elem st block :
  ∀ fuel cur l c, lseg st cur l None →
  remove_scan fuel st block cur = Some (Some c) → c ∈ l.
Proof.
  induction fuel as [| fuel IH]; intros cur l c Hl H; [done |].
  simpl in H. destruct cur as [x |]; [| done].
  destruct l as [| y l]; [done |]. destruct Hl as ([= <-] & Hl).
  case_decide; [injection H as <-; by left |].
  right. by eapply IH.
Qed.

Lemma raw_remove_from_free_list K r st fl block fuel :
  agree K r st → spaced K → free_entries st fl → (∀ x, x ∈ fl → K x) →
  K block →
  match remove_from_free_list fuel st block with
  | Some st' =>
      ∃ r', raw.remove_from_free_list fuel r block = Some r' ∧ agree K r' st'
  | None => raw.remove_from_free_list fuel r block = None
  end.
Proof.
  intros Hag Hsp Hfl HK Hb.
  unfold raw.remove_from_free_list, remove_from_free_list.
  rewrite (agree_free_list K r st Hag).
  destruct (free_list st) as [first |] eqn:Hhead; [| by exists r].
  case_decide as Hfirst.
  - rewrite (agree_load_next K r st Hag block Hb). simpl.
    eexists. split; [done |]. by apply agree_set_free_list.
  - assert (lseg st (Some first) fl None) as Hfl'
      by (unfold free_entries in Hfl; by rewrite Hhead in Hfl).
    rewrite (raw_remove_scan K r st block Hag fuel (Some first) fl Hfl' HK).
    destruct (remove_scan fuel st block (Some first)) as [[c |] |] eqn:Hscan;
      simpl; [| by exists r | done].
    rewrite (agree_load_next K r st Hag block Hb). simpl.
    assert (K c) as Hc.
    { apply HK. by eapply remove_scan_elem. }
    destruct (agree_store_next K r st Hag c (next (hdr st block)) (Hsp c Hc))
      as (r' & Hs & Hag' & _).
    by exists r'.
Qed.

(** ** [coalesce_block] *)

Lemma raw_coalesce_scan K r st b :
  agree K r st → b ≤ HEAP_SIZE →
  ∀ fuel a l, chain st a l b → 0 ≤ a → (∀ x, x ∈ l → K x) →
  raw.coalesce_scan fuel r b a = coalesce_scan fuel st b a.
Proof.
  intros Hag Hb. induction fuel as [| fuel IH]; intros a l Hc Ha HK; [done |].
  simpl. destruct (Z.ltb_spec a b) as [Hlt | Hge]; [| done].
  destruct l as [| x l]; [simpl in Hc; lia |].
  destruct Hc as (-> & Hmin & _ & Hc). rewrite min_block_size_eq in Hmin.
  pose proof (chain_le _ _ _ _ Hc) as Hle.
  rewrite (agree_load_size K r st Hag a) by (apply HK; by left). simpl.
  rewrite ptr_add_Some by lia. simpl.
  destruct (Z.eqb_spec (a + size (hdr st a)) b) as [Heq | Hne]; simpl.
  - rewrite (agree_load_is_free K r st Hag a) by (apply HK; by left). simpl.
    destruct (is_free (hdr st a)); [done |].
    by rewrite (proj2 (Z.leb_le b _)) by lia.
  - destruct (Z.leb_spec b (a + size (hdr st a))); [done |].
    apply (IH _ l); [done | lia |]. intros y Hy. apply HK. by right.
Qed.

Lemma coalesce_scan_elem st b l :
  ∀ a fuel pb, chain st a l b →
  coalesce_scan fuel st b a = Some (Some pb) → pb ∈ l.
Proof.
  intros a fuel pb Hc H.
  destruct (coalesce_scan_prev st b l a fuel Hc) as [_ H2].
  apply H2 in H. destruct (last l) as [p |] eqn:Hlast; [| done].
  destruct (is_free (hdr st p)); [| done]. injection H as <-.
  apply last_Some in Hlast as (l' & ->). set_solver.
Qed.

Lemma raw_coalesce_block K r st b B1 fl fuel :
  agree K r st → spaced K → K b →
  chain st 0 B1 b → (∀ x, x ∈ B1 → K x) → b ∉ B1 →
  0 ≤ size (hdr st b) → b + size (hdr st b) ≤ HEAP_SIZE →
  (b + size (hdr st b) < HEAP_SIZE → K (b + size (hdr st b))) →
  free_entries st fl → (∀ x, x ∈ fl → K x) →
  along K (raw.coalesce_block fuel r b) (coalesce_block fuel st b).
Proof.
  intros Hag Hsp Hb HB1 HKB1 HbB1 Hsz0 HszH Hnext Hfl HKfl.
  pose proof (Hsp b Hb) as (Hb0 & _ & _).
  assert (match coalesce_forward fuel st b with
          | Some st2 =>
              ∃ r2,
                (if b + size (hdr st b) <? HEAP_SIZE then
                   raw.load_is_free r (b + size (hdr st b)) ≫= λ next_is_free : bool,
                     if next_is_free then
                       raw.remove_from_free_list fuel r (b + size (hdr st b)) ≫= λ r,
                       raw.load_size r b ≫= λ block_size,
                       raw.load_size r (b + size (hdr st b)) ≫= λ next_size,
                       raw.store_size r b (wrap (block_size + next_size))
                     else Some r
                 else Some r) = Some r2 ∧ agree K r2 st2
          | None =>
                (if b + size (hdr st b) <? HEAP_SIZE then
                   raw.load_is_free r (b + size (hdr st b)) ≫= λ next_is_free : bool,
                     if next_is_free then
                       raw.remove_from_free_list fuel r (b + size (hdr st b)) ≫= λ r,
                       raw.load_size r b ≫= λ block_size,
                       raw.load_size r (b + size (hdr st b)) ≫= λ next_size,
                       raw.store_size r b (wrap (block_size + next_size))
                     else Some r
                 else Some r) = None
          end) as Hforward.
  { unfold coalesce_forward.
    destruct (Z.ltb_spec (b + size (hdr st b)) HEAP_SIZE) as [Hlt | Hge];
      [| by exists r].
    specialize (Hnext Hlt).
    rewrite (agree_load_is_free K r st Hag _ Hnext). simpl.
    destruct (is_free (hdr st (b + size (hdr st b)))); [| by exists r].
    pose proof (raw_remove_from_free_list K r st fl (b + size (hdr st b)) fuel
                  Hag Hsp Hfl HKfl Hnext) as Hrem.
    destruct (remove_from_free_list fuel st _) as [st1 |]; simpl.
    - destruct Hrem as (r1 & -> & Hag1). simpl.
      rewrite (agree_load_size K r1 st1 Hag1 b Hb). simpl.
      rewrite (agree_load_size K r1 st1 Hag1 _ Hnext). simpl.
      destruct (agree_store_size K r1 st1 Hag1 b
                  (wrap (size (hdr st1 b) + size (hdr st1 (b + size (hdr st b)))))
                  (Hsp b Hb) (wrap_range _)) as (r2 & Hs & Hag2 & _).
      by exists r2.
    - by rewrite Hrem. }
  unfold along. rewrite coalesce_block_halves.
  unfold raw.coalesce_block.
  rewrite (agree_load_size K r st Hag b Hb). simpl.
  rewrite ptr_add_Some by lia. simpl.
  destruct (coalesce_forward fuel st b) as [st2 |] eqn:Hfw; simpl;
    [| by rewrite Hforward].
  destruct Hforward as (r2 & -> & Hag2). simpl.
  destruct (coalesce_forward_frame _ _ _ _ Hfw) as [Hsize2 _].
  assert (chain st2 0 B1 b) as HB1'.
  { apply (chain_ext st); [| done]. intros x Hx. apply Hsize2. by intros ->. }
  unfold coalesce_backward.
  rewrite (raw_coalesce_scan K r2 st2 b Hag2 ltac:(lia) fuel 0 B1 HB1' ltac:(lia) HKB1).
  destruct (coalesce_scan fuel st2 b 0) as [[pb |] |] eqn:Hscan; simpl;
    [| by exists r2 | done].
  assert (K pb) as Hpb by (apply HKB1; by eapply coalesce_scan_elem).
  rewrite (agree_load_size K r2 st2 Hag2 pb Hpb). simpl.
  rewrite (agree_load_size K r2 st2 Hag2 b Hb). simpl.
  destruct (agree_store_size K r2 st2 Hag2 pb
              (wrap (size (hdr st2 pb) + size (hdr st2 b)))
              (Hsp pb Hpb) (wrap_range _)) as (r3 & -> & Hag3 & _).
  simpl. by exists r3.
Qed.

(** ** [my_free] *)

Lemma layout_spaced st bs : layout st bs → spaced (λ a, a ∈ bs).
Proof.
  intros Hlay a Ha.
  destruct (chain_bounds _ _ _ _ _ Hlay Ha) as (H0 & HH & Hmin & _).
  unfold room, sizeof_BlockHeader. split_and!; [lia | lia |].
  intros b Hb. unfold apart, sizeof_BlockHeader.
  destruct (Z.lt_trichotomy a b) as [Hlt | [-> | Hgt]]; [| by left |].
  - pose proof (chain_disjoint _ _ _ _ _ _ Hlay Ha Hb Hlt). lia.
  - pose proof (chain_disjoint _ _ _ _ _ _ Hlay Hb Ha Hgt).
    destruct (chain_bounds _ _ _ _ _ Hlay Hb) as (_ & _ & ? & _). lia.
Qed.

Lemma coalesce_block_result_block fuel st b st' b' :
  coalesce_block fuel st b = Some (st', Some b') → b' = b.
Proof.
  rewrite coalesce_block_halves. unfold coalesce_backward.
  destruct (coalesce_forward _ _ _) as [st2 |]; [| done]. simpl.
  destruct (coalesce_scan _ _ _ _) as [[pb |] |]; simpl; [done | | done].
  by intros [= _ <-].
Qed.

Lemma raw_my_free K st bs fl live p n fuel r :
  heap_inv st bs fl → live_inv st bs live → (p, n) ∈ live →
  spaced K → (∀ a, a ∈ bs → K a) → agree K r st →
  along K (raw.my_free fuel r (Some p)) (my_free fuel st (Some p)).
Proof.
  intros Hinv Hlive Hp Hsp HK Hag.
  pose proof Hinv as [Hlay Hent Hnd Hfree Hadj].
  destruct (live_used _ _ _ Hlive p n Hp) as (Hb' & Hbu & _).
  set (b := get_header p) in *.
  pose proof (HK b Hb') as Hb.
  destruct (chain_bounds _ _ _ _ _ Hlay Hb') as (Hb0 & HbH & Hbmin & _).
  assert (is_valid_ptr b = true) as Hvalid.
  { unfold is_valid_ptr. apply andb_true_intro. split; [lia | apply Z.ltb_lt; lia]. }
  unfold raw.my_free, my_free. fold b. rewrite Hvalid. simpl negb. cbv iota.
  rewrite (agree_load_is_free _ r st Hag b Hb), Hbu. simpl.
  destruct (agree_store_is_free _ r st Hag b true (Hsp b Hb)) as (r1 & -> & Hag1 & _).
  simpl.
  destruct (agree_store_next _ r1 _ Hag1 b None (Hsp b Hb)) as (r2 & -> & Hag2 & _).
  simpl.
  set (st1 := set_next (set_is_free st b true) b None) in *.
  assert (∀ x, size (hdr st1 x) = size (hdr st x)) as Hsize1
    by (intros x; subst st1; by autorewrite with heap).
  destruct (list_elem_of_split _ _ Hb') as (B1 & B2 & HB).
  assert (chain st 0 B1 b) as HB1.
  { unfold layout in Hlay. rewrite HB in Hlay. by apply chain_mid in Hlay as (? & _). }
  assert (b ∉ B1) as HbB1.
  { intros Hin. pose proof (chain_before _ _ _ _ _ HB1 Hin). lia. }
  assert (b ∉ fl) as Hbfl by (intros (_ & ?)%Hfree; congruence).
  pose proof (raw_coalesce_block K r2 st1 b B1 fl fuel Hag2 Hsp Hb) as Hco.
  unfold along in *.
  destruct (coalesce_block fuel st1 b) as [[st2 res] |] eqn:Hrec.
  - destruct Hco as (r3 & -> & Hag3).
    + apply (chain_ext st); [| done]. intros x _. apply Hsize1.
    + intros x Hx. apply HK. rewrite HB. set_solver.
    + done.
    + rewrite Hsize1. lia.
    + rewrite Hsize1. lia.
    + rewrite Hsize1. intros Hlt.
      destruct (chain_succ _ _ _ _ _ Hlay Hb') as [? | ?]; [lia | by apply HK].
    + apply (lseg_ext st); [| done]. intros x Hx. subst st1.
      autorewrite with heap. case_decide; [by subst | done].
    + intros x Hx. apply HK. by apply Hfree in Hx as [? _].
    + simpl. destruct res as [b' |]; simpl.
      * apply coalesce_block_result_block in Hrec as ->.
        rewrite (agree_free_list _ r3 st2 Hag3).
        destruct (agree_store_next _ r3 st2 Hag3 b (free_list st2) (Hsp b Hb))
          as (r4 & -> & Hag4 & _).
        simpl. eexists. split; [done |]. by apply agree_set_free_list.
      * by exists r3.
  - simpl. rewrite Hco; try done.
    + apply (chain_ext st); [| done]. intros x _. apply Hsize1.
    + intros x Hx. apply HK. rewrite HB. set_solver.
    + rewrite Hsize1. lia.
    + rewrite Hsize1. lia.
    + rewrite Hsize1. intros Hlt.
      destruct (chain_succ _ _ _ _ _ Hlay Hb') as [? | ?]; [lia | by apply HK].
    + apply (lseg_ext st); [| done]. intros x Hx. subst st1.
      autorewrite with heap. case_decide; [by subst | done].
    + intros x Hx. apply HK. by apply Hfree in Hx as [? _].
Qed.

(** A release that writes a message, and the release of [nullptr],
    leave every byte as it was. *)
Lemma raw_my_free_rejected fuel r q r' e :
  raw.my_free fuel r q = Some (r', e) → q = None ∨ e ≠ None → r' = r.
Proof.
  unfold raw.my_free. destruct q as [p |]; [| by intros [= <- <-]].
  destruct (negb (is_valid_ptr (get_header p))); [by intros [= <- <-] |].
  destruct (raw.load_is_free r (get_header p)) as [[|] |]; simpl;
    [by intros [= <- <-] | | done].
  destruct (raw.store_is_free _ _ _) as [r1 |]; simpl; [| done].
  destruct (raw.store_next _ _ _) as [r2 |]; simpl; [| done].
  destruct (raw.coalesce_block _ _ _) as [[r3 [b |]] |]; simpl; [| | done].
  - destruct (raw.store_next _ _ _) as [r4 |]; simpl; [| done].
    intros [= <- <-] [? | ?]; done.
  - intros [= <- <-] [? | ?]; done.
Qed.

(** ** [my_malloc] *)

(** The offsets [K] and the remainder [split_block] sets up in [block],
    when it does. *)
Lemma room_add (K : Z → Prop) a :
  spaced K → room K a → spaced (λ y, K y ∨ y = a).
Proof.
  intros Hsp (H0 & H1 & Hap) y [Hy | ->].
  - destruct (Hsp y Hy) as (? & ? & Hy'). split_and!; [done | done |].
    intros b [Hb | ->]; [by apply Hy' |].
    destruct (Hap y Hy) as [-> | [? | ?]]; unfold apart; auto.
  - split_and!; [done | done |].
    intros b [Hb | ->]; [by apply Hap | by left].
Qed.

Lemma raw_split_block K r st block s :
  agree K r st → spaced K → K block →
  let t := total_size s in
  let split := negb (size (hdr st block) <? wrap (t + get_min_block_size)) in
  (split = true →
   sizeof_BlockHeader ≤ t ∧ t ≤ size (hdr st block) ∧ room K (block + t)) →
  ∃ r', raw.split_block r block s = Some (r', block) ∧
        split_block st block s = ((split_block st block s).1, block) ∧
        agree (λ a, K a ∨ split = true ∧ a = block + t) r'
          (split_block st block s).1.
Proof.
  intros Hag Hsp Hb t split Hroom.
  unfold raw.split_block, split_block. fold (total_size s). fold t.
  rewrite (agree_load_size K r st Hag block Hb). simpl.
  subst split.
  destruct (size (hdr st block) <? wrap (t + get_min_block_size)); simpl.
  { exists r. split_and!; [done | done |].
    eapply agree_weaken; [exact Hag |]. intros a [? | [? _]]; done. }
  destruct (Hroom eq_refl) as (Ht & Hfit & Hnew).
  assert (0 ≤ t < SIZE_MODULUS) as Htr by apply wrap_range.
  pose proof Hnew as (Hn0 & Hn1 & Hnap).
  pose proof (Hsp block Hb) as (Hb0 & Hb1 & _).
  rewrite ptr_add_Some by (unfold sizeof_BlockHeader in *; lia). simpl.
  set (new_block := block + t) in *.
  destruct (agree_store_size K r st Hag new_block
              (wrap (size (hdr st block) - t)) Hnew (wrap_range _))
    as (r1 & Hs1 & Hag1 & Hl1).
  rewrite Hs1. simpl.
  destruct (agree_store_is_free K r1 _ Hag1 new_block true Hnew)
    as (r2 & Hs2 & Hag2 & Hl2).
  rewrite Hs2. simpl.
  destruct (agree_store_size K r2 _ Hag2 block t (Hsp block Hb) Htr)
    as (r3 & Hs3 & Hag3 & Hl3).
  rewrite Hs3. simpl.
  rewrite (agree_load_next K r3 _ Hag3 block Hb). simpl.
  match goal with
  | |- context [raw.store_next r3 new_block ?v] =>
      destruct (agree_store_next K r3 _ Hag3 new_block v Hnew)
        as (r4 & Hs4 & Hag4 & Hl4)
  end.
  rewrite Hs4. simpl.
  destruct (agree_store_next K r4 _ Hag4 block (Some new_block) (Hsp block Hb))
    as (r5 & Hs5 & Hag5 & Hl5).
  rewrite Hs5. simpl.
  exists r5. split_and!; [done | done |].
  split; [apply Hag5 |].
  intros a [Ha | [_ ->]]; [by apply Hag5 |].
  assert (new_block ≠ block) as Hne
    by (subst new_block; unfold sizeof_BlockHeader in *; lia).
  assert (raw.load_size r5 new_block = raw.load_size r1 new_block) as E1
    by (clear Hl1 Hl2 Hl3 Hl4 Hl5; frame; done).
  assert (raw.load_is_free r5 new_block = raw.load_is_free r2 new_block) as E2
    by (clear Hl1 Hl2 Hl3 Hl4 Hl5; frame; done).
  assert (raw.load_next r5 new_block = raw.load_next r4 new_block) as E3
    by (clear Hl1 Hl2 Hl3 Hl4 Hl5; frame; done).
  apply view_Some. rewrite E1, E2, E3, Hl1, Hl2, Hl4.
  autorewrite with heap.
  split_and!; f_equal; repeat case_decide; congruence.
Qed.

Lemma raw_take_block K r st s c prev :
  agree K r st → spaced K → K c → (∀ p, prev = Some p → K p) →
  let t := total_size s in
  let split := negb (size (hdr st c) <? wrap (t + get_min_block_size)) in
  (split = true →
   sizeof_BlockHeader ≤ t ∧ t ≤ size (hdr st c) ∧ room K (c + t)) →
  ∃ r', raw.take_block r s c prev = Some (r', Some (get_data c)) ∧
        (take_block st s c prev).2 = Some (get_data c) ∧
        agree (λ a, K a ∨ split = true ∧ a = c + t) r'
          (take_block st s c prev).1.
Proof.
  intros Hag Hsp Hc Hprev t split Hroom.
  destruct (raw_split_block K r st c s Hag Hsp Hc Hroom) as (r1 & Hs & Hrec & Hag1).
  fold t split in Hag1.
  set (K' := λ a, K a ∨ split = true ∧ a = c + t) in *.
  assert (spaced K') as Hsp'.
  { destruct split eqn:Hsplit.
    - destruct (Hroom eq_refl) as (_ & _ & Hnew).
      intros a Ha. 
      destruct (room_add K (c + t) Hsp Hnew a) as (? & ? & Hap).
      { destruct Ha as [? | [_ ->]]; [by left | by right]. }
      split_and!; [done | done |]. intros b Hb. apply Hap.
      destruct Hb as [? | [_ ->]]; [by left | by right].
    - intros a [Ha | [? _]]; [| done].
      destruct (Hsp a Ha) as (? & ? & Hap). split_and!; [done | done |].
      intros b [Hb | [? _]]; [by apply Hap | done]. }
  assert (K' c) as Hc' by (by left).
  unfold raw.take_block, take_block. rewrite Hs, Hrec. simpl.
  set (st1 := (split_block st c s).1) in *.
  rewrite (agree_free_list K' r1 st1 Hag1).
  assert (∃ r2,
            (if decide (Some c = free_list st1)
             then raw.load_next r1 c ≫= λ block_next,
                    Some (raw.set_free_list r1 block_next)
             else match prev with
                  | Some p => raw.load_next r1 c ≫= λ block_next,
                                raw.store_next r1 p block_next
                  | None => Some r1
                  end) = Some r2 ∧
            agree K' r2
              (if decide (Some c = free_list st1)
               then set_free_list st1 (next (hdr st1 c))
               else match prev with
                    | Some p => set_next st1 p (next (hdr st1 c))
                    | None => st1
                    end)) as (r2 & -> & Hag2).
  { case_decide.
    - rewrite (agree_load_next K' r1 st1 Hag1 c Hc'). simpl.
      eexists. split; [done |]. by apply agree_set_free_list.
    - destruct prev as [p |]; [| by exists r1].
      rewrite (agree_load_next K' r1 st1 Hag1 c Hc'). simpl.
      assert (K' p) as Hp by (left; by apply Hprev).
      destruct (agree_store_next K' r1 st1 Hag1 p (next (hdr st1 c)) (Hsp' p Hp))
        as (r2 & Hs2 & Hag2 & _).
      by exists r2. }
  simpl.
  destruct (agree_store_is_free K' r2 _ Hag2 c false (Hsp' c Hc'))
    as (r3 & -> & Hag3 & _).
  simpl.
  destruct (agree_store_next K' r3 _ Hag3 c None (Hsp' c Hc'))
    as (r4 & -> & Hag4 & _).
  simpl. by exists r4.
Qed.

Lemma raw_malloc_scan K r st s :
  agree K r st → spaced K →
  ∀ fuel cur prev l,
    lseg st cur l None → (∀ x, x ∈ l → K x) → (∀ p, prev = Some p → K p) →
    (∀ c, c ∈ l → total_size s ≤ size (hdr st c) →
       negb (size (hdr st c) <? wrap (total_size s + get_min_block_size)) = true →
       sizeof_BlockHeader ≤ total_size s ∧ room K (c + total_size s)) →
    match malloc_scan fuel st s cur prev with
    | Some (st', res) =>
        ∃ r', raw.malloc_scan fuel r s cur prev = Some (r', res) ∧
              agree (λ a, K a ∨ ∃ p, res = Some p ∧
                       negb (size (hdr st (get_header p))
                             <? wrap (total_size s + get_min_block_size)) = true ∧
                       a = get_header p + total_size s) r' st'
    | None => raw.malloc_scan fuel r s cur prev = None
    end.
Proof.
  intros Hag Hsp. induction fuel as [| fuel IH]; intros cur prev l Hl HK Hprev Hroom;
    [done |].
  simpl. destruct cur as [c |].
  - destruct l as [| x l]; [done |]. destruct Hl as ([= <-] & Hl).
    assert (K c) as Hc by (apply HK; by left).
    rewrite (agree_load_size K r st Hag c Hc). simpl.
    destruct (Z.leb_spec (total_size s) (size (hdr st c))) as [Hfit | Hsmall].
    + destruct (raw_take_block K r st s c prev Hag Hsp Hc Hprev)
        as (r' & Hs & Hres & Hag').
      { intros Hsplit. destruct (Hroom c ltac:(by left) Hfit Hsplit) as [? ?]. done. }
      destruct (take_block st s c prev) as [st' res]. simpl in *. subst res.
      exists r'. split; [done |].
      eapply agree_weaken; [exact Hag' |].
      intros a [Ha | (p & [= <-] & Hsplit & ->)]; [by left |].
      rewrite get_header_get_data in *. by right.
    + rewrite (agree_load_next K r st Hag c Hc). simpl.
      apply (IH _ _ l); [done | | |].
      * intros y Hy. apply HK. by right.
      * by intros p [= <-].
      * intros y Hy. apply Hroom. by right.
  - exists r. split; [done |]. eapply agree_weaken; [exact Hag |].
    intros a [Ha | (p & ? & _)]; done.
Qed.

Lemma my_malloc_null fuel st s st' :
  my_malloc fuel st s = Some (st', None) → st' = st.
Proof.
  unfold my_malloc. destruct (s =? 0); [by intros [= <-] |].
  apply malloc_scan_null.
Qed.

(** The blocks after [my_malloc]: the blocks before it and the
    remainder of a split. *)
Lemma my_malloc_is_block st bs fl s fuel st' res a :
  heap_inv st bs fl → in_range s →
  my_malloc fuel st s = Some (st', res) →
  is_block st' a →
  a ∈ bs ∨
  ∃ p, res = Some p ∧
       negb (size (hdr st (get_header p))
             <? wrap (total_size s + get_min_block_size)) = true ∧
       a = get_header p + total_size s.
Proof.
  intros Hinv Hs Hm Ha. pose proof Hinv as [Hlay _ _ Hfree _].
  destruct res as [p |].
  2: { apply my_malloc_null in Hm as ->. left. by apply (is_block_chain st bs). }
  destruct (my_malloc_block _ _ _ _ _ _ _ Hinv Hs Hm)
    as (c & prev & -> & Hc & Hs0 & [Ht Hle] & Hw & ->).
  apply Hfree in Hc as [Hcb Hcf].
  destruct (chain_bounds _ _ _ _ _ Hlay Hcb) as (Hc0 & HcH & _ & _).
  pose proof (take_block_shape st s c prev ltac:(unfold sizeof_BlockHeader in *; lia))
    as [_ Hshape]. cbv zeta in Hshape.
  rewrite Hw, min_block_size_eq in *.
  induction Ha as [| a Ha IH Hlt].
  - left. apply (is_block_chain st bs 0 Hlay). constructor.
  - destruct (Z.ltb_spec (size (hdr st c)) (total_size s + 32)) as [Hns | Hsp].
    + (* no split *)
      left. destruct IH as [IH | (p & [= <-] & Hsplit & _)].
      2: { rewrite get_header_get_data in Hsplit.
           apply negb_true_iff, Z.ltb_ge in Hsplit.
           rewrite ?min_block_size_eq, ?Hw in Hsplit. lia. }
      assert (size (hdr (take_block st s c prev).1 a) = size (hdr st a)) as Hsz.
      { destruct (decide (a = c)) as [-> | Hne]; [done |].
        apply take_block_frame; [done |]. left. by rewrite min_block_size_eq, Hw. }
      rewrite Hsz in *.
      destruct (chain_succ _ _ _ _ _ Hlay IH) as [? | ?]; [lia | done].
    + destruct Hshape as (Hszc & Hszn & _).
      rewrite wrap_small in Hszn
        by (unfold SIZE_MODULUS, HEAP_SIZE, sizeof_BlockHeader in *; lia).
      destruct (decide (a = c)) as [-> | Hne].
      * right. exists (get_data c). rewrite Hszc, get_header_get_data.
        split_and!; [done | | done].
        apply negb_true_iff, Z.ltb_ge. rewrite ?min_block_size_eq, ?Hw. lia.
      * left. destruct (decide (a = c + total_size s)) as [-> | Hne'].
        -- rewrite Hszn in *.
           replace (c + total_size s + (size (hdr st c) - total_size s))
             with (c + size (hdr st c)) in * by lia.
           destruct (chain_succ _ _ _ _ _ Hlay Hcb) as [? | ?]; [lia | done].
        -- destruct IH as [IH | (p & [= <-] & _ & Heq)];
             [| by rewrite get_header_get_data in Heq].
           assert (size (hdr (take_block st s c prev).1 a) = size (hdr st a)) as Hsz
             by (apply take_block_frame; [done | by right]).
           rewrite Hsz in *.
           destruct (chain_succ _ _ _ _ _ Hlay IH) as [? | ?]; [lia | done].
Qed.

(** The remainder of a split has room among the blocks. *)
Lemma remainder_room st bs s c :
  layout st bs → in_range s → c ∈ bs →
  total_size s ≤ size (hdr st c) →
  negb (size (hdr st c) <? wrap (total_size s + get_min_block_size)) = true →
  sizeof_BlockHeader ≤ total_size s ∧ room (λ a, a ∈ bs) (c + total_size s).
Proof.
  intros Hlay Hs Hcb Hfit Hsplit.
  destruct (chain_bounds _ _ _ _ _ Hlay Hcb) as (Hc0 & HcH & _ & _).
  pose proof (align_size_in_range s Hs) as [Hal _].
  pose proof Hs as [Hs1 _].
  rewrite (total_size_in_range s Hs) in *.
  rewrite min_block_size_eq in Hsplit.
  rewrite wrap_small in Hsplit
    by (unfold SIZE_MODULUS, HEAP_SIZE, sizeof_BlockHeader in *; lia).
  apply negb_true_iff, Z.ltb_ge in Hsplit.
  unfold room, sizeof_BlockHeader in *. split_and!; try lia.
  intros b Hb. unfold apart, sizeof_BlockHeader.
  destruct (Z.lt_trichotomy b c) as [Hlt | [-> | Hgt]].
  - pose proof (chain_disjoint _ _ _ _ _ _ Hlay Hb Hcb Hlt).
    destruct (chain_bounds _ _ _ _ _ Hlay Hb) as (_ & _ & ? & _). lia.
  - lia.
  - pose proof (chain_disjoint _ _ _ _ _ _ Hlay Hcb Hb Hgt). lia.
Qed.

Lemma raw_my_malloc st bs fl s fuel r :
  heap_inv st bs fl → in_range s → agree (λ a, a ∈ bs) r st →
  match my_malloc fuel st s with
  | Some (st', res) =>
      ∃ r', raw.my_malloc fuel r s = Some (r', res) ∧ agree (is_block st') r' st'
  | None => raw.my_malloc fuel r s = None
  end.
Proof.
  intros Hinv Hs Hag. pose proof Hinv as [Hlay Hent _ Hfree _].
  pose proof (layout_spaced _ _ Hlay) as Hsp.
  pose proof (my_malloc_is_block st bs fl s fuel) as Hblocks.
  unfold my_malloc, raw.my_malloc in *.
  destruct (Z.eqb_spec s 0) as [-> | Hs0].
  { exists r. split; [done |].
    eapply agree_weaken; [exact Hag |]. intros a. by apply is_block_chain. }
  rewrite (agree_free_list _ r st Hag).
  pose proof (raw_malloc_scan (λ a, a ∈ bs) r st s Hag Hsp fuel (free_list st) None fl
                Hent) as Hscan.
  destruct (malloc_scan fuel st s (free_list st) None) as [[st' res] |].
  - destruct Hscan as (r' & Hr' & Hag').
    + intros x Hx. by apply Hfree in Hx as [? _].
    + done.
    + intros c [Hcb _]%Hfree. by apply remainder_room.
    + exists r'. split; [done |].
      eapply agree_weaken; [exact Hag' |]. intros a Ha. by eapply Hblocks.
  - apply Hscan.
    + intros x Hx. by apply Hfree in Hx as [? _].
    + done.
    + intros c [Hcb _]%Hfree. by apply remainder_room.
Qed.

(** * Runs on the bytes *)

(** A store of the caller that touches no header of [K]. *)
Lemma agree_poke_outside K r st a c :
  agree K r st → (∀ x, K x → a < x ∨ x + sizeof_BlockHeader ≤ a) →
  agree K (raw.poke r a c) st.
Proof.
  intros [Hfl Hv] Hout. split; [done |]. intros x Hx. rewrite <- (Hv x Hx).
  specialize (Hout x Hx).
  unfold raw.view, raw.load_size, raw.load_is_free, raw.load_next,
    raw.OFFSET_size, raw.OFFSET_is_free, raw.OFFSET_next.
  rewrite !load_poke by (unfold sizeof_BlockHeader in *; simpl; lia). done.
Qed.

(** The user bytes of an outstanding allocation hold no header of a
    block. *)
Lemma live_clear st bs live p n x :
  layout st bs → live_inv st bs live → (p, n) ∈ live → x ∈ bs →
  x = get_header p ∨ x + sizeof_BlockHeader ≤ get_header p ∨ p + n ≤ x.
Proof.
  intros Hlay Hlive Hp Hx.
  destruct (live_used _ _ _ Hlive p n Hp) as (Hb & _ & _ & Hlo & _).
  unfold get_header, sizeof_BlockHeader in *.
  destruct (Z.lt_trichotomy x (p - 24)) as [Hlt | [-> | Hgt]].
  - pose proof (chain_disjoint _ _ _ _ _ _ Hlay Hx Hb Hlt).
    destruct (chain_bounds _ _ _ _ _ Hlay Hx) as (_ & _ & ? & _). lia.
  - by left.
  - pose proof (chain_disjoint _ _ _ _ _ _ Hlay Hb Hx Hgt). lia.
Qed.

Lemma agree_poke st bs fl live r p n a c :
  heap_inv st bs fl → live_inv st bs live → (p, n) ∈ live → p ≤ a < p + n →
  agree (λ x, x ∈ bs) r st → agree (λ x, x ∈ bs) (raw.poke r a c) st.
Proof.
  intros [Hlay _ _ _ _] Hlive Hp Ha Hag.
  apply agree_poke_outside; [done |]. intros x Hx.
  destruct (live_clear st bs live p n x Hlay Hlive Hp Hx) as [-> | [? | ?]];
    unfold get_header, sizeof_BlockHeader in *; lia.
Qed.

(** The blocks after the release of an outstanding pointer are blocks
    that were there before. *)
Lemma my_free_is_block st bs fl live p n fuel st' e a :
  heap_inv st bs fl → live_inv st bs live → (p, n) ∈ live →
  my_free fuel st (Some p) = Some (st', e) →
  is_block st' a → a ∈ bs.
Proof.
  intros Hinv Hlive Hin Hrec Ha.
  destruct (my_free_inv st bs fl live p n fuel Hinv Hlive Hin)
    as (st2 & B1 & B2 & HB & _ & Hres & (fl' & Hinv') & _).
  pose proof (Hres _ Hrec) as [= -> _]. simpl in Hinv'.
  apply (is_block_chain st2 _ a (inv_layout _ _ _ Hinv')) in Ha.
  rewrite HB. apply elem_of_app in Ha as [Ha | Ha].
  - apply elem_of_app. left. by eapply subseteq_take.
  - apply elem_of_cons in Ha as [-> | Ha].
    + unfold pred_free. destruct (last B1) as [x |] eqn:Hlast; simpl; [| set_solver].
      destruct (is_free (hdr st x)); simpl; [| set_solver].
      apply last_Some in Hlast as (l' & ->). set_solver.
    + apply elem_of_app. right. right. by eapply subseteq_drop.
Qed.

(** No release clears a flag. *)
Lemma my_free_keeps_free fuel st q st' e x :
  my_free fuel st q = Some (st', e) →
  is_free (hdr st x) = true → is_free (hdr st' x) = true.
Proof.
  unfold my_free. destruct q as [p |]; [| by intros [= <- _]].
  destruct (negb (is_valid_ptr (get_header p))); [by intros [= <- _] |].
  destruct (is_free (hdr st (get_header p))); [by intros [= <- _] |].
  destruct (coalesce_block _ _ _) as [[st2 res] |] eqn:Hc; simpl; [| done].
  pose proof (coalesce_block_is_free _ _ _ _ _ x Hc) as Hf.
  autorewrite with heap in Hf.
  intros H Hx. rewrite Hx in Hf.
  assert (is_free (hdr st2 x) = true) as Hx2 by (by case_decide).
  destruct res as [b |]; injection H as <- _; by autorewrite with heap.
Qed.

Lemma init_agree : agree (is_block init_allocator) raw.init_allocator init_allocator.
Proof.
  split; [done |]. intros a Ha.
  apply (is_block_chain init_allocator [0]) in Ha; [| apply init_inv].
  apply list_elem_of_singleton in Ha as ->. vm_compute. reflexivity.
Qed.

(** Every run on the bytes is a run on the header records, and the
    headers of the blocks read as the records. *)
Lemma raw_reach_records r live :
  raw.reach r live → ∃ st, reach in_range st live ∧ agree (is_block st) r st.
Proof.
  induction 1 as [| r live fuel s r' _ IH Hs Hm | r live fuel s r' p _ IH Hs Hm
                  | r live fuel p n r' e _ IH Hin Hf | r live fuel q r' e _ IH Hf Hq
                  | r live p n a c _ IH Hin Ha].
  - exists init_allocator. split; [constructor | apply init_agree].
  - destruct IH as (st & Hreach & Hag).
    destruct (reach_inv _ _ Hreach) as (bs & fl & Hinv & Hlive).
    assert (agree (λ a, a ∈ bs) r st) as Hag'.
    { eapply agree_weaken; [exact Hag |]. intros a. apply is_block_chain, Hinv. }
    pose proof (raw_my_malloc st bs fl s fuel r Hinv Hs Hag') as Hsim.
    destruct (my_malloc fuel st s) as [[st' res] |] eqn:Hrec; [| congruence].
    destruct Hsim as (r2 & Hr2 & Hag2).
    rewrite Hm in Hr2. injection Hr2 as <- <-.
    exists st'. split; [| done]. by eapply reach_malloc_null.
  - destruct IH as (st & Hreach & Hag).
    destruct (reach_inv _ _ Hreach) as (bs & fl & Hinv & Hlive).
    assert (agree (λ a, a ∈ bs) r st) as Hag'.
    { eapply agree_weaken; [exact Hag |]. intros a. apply is_block_chain, Hinv. }
    pose proof (raw_my_malloc st bs fl s fuel r Hinv Hs Hag') as Hsim.
    destruct (my_malloc fuel st s) as [[st' res] |] eqn:Hrec; [| congruence].
    destruct Hsim as (r2 & Hr2 & Hag2).
    rewrite Hm in Hr2. injection Hr2 as <- <-.
    exists st'. split; [| done]. by eapply reach_malloc.
  - destruct IH as (st & Hreach & Hag).
    destruct (reach_inv _ _ Hreach) as (bs & fl & Hinv & Hlive).
    assert (agree (λ a, a ∈ bs) r st) as Hag'.
    { eapply agree_weaken; [exact Hag |]. intros a. apply is_block_chain, Hinv. }
    pose proof (raw_my_free _ st bs fl live p n fuel r Hinv Hlive Hin
                  (layout_spaced _ _ (inv_layout _ _ _ Hinv)) (λ a Ha, Ha) Hag') as Hsim.
    unfold along in Hsim.
    destruct (my_free fuel st (Some p)) as [[st' e'] |] eqn:Hrec; [| congruence].
    destruct Hsim as (r2 & Hr2 & Hag2).
    rewrite Hf in Hr2. injection Hr2 as <- <-.
    exists st'. split; [by eapply reach_free |].
    eapply agree_weaken; [exact Hag2 |]. intros a Ha.
    by eapply my_free_is_block.
  - apply raw_my_free_rejected in Hf as ->; done.
  - destruct IH as (st & Hreach & Hag). exists st. split; [done |].
    destruct (reach_inv _ _ Hreach) as (bs & fl & Hinv & Hlive).
    assert (agree (λ a, a ∈ bs) (raw.poke r a c) st) as Hag'.
    { eapply agree_poke; try done.
      eapply agree_weaken; [exact Hag |]. intros x. apply is_block_chain, Hinv. }
    eapply agree_weaken; [exact Hag' |]. intros x. apply is_block_chain, Hinv.
Qed.

(** * Outstanding allocations *)

(** C1 (as amended). In every state reached by [my_malloc] calls of at
    most [MAX_REQUEST] bytes, by [my_free] calls on outstanding pointers,
    on [nullptr] and ones that write a message, and by stores of the
    callers into their outstanding allocations, within the aligned size
    of the request: every outstanding pointer, recorded with the aligned
    size of its request, is 8-byte aligned; the size field of its block
    reads as a size with which the block lies in the buffer and gives
    the pointer at least the aligned size and less than a minimum block
    more; and its block, header and user bytes, does not overlap the
    block of any other outstanding pointer. *)
Theorem live_allocations_disjoint (r : raw.allocator) (live : list (Z * Z)) :
  raw.reach r live →
  NoDup (live.*1) ∧
  ∀ p n, (p, n) ∈ live →
    ∃ block_size,
      raw.load_size r (get_header p) = Some block_size ∧
      p mod ALIGN_SIZE = 0 ∧
      0 ≤ get_header p ∧ get_header p + block_size ≤ HEAP_SIZE ∧
      n ≤ block_size - sizeof_BlockHeader < n + get_min_block_size ∧
      ∀ q m, (q, m) ∈ live → q ≠ p →
        ∃ other_size,
          raw.load_size r (get_header q) = Some other_size ∧
          (get_header p + block_size ≤ get_header q ∨
           get_header q + other_size ≤ get_header p).
Proof.
  intros (st & Hreach & Hag)%raw_reach_records.
  destruct (reach_inv _ _ Hreach) as (bs & fl & Hinv & Hlive).
  split; [apply (live_nodup _ _ _ Hlive) |].
  pose proof (inv_layout _ _ _ Hinv) as Hlay.
  assert (∀ p n, (p, n) ∈ live →
            get_header p ∈ bs ∧
            raw.load_size r (get_header p) = Some (size (hdr st (get_header p))))
    as Hsize.
  { intros p n Hin. destruct (live_used _ _ _ Hlive p n Hin) as (Hb & _).
    split; [done |]. apply (agree_load_size _ r st Hag).
    by apply (is_block_chain st bs). }
  intros p n Hin. destruct (Hsize p n Hin) as (Hb & Hload).
  destruct (live_used _ _ _ Hlive p n Hin) as (_ & _ & _ & Hlo & Hhi).
  destruct (chain_bounds _ _ _ _ _ Hlay Hb) as (? & ? & ? & _).
  exists (size (hdr st (get_header p))). split_and!; try done; try lia.
  - pose proof (chain_aligned _ _ _ _ _ Hlay eq_refl Hb) as Hal.
    unfold get_header, sizeof_BlockHeader, ALIGN_SIZE in *.
    replace p with ((p - 24) + 3 * 8) by lia.
    rewrite Z.mod_add by lia. done.
  - intros q m Hq Hne. destruct (Hsize q m Hq) as (Hbq & Hloadq).
    exists (size (hdr st (get_header q))). split; [done |].
    assert (get_header p ≠ get_header q) by (unfold get_header; lia).
    destruct (Z.lt_ge_cases (get_header p) (get_header q)).
    + left. by apply (chain_disjoint _ _ _ _ _ _ Hlay).
    + right. apply (chain_disjoint _ _ _ _ _ _ Hlay); [done | done | lia].
Qed.

Lemma reach_sample_two :
  raw.reach raw.sample_two [(56, align_size 8); (24, align_size 8)].
Proof.
  apply (raw.reach_malloc raw.sample_one [(24, align_size 8)] 1 8 raw.sample_two 56).
  - apply (raw.reach_malloc raw.init_allocator [] 1 8 raw.sample_one 24).
    + apply raw.reach_init.
    + unfold in_range, MAX_REQUEST, SIZE_MODULUS. lia.
    + vm_compute. reflexivity.
  - unfold in_range, MAX_REQUEST, SIZE_MODULUS. lia.
  - vm_compute. reflexivity.
Qed.

Lemma live_allocations_disjoint_witness :
  NoDup ([(56, align_size 8); (24, align_size 8)].*1) ∧
  ∀ p n, (p, n) ∈ [(56, align_size 8); (24, align_size 8)] →
    ∃ block_size,
      raw.load_size raw.sample_two (get_header p) = Some block_size ∧
      p mod ALIGN_SIZE = 0 ∧
      0 ≤ get_header p ∧ get_header p + block_size ≤ HEAP_SIZE ∧
      n ≤ block_size - sizeof_BlockHeader < n + get_min_block_size ∧
      ∀ q m, (q, m) ∈ [(56, align_size 8); (24, align_size 8)] → q ≠ p →
        ∃ other_size,
          raw.load_size raw.sample_two (get_header q) = Some other_size ∧
          (get_header p + block_size ≤ get_header q ∨
           get_header q + other_size ≤ get_header p).
Proof.
  exact (live_allocations_disjoint raw.sample_two _ reach_sample_two).
Defined.

(** C1 as stated fails in three ways.  A block that cannot be split is
    handed over whole and then holds more user bytes than the aligned
    request: [my_malloc(1048544)] on the fresh heap returns the whole
    heap, 1048552 user bytes.  A release that [my_free] should have
    rejected and did not makes outstanding allocations overlap: after
    [a = my_malloc(16)], [b = my_malloc(8)], [my_free(a)], [my_free(b)],
    [c = my_malloc(8)] the second [my_free(b)] is accepted, and then
    [my_malloc(8)] returns 64 and [my_malloc(1048500)] returns 56, whose
    bytes hold those of the former.  A request whose total size wraps is
    served from a block that stays in the free list: [my_malloc(2^64 -
    25)] returns the same pointer twice; and [my_malloc(2^64 - 1)]
    returns a pointer to no byte at all. *)
Lemma live_allocations_counterexamples :
  (∃ r, raw.replay 1 raw.init_allocator [raw.Malloc 1048544]
        = Some (r, [raw.Returned (Some 24)]) ∧
        align_size 1048544 = 1048544 ∧
        raw.usable_bytes r 24 = Some 1048552) ∧
  (∃ r, raw.replay 2 raw.init_allocator
          (raw.stale_header_run ++
           [raw.Free (Some 64); raw.Malloc 8; raw.Malloc 1048500])
        = Some (r, [raw.Returned (Some 24); raw.Returned (Some 64);
                    raw.Released None; raw.Released None;
                    raw.Returned (Some 24);
                    raw.Released None;
                    raw.Returned (Some 64); raw.Returned (Some 56)]) ∧
        56 ≤ 64 < 56 + align_size 1048500) ∧
  (∃ r, raw.replay 1 raw.init_allocator
          [raw.Malloc WRAPPING_REQUEST; raw.Malloc WRAPPING_REQUEST]
        = Some (r, [raw.Returned (Some 24); raw.Returned (Some 24)])) ∧
  (∃ r, raw.replay 1 raw.init_allocator [raw.Malloc (SIZE_MODULUS - 1)]
        = Some (r, [raw.Returned (Some 24)]) ∧
        raw.usable_bytes r 24 = Some 0).
Proof.
  split_and!.
  - eexists. split; [vm_compute; reflexivity |]. split; vm_compute; reflexivity.
  - eexists. split; [vm_compute; reflexivity |]. vm_compute. split; [discriminate | done].
  - eexists. vm_compute. reflexivity.
  - eexists. split; [vm_compute; reflexivity |]. vm_compute. reflexivity.
Qed.

(** * Releasing twice *)

(** C2. A second release that is accepted.  After [a = my_malloc(16)],
    [b = my_malloc(8)], [my_free(a)], [my_free(b)] the two blocks and the
    rest of the heap are one free block, and the header that [b] had lies
    in its user bytes, its flag at offset 48 set.  [c = my_malloc(8)]
    splits that block at offset 32, and the [next] field of the
    remainder, which [split_block] stores at offset 48, clears the flag.
    [b] was released and not allocated again, yet the second
    [my_free(b)] finds the flag clear: it writes no message, marks the
    bytes at offset 40 as a free block of the size they happen to hold
    and makes them the head of the free list. *)
Theorem second_release_accepted_over_stale_header :
  raw.replay 2 raw.init_allocator raw.stale_header_run
  = Some (raw.sample_stale,
          [raw.Returned (Some 24); raw.Returned (Some 64);
           raw.Released None; raw.Released None; raw.Returned (Some 24)]) ∧
  raw.free_list raw.sample_stale = Some 32 ∧
  raw.load_is_free raw.sample_stale (get_header 64) = Some false ∧
  ∃ r,
    raw.my_free 2 raw.sample_stale (Some 64) = Some (r, None) ∧
    r ≠ raw.sample_stale ∧
    raw.free_list r = Some (get_header 64) ∧
    raw.view r (get_header 64) = Some (mkBlockHeader 1048321 true (Some 32)).
Proof.
  split; [vm_compute; reflexivity |].
  split; [vm_compute; reflexivity |].
  split; [vm_compute; reflexivity |].
  eexists. split; [vm_compute; reflexivity |].
  split.
  - intros Heq. apply (f_equal raw.free_list) in Heq. vm_compute in Heq. done.
  - split; vm_compute; reflexivity.
Qed.

(** The releases and the stores of the callers that follow a state
    keep the bytes and the records in step on the headers [K] that
    were in step before, if the user bytes of the outstanding
    allocations hold none of them. *)
Lemma released_records K r0 live0 st0 r live :
  reach in_range st0 live0 → agree K r0 st0 → spaced K →
  (∀ a, is_block st0 a → K a) →
  (∀ p n x, (p, n) ∈ live0 → K x →
     x = get_header p ∨ x + sizeof_BlockHeader ≤ get_header p ∨ p + n ≤ x) →
  raw.released r0 live0 r live →
  ∃ st, reach in_range st live ∧ agree K r st ∧
        (∀ a, is_block st a → K a) ∧
        (∀ x, is_free (hdr st0 x) = true → is_free (hdr st x) = true) ∧
        (∀ p n, (p, n) ∈ live → (p, n) ∈ live0).
Proof.
  intros Hreach0 Hag0 Hsp HK0 Hclear.
  induction 1 as [| r live fuel p n r' e _ IH Hin Hf
                  | r live fuel q r' e _ IH Hf Hq
                  | r live p n a c _ IH Hin Ha].
  - by exists st0.
  - destruct IH as (st & Hreach & Hag & HK & Hflags & Hsub).
    destruct (reach_inv _ _ Hreach) as (bs & fl & Hinv & Hlive).
    assert (∀ a, a ∈ bs → K a) as HKbs
      by (intros a Ha; by apply HK, (is_block_chain st bs), Ha; apply Hinv).
    pose proof (raw_my_free K st bs fl live p n fuel r Hinv Hlive Hin Hsp HKbs Hag)
      as Hsim.
    unfold along in Hsim.
    destruct (my_free fuel st (Some p)) as [[st' e'] |] eqn:Hrec; [| congruence].
    destruct Hsim as (r2 & Hr2 & Hag2).
    rewrite Hf in Hr2. injection Hr2 as <- <-.
    exists st'. split_and!.
    + by eapply reach_free.
    + done.
    + intros a Ha. apply HKbs. by eapply my_free_is_block.
    + intros x Hx. eapply my_free_keeps_free; [exact Hrec | by apply Hflags].
    + intros q m Hqm. apply Hsub. by apply elem_of_forget in Hqm as [_ ?].
  - apply raw_my_free_rejected in Hf as ->; done.
  - destruct IH as (st & Hreach & Hag & HK & Hflags & Hsub).
    exists st. split_and!; try done.
    apply agree_poke_outside; [done |]. intros x Hx.
    destruct (Hclear p n x (Hsub _ _ Hin) Hx) as [-> | [? | ?]];
      unfold get_header, sizeof_BlockHeader in *; lia.
Qed.

(** X29. In every state reached as for C1, the release of an
    outstanding pointer goes through without a message; and after it,
    whatever further releases (of outstanding pointers, of [nullptr],
    rejected ones) and stores of the callers into their outstanding
    allocations follow, as long as [my_malloc] is not called, a second
    release of the same pointer writes the double-free message and
    leaves every byte of the buffer and the free list as they were. *)
Theorem double_free_rejected_before_next_malloc
  (r r1 r2 : raw.allocator) (live live2 : list (Z * Z)) (p n : Z)
  (fuel fuel' : nat) (e : option free_error) :
  raw.reach r live → (p, n) ∈ live →
  raw.my_free fuel r (Some p) = Some (r1, e) →
  raw.released r1 (forget p live) r2 live2 →
  e = None ∧
  raw.my_free fuel' r2 (Some p) = Some (r2, Some ERR_double_free).
Proof.
  intros (st & Hreach & Hag)%raw_reach_records Hin Hf Hrel.
  destruct (reach_inv _ _ Hreach) as (bs & fl & Hinv & Hlive).
  pose proof (layout_spaced _ _ (inv_layout _ _ _ Hinv)) as Hsp.
  assert (agree (λ a, a ∈ bs) r st) as Hag'.
  { eapply agree_weaken; [exact Hag |]. intros a. apply is_block_chain, Hinv. }
  pose proof (raw_my_free _ st bs fl live p n fuel r Hinv Hlive Hin Hsp (λ a Ha, Ha) Hag')
    as Hsim.
  unfold along in Hsim.
  destruct (my_free fuel st (Some p)) as [[st1 e'] |] eqn:Hrec; [| congruence].
  destruct Hsim as (r' & Hr' & Hag1).
  rewrite Hf in Hr'. injection Hr' as <- <-.
  destruct (my_free_inv st bs fl live p n fuel Hinv Hlive Hin)
    as (st' & B1 & B2 & HB & _ & Hres & _).
  pose proof (Hres _ Hrec) as [= -> ->]. split; [done |].
  destruct (my_free_marks_free _ _ _ _ Hrec) as [Hvalid Hfree].
  destruct (live_used _ _ _ Hlive p n Hin) as (Hb & _).
  destruct (released_records (λ a, a ∈ bs) r1 (forget p live) st' r2 live2)
    as (st2 & _ & Hag2 & _ & Hflags & _); try done.
  - by eapply reach_free.
  - intros a Ha. by eapply my_free_is_block.
  - intros q m x [_ Hqm]%elem_of_forget Hx.
    by apply (live_clear st bs live q m x (inv_layout _ _ _ Hinv) Hlive).
  - unfold raw.my_free. rewrite Hvalid. simpl.
    rewrite (agree_load_is_free _ r2 st2 Hag2 (get_header p) Hb), (Hflags _ Hfree).
    done.
Qed.

Lemma double_free_rejected_before_next_malloc_witness :
  @None free_error = None ∧
  raw.my_free 0
    (raw.state_after 2 raw.sample_two [raw.Free (Some 56); raw.Free (Some 24)])
    (Some 56)
  = Some (raw.state_after 2 raw.sample_two
            [raw.Free (Some 56); raw.Free (Some 24)],
          Some ERR_double_free).
Proof.
  apply (double_free_rejected_before_next_malloc raw.sample_two
           (raw.state_after 1 raw.sample_two [raw.Free (Some 56)]) _
           [(56, align_size 8); (24, align_size 8)]
           (forget 24 (forget 56 [(56, align_size 8); (24, align_size 8)]))
           56 (align_size 8) 1 0 None reach_sample_two).
  - by left.
  - vm_compute. reflexivity.
  - apply (raw.released_free _ _
             (raw.state_after 1 raw.sample_two [raw.Free (Some 56)])
             (forget 56 [(56, align_size 8); (24, align_size 8)])
             2 24 (align_size 8) _ None).
    + apply raw.released_refl.
    + vm_compute. by left.
    + vm_compute. reflexivity.
Defined.

(** X30. The header records are what the bytes hold: every run on the
    bytes as for C1 is a run on the header records, after which the free
    list heads are the same and the three fields of the header of every
    block read from the bytes as the record of the block says. *)
Theorem bytes_read_as_records (r : raw.allocator) (live : list (Z * Z)) :
  raw.reach r live →
  ∃ st, reach in_range st live ∧
        raw.free_list r = free_list st ∧
        ∀ a, is_block st a →
          raw.load_size r a = Some (size (hdr st a)) ∧
          raw.load_is_free r a = Some (is_free (hdr st a)) ∧
          raw.load_next r a = Some (next (hdr st a)).
Proof.
  intros (st & Hreach & Hag)%raw_reach_records.
  exists st. split; [done |]. split; [apply Hag |].
  intros a Ha. by apply view_Some, Hag.
Qed.

Lemma bytes_read_as_records_witness :
  ∃ st, reach in_range st [(56, align_size 8); (24, align_size 8)] ∧
        raw.free_list raw.sample_two = free_list st ∧
        ∀ a, is_block st a →
          raw.load_size raw.sample_two a = Some (size (hdr st a)) ∧
          raw.load_is_free raw.sample_two a = Some (is_free (hdr st a)) ∧
          raw.load_next raw.sample_two a = Some (next (hdr st a)).
Proof.
  exact (bytes_read_as_records raw.sample_two _ reach_sample_two).
Defined.
